(** * Audio transcriber: PCM codec, recording state machine, transcript reconciler

    A shallow embedding of [src/utils/audio.ts], of the hook
    [src/hooks/useAudioTranscription.ts] and of the note reconciliation of the
    [App] component, with the properties of the specification proved about it,
    and of the editor, the clock, the drag overlay and the hand-off of a shared
    file ([src/App.tsx] and the service worker), with further properties of
    the code.

    Conventions of the embedding.
    - A JavaScript string is the list of its UTF-16 code units ([list Z]);
      [str] turns an ASCII literal into such a list.
    - A byte is a [Z] in [0, 256); typed arrays are lists.
    - A JavaScript number that holds a sample is a [number]: an exact
      rational, an infinity or NaN.  Counters, lengths and offsets are [Z].
    - Code that can throw returns a [result]. *)

From Stdlib Require Import ZArith QArith Qabs Lqa Lia List String Ascii
  DecimalString.
From stdpp Require Import base option list gmap.

Local Open Scope Z_scope.

(** ** JavaScript strings as code-unit sequences *)

Module JS.

Definition jsstring := list Z.

Definition str (s : string) : list Z :=
  map (fun c => Z.of_N (N_of_ascii c)) (list_ascii_of_string s).

(** What a [throw] or a rejected promise carries: an [Error] object (or one
    of a subclass, told by [name]) with its message, or some other value. *)
Inductive exn :=
  | Error (name : string) (message : list Z)
  | Thrown.

Definition RangeError : exn :=
  Error "RangeError" (str "Offset is outside the bounds of the DataView").
Definition NotSupportedError : exn :=
  Error "NotSupportedError" (str "The operation is not supported.").
Definition InvalidCharacterError : exn :=
  Error "InvalidCharacterError" (str "The string to be encoded contains characters outside of the Latin1 range.").

Inductive result (A : Type) :=
  | Ok (a : A)
  | Throw (e : exn).
Arguments Ok {A} a.
Arguments Throw {A} e.

#[global] Instance result_ret : MRet result := fun A a => Ok a.

#[global] Instance result_bind : MBind result := fun A B k m =>
  match m with
  | Ok a => k a
  | Throw e => Throw e
  end.

End JS.

Import JS.

(** ** String methods *)

Module JSString.

(** WhiteSpace and LineTerminator code units of ECMAScript, what [trim] strips. *)
Definition isWhiteSpace (c : Z) : bool :=
  bool_decide (c ∈ [9; 10; 11; 12; 13; 32; 160; 5760; 8232; 8233; 8239; 8287;
                    12288; 65279])
  || ((8192 <=? c) && (c <=? 8202)).

Fixpoint trimStart (s : list Z) : list Z :=
  match s with
  | c :: s' => if isWhiteSpace c then trimStart s' else s
  | [] => []
  end.

Definition trimEnd (s : list Z) : list Z := reverse (trimStart (reverse s)).

Definition trim (s : list Z) : list Z := trimEnd (trimStart s).

(** [toLowerCase], exact on the code units that can lower-case to ASCII
    text: A..Z, the Kelvin sign and the dotted capital I.  Any other code unit
    lower-cases to non-ASCII text and is kept as it is, which a comparison
    with ASCII text cannot tell apart. *)
Definition toLowerUnit (c : Z) : list Z :=
  if (65 <=? c) && (c <=? 90) then [c + 32]
  else if c =? 8490 then [107]
  else if c =? 304 then [105; 775]
  else [c].

Definition toLowerCase (s : list Z) : list Z := flat_map toLowerUnit s.

(** [s.split(sep)] for a separator of one code unit. *)
Fixpoint split (sep : Z) (s : list Z) : list (list Z) :=
  match s with
  | [] => [[]]
  | c :: s' =>
      if c =? sep then [] :: split sep s'
      else match split sep s' with
           | seg :: segs => (c :: seg) :: segs
           | [] => [[c]]
           end
  end.

(** [array.pop()], the value it returns. *)
Definition pop {A} (l : list A) : option A := last l.

Definition startsWith (s searchString : list Z) : bool :=
  bool_decide (take (length searchString) s = searchString).

Definition endsWith (s searchString : list Z) : bool :=
  (length searchString <=? length s)%nat
  && bool_decide (drop (length s - length searchString) s = searchString).

Fixpoint includes (s searchString : list Z) : bool :=
  startsWith s searchString
  || match s with
     | [] => false
     | _ :: s' => includes s' searchString
     end.


(** [s.substring(start)]. *)
Definition substring (s : list Z) (start : Z) : list Z :=
  let len := Z.of_nat (length s) in
  drop (Z.to_nat (Z.min (Z.max start 0) len)) s.

(** Truthiness of a string: it is not empty. *)
Definition truthy (s : list Z) : bool := negb (bool_decide (s = [])).

End JSString.

(** ** Numbers *)

(** The values a sample can take.  Every finite IEEE double is a rational, and
    on the samples of a [Float32Array] (24-bit significands) the products by
    32767 and 32768 below are exact in double precision, as is the division of
    a 16-bit integer by 32768, so rational arithmetic is what the code does. *)
Inductive number :=
  | Num (q : Q)
  | PosInf
  | NegInf
  | NaN.

Definition Qltb (x y : Q) : bool := negb (Qle_bool y x).

(** [a < b] of JavaScript. *)
Definition number_lt (a b : number) : bool :=
  match a, b with
  | NaN, _ | _, NaN => false
  | Num x, Num y => Qltb x y
  | NegInf, NegInf => false
  | NegInf, _ => true
  | _, NegInf => false
  | PosInf, _ => false
  | Num _, PosInf => true
  end.

Definition Math_min (a b : number) : number :=
  match a, b with
  | NaN, _ | _, NaN => NaN
  | _, _ => if number_lt b a then b else a
  end.

Definition Math_max (a b : number) : number :=
  match a, b with
  | NaN, _ | _, NaN => NaN
  | _, _ => if number_lt a b then b else a
  end.

Definition Qsign (q : Q) : Z := Z.sgn (Qnum q).

(** [a * b] of JavaScript. *)
Definition number_mul (a b : number) : number :=
  match a, b with
  | NaN, _ | _, NaN => NaN
  | Num x, Num y => Num (x * y)
  | Num x, PosInf | PosInf, Num x =>
      match Qsign x with 0 => NaN | Zpos _ => PosInf | Zneg _ => NegInf end
  | Num x, NegInf | NegInf, Num x =>
      match Qsign x with 0 => NaN | Zpos _ => NegInf | Zneg _ => PosInf end
  | PosInf, PosInf | NegInf, NegInf => PosInf
  | PosInf, NegInf | NegInf, PosInf => NegInf
  end.

(** [a / b] of JavaScript for a finite non-zero divisor [b]. *)
Definition number_div (a : number) (b : Q) : number :=
  match a with
  | Num x => Num (x / b)
  | PosInf => if Qltb b 0 then NegInf else PosInf
  | NegInf => if Qltb b 0 then PosInf else NegInf
  | NaN => NaN
  end.

(** Truncation towards zero, the integer part that ToInt16 and ToUint32 keep. *)
Definition trunc (q : Q) : Z := Z.quot (Qnum q) (Zpos (Qden q)).

Definition wrap_signed (bits : Z) (v : Z) : Z :=
  let m := v mod 2 ^ bits in
  if 2 ^ (bits - 1) <=? m then m - 2 ^ bits else m.

(** ToInt16 of ECMAScript: NaN and the infinities give 0, a finite value is
    truncated and wrapped into [-32768, 32767]. *)
Definition ToInt16 (x : number) : Z :=
  match x with
  | Num q => wrap_signed 16 (trunc q)
  | _ => 0
  end.

(** ** Byte buffers and DataView *)

Fixpoint le_bytes (n : nat) (v : Z) : list Z :=
  match n with
  | O => []
  | S n' => v mod 256 :: le_bytes n' (v / 256)
  end.

(** The unsigned value of a little-endian byte sequence. *)
Fixpoint le_value (bs : list Z) : Z :=
  match bs with
  | [] => 0
  | b :: bs' => b + 256 * le_value bs'
  end.

(** Storing consecutive bytes through a DataView: a RangeError when the
    bytes do not lie inside the view, the view with them replaced otherwise. *)
Definition writeBytes (view : list Z) (byteOffset : Z) (bs : list Z)
  : result (list Z) :=
  if (0 <=? byteOffset) && (byteOffset + Z.of_nat (length bs) <=? Z.of_nat (length view))
  then Ok (take (Z.to_nat byteOffset) view ++ bs
           ++ drop (Z.to_nat byteOffset + length bs) view)
  else Throw RangeError.

Definition setUint8 (view : list Z) (byteOffset value : Z) : result (list Z) :=
  writeBytes view byteOffset (le_bytes 1 (value mod 2 ^ 8)).

(** The setters below are the little-endian ones ([littleEndian = true]),
    the only ones the code calls. *)
Definition setUint16 (view : list Z) (byteOffset value : Z) : result (list Z) :=
  writeBytes view byteOffset (le_bytes 2 (value mod 2 ^ 16)).

Definition setUint32 (view : list Z) (byteOffset value : Z) : result (list Z) :=
  writeBytes view byteOffset (le_bytes 4 (value mod 2 ^ 32)).

Definition setInt16 (view : list Z) (byteOffset : Z) (value : number)
  : result (list Z) :=
  writeBytes view byteOffset (le_bytes 2 (ToInt16 value mod 2 ^ 16)).

(** ** src/utils/audio.ts *)

Module Audio.

(** [Math.max(-1, Math.min(1, x))]. *)
Definition clamp (x : number) : number :=
  Math_max (Num (-1)) (Math_min (Num 1) x).

(** [s < 0 ? s * 0x8000 : s * 0x7FFF] on the clamped sample. *)
Definition scale (s : number) : number :=
  if number_lt s (Num 0) then number_mul s (Num 32768)
  else number_mul s (Num 32767).

Fixpoint writeString (view : list Z) (offset : Z) (s : list Z)
  : result (list Z) :=
  match s with
  | [] => Ok view
  | c :: s' =>
      view' ← setUint8 view offset c;
      writeString view' (offset + 1) s'
  end.

Fixpoint floatTo16BitPCM (output : list Z) (offset : Z) (input : list number)
  : result (list Z) :=
  match input with
  | [] => Ok output
  | x :: input' =>
      let s := clamp x in
      output' ← setInt16 output offset (scale s);
      floatTo16BitPCM output' (offset + 2) input'
  end.

Record Blob := { blob_bytes : list Z; blob_type : list Z }.

Definition encodeWav (samples : list number) (sampleRate : Z) : result Blob :=
  let len := Z.of_nat (length samples) in
  let buffer := replicate (Z.to_nat (44 + len * 2)) 0 in
  let view := buffer in
  let numChannels := 1 in
  let bitsPerSample := 16 in
  view ← writeString view 0 (str "RIFF");
  view ← setUint32 view 4 (36 + len * 2);
  view ← writeString view 8 (str "WAVE");
  view ← writeString view 12 (str "fmt ");
  view ← setUint32 view 16 16;
  view ← setUint16 view 20 1;
  view ← setUint16 view 22 numChannels;
  view ← setUint32 view 24 sampleRate;
  view ← setUint32 view 28 (sampleRate * numChannels * (bitsPerSample / 8));
  view ← setUint16 view 32 (numChannels * (bitsPerSample / 8));
  view ← setUint16 view 34 bitsPerSample;
  view ← writeString view 36 (str "data");
  view ← setUint32 view 40 (len * 2);
  view ← floatTo16BitPCM view 44 samples;
  Ok {| blob_bytes := view; blob_type := str "audio/wav" |}.

(** A counted loop [for (let i = 0; i < n; i++) body]. *)
Definition for_range {S : Type} (n : nat) (body : nat -> S -> S) (s : S) : S :=
  foldl (fun s i => body i s) s (seq 0 n).

(** The sixteen-bit view of a byte buffer, [new Int16Array(data.buffer)]:
    a RangeError unless the byte length is a multiple of two.  Typed arrays
    use the byte order of the platform, little-endian wherever browsers run. *)
Fixpoint Int16Array_of_buffer (bs : list Z) : result (list Z) :=
  match bs with
  | [] => Ok []
  | lo :: hi :: bs' =>
      vs ← Int16Array_of_buffer bs';
      Ok (wrap_signed 16 (le_value [lo; hi]) :: vs)
  | [_] => Throw RangeError
  end.

(** The byte view of the buffer of an Int16Array,
    [new Uint8Array(int16.buffer)]. *)
Definition Uint8Array_of_Int16 (int16 : list Z) : list Z :=
  flat_map (fun v => le_bytes 2 (v mod 2 ^ 16)) int16.

(** *** Base64, the [btoa] of the platform *)

Definition base64_alphabet : list Z :=
  str "ABCDEFGHIJKLMNOPQRSTUVWXYZabcdefghijklmnopqrstuvwxyz0123456789+/".

Definition base64_char (n : Z) : Z :=
  default 0 (base64_alphabet !! Z.to_nat n).

Definition base64_pad : Z := 61.

Fixpoint base64_encode (bs : list Z) : list Z :=
  match bs with
  | a :: b :: c :: bs' =>
      base64_char (a / 4)
        :: base64_char ((a mod 4) * 16 + b / 16)
        :: base64_char ((b mod 16) * 4 + c / 64)
        :: base64_char (c mod 64)
        :: base64_encode bs'
  | [a; b] =>
      [base64_char (a / 4); base64_char ((a mod 4) * 16 + b / 16);
       base64_char ((b mod 16) * 4); base64_pad]
  | [a] =>
      [base64_char (a / 4); base64_char ((a mod 4) * 16); base64_pad; base64_pad]
  | [] => []
  end.

(** [btoa]: an InvalidCharacterError on a code unit above 255. *)
Definition btoa (binary : list Z) : result (list Z) :=
  if forallb (fun c => (0 <=? c) && (c <=? 255)) binary
  then Ok (base64_encode binary)
  else Throw InvalidCharacterError.

(** [String.fromCharCode]. *)
Definition fromCharCode (c : Z) : Z := c mod 2 ^ 16.

Definition encode (bytes : list Z) : result (list Z) :=
  let len := length bytes in
  let binary :=
    for_range len
      (fun i binary => binary ++ [fromCharCode (default 0 (bytes !! i))]) [] in
  btoa binary.

Record GoogleGenAIBlob := { data : list Z; mimeType : list Z }.

(** A read [data[i]] past the end of a typed array is [undefined], which
    arithmetic turns into NaN. *)
Definition createBlob (data : list number) : result GoogleGenAIBlob :=
  let l := length data in
  let int16 :=
    for_range l
      (fun i int16 =>
         let s := clamp (default NaN (data !! i)) in
         <[i := ToInt16 (scale s)]> int16)
      (replicate l 0) in
  data ← encode (Uint8Array_of_Int16 int16);
  Ok {| data := data; mimeType := str "audio/pcm;rate=16000" |}.

(** *** Decoding *)

(** What [decodeAudioData] uses of an AudioContext: [createBuffer], which
    refuses a channel count outside 1..32, a length of zero and a rate
    outside the range the context supports. *)
Record AudioContext := {
  ctx_sampleRate : Z;
  ctx_closed : bool;
  ctx_minRate : Z;
  ctx_maxRate : Z;
}.

Record AudioBuffer := {
  numberOfChannels : Z;
  buffer_length : Z;
  buffer_sampleRate : Z;
  channels : list (list number);
}.

Definition createBuffer (ctx : AudioContext) (numChannels length sampleRate : Z)
  : result AudioBuffer :=
  if (1 <=? numChannels) && (numChannels <=? 32) && (1 <=? length)
     && (ctx_minRate ctx <=? sampleRate) && (sampleRate <=? ctx_maxRate ctx)
  then Ok {| numberOfChannels := numChannels;
             buffer_length := length;
             buffer_sampleRate := sampleRate;
             channels := replicate (Z.to_nat numChannels)
                           (replicate (Z.to_nat length) (Num 0)) |}
  else Throw NotSupportedError.

(** [frameCount = dataInt16.length / numChannels] is a quotient of numbers:
    [createBuffer] receives its integer part, the loop [i < frameCount] runs
    over its ceiling.  An element read past the end divides to NaN; a store
    past the end of the channel is dropped. *)
Definition decodeAudioData (data : list Z) (ctx : AudioContext)
    (sampleRate numChannels : Z) : result AudioBuffer :=
  dataInt16 ← Int16Array_of_buffer data;
  let n := Z.of_nat (length dataInt16) in
  buffer ← createBuffer ctx numChannels (n / numChannels) sampleRate;
  let iterations := Z.to_nat ((n + numChannels - 1) / numChannels) in
  let fill (channel : nat) (channelData : list number) : list number :=
    for_range iterations
      (fun i channelData =>
         let idx := (i * Z.to_nat numChannels + channel)%nat in
         let v := match dataInt16 !! idx with
                  | Some d => number_div (Num (inject_Z d)) 32768
                  | None => NaN
                  end in
         <[i := v]> channelData)
      channelData in
  Ok {| numberOfChannels := numberOfChannels buffer;
        buffer_length := buffer_length buffer;
        buffer_sampleRate := buffer_sampleRate buffer;
        channels := imap fill (channels buffer) |}.

End Audio.


(** ** Reading the encoders' output *)

Module Layout.

Import Audio.

(** The sixteen-bit word of one sample and the PCM payload of a sequence. *)
Definition sample16 (x : number) : Z := ToInt16 (scale (clamp x)).

Definition pcm16 (samples : list number) : list Z :=
  flat_map (fun x => le_bytes 2 (sample16 x mod 2 ^ 16)) samples.

(** The 44 bytes the header writes leave, fields wrapped to their width. *)
Definition wavHeader (len sampleRate : Z) : list Z :=
  str "RIFF" ++ le_bytes 4 ((36 + len * 2) mod 2 ^ 32)
  ++ str "WAVE" ++ str "fmt " ++ le_bytes 4 (16 mod 2 ^ 32)
  ++ le_bytes 2 (1 mod 2 ^ 16) ++ le_bytes 2 (1 mod 2 ^ 16)
  ++ le_bytes 4 (sampleRate mod 2 ^ 32)
  ++ le_bytes 4 ((sampleRate * 1 * (16 / 8)) mod 2 ^ 32)
  ++ le_bytes 2 ((1 * (16 / 8)) mod 2 ^ 16) ++ le_bytes 2 (16 mod 2 ^ 16)
  ++ str "data" ++ le_bytes 4 ((len * 2) mod 2 ^ 32).

(** [DataView.getUintN(offset, true)] on a byte sequence. *)
Definition field (bytes : list Z) (offset size : nat) : Z :=
  le_value (take size (drop offset bytes)).

(** The [size] code units at [offset]. *)
Definition text (bytes : list Z) (offset size : nat) : list Z :=
  take size (drop offset bytes).

(** The value [decodeAudioData] stores for a sixteen-bit word. *)
Definition decoded (v : Z) : number := Num (inject_Z v / 32768).

(** A context as browsers make them, for the examples. *)
Definition exampleContext : AudioContext :=
  {| ctx_sampleRate := 16000; ctx_closed := false;
     ctx_minRate := 3000; ctx_maxRate := 768000 |}.

End Layout.

(** ** The note of the App component (src/App.tsx) *)

Module App.

Import JSString.

(** The two pieces of state the reconciliation touches: the note and the
    length of the transcript that has been merged into it. *)
Record Note := {
  noteContent : list Z;
  lastProcessedTranscriptLength : Z;
}.

(** The effect that runs when [transcript] changes. *)
Definition transcriptEffect (transcript : list Z) (n : Note) : Note :=
  let len := Z.of_nat (length transcript) in
  if lastProcessedTranscriptLength n <? len then
    let newPart := substring transcript (lastProcessedTranscriptLength n) in
    {| noteContent := noteContent n ++ newPart;
       lastProcessedTranscriptLength := len |}
  else if len <? lastProcessedTranscriptLength n then
    {| noteContent := transcript;
       lastProcessedTranscriptLength := len |}
  else n.

(** [handleStartRecording] and [handleFileSelect], before they call the hook. *)
Definition resetNote (n : Note) : Note :=
  {| noteContent := []; lastProcessedTranscriptLength := 0 |}.

(** *** NoteEditor *)








End App.

(** ** The hook useAudioTranscription *)

Module Hook.

Import JSString.

(** The enum [AppState] of the types module (in [src/unnamed/part_001], after
    the App component): the six states of the recording state machine. *)
Inductive AppState :=
  | IDLE
  | GETTING_PERMISSION
  | RECORDING
  | PAUSED
  | STOPPING
  | TRANSCRIBING_FILE.

#[global] Instance AppState_eq_dec : EqDecision AppState.
Proof. solve_decision. Defined.

(** The six [useState] cells. *)
Record State := {
  appState : AppState;
  transcript : list Z;
  liveTranscript : list Z;
  error : option (list Z);
  recordingTime : Z;
  audioBlob : option Audio.Blob;
}.

(** The objects behind the refs. *)
Record LiveSession := { session_id : nat }.
Record MediaStream := { stream_tracks : nat }.
Record ScriptProcessorNode := { processor_bufferSize : Z }.
Record MediaStreamAudioSourceNode := { source_stream : MediaStream }.
Record Timer := { timer_ms : Z }.

(** The nine [useRef] cells. *)
Record Refs := {
  sessionPromiseRef : option LiveSession;
  audioContextRef : option Audio.AudioContext;
  outputAudioContextRef : option Audio.AudioContext;
  scriptProcessorRef : option ScriptProcessorNode;
  mediaStreamSourceRef : option MediaStreamAudioSourceNode;
  mediaStreamRef : option MediaStream;
  liveTranscriptRef : list Z;
  timerRef : option Timer;
  recordedChunksRef : list (list number);
}.

(** What a state setter is called with: a value, or an updater function.  An
    updater is a closure, so it sees the refs as they are when React runs
    it. *)
Inductive Action (A : Type) :=
  | Value (v : A)
  | Updater (f : Refs -> A -> A).
Arguments Value {A} v.
Arguments Updater {A} f.

Inductive Update :=
  | SetAppState (a : Action AppState)
  | SetTranscript (a : Action (list Z))
  | SetLiveTranscript (a : Action (list Z))
  | SetError (a : Action (option (list Z)))
  | SetRecordingTime (a : Action Z)
  | SetAudioBlob (a : Action (option Audio.Blob)).

(** Calls that leave the component: the visualisation callback, the devices,
    the remote service. *)
Inductive Effect :=
  | AudioData (frame : list number)
  | GetUserMedia
  | LiveConnect (language : list Z)
  | SendRealtimeInput (media : Audio.GoogleGenAIBlob)
  | SessionClose (session : LiveSession)
  | TracksStop (stream : MediaStream)
  | NodeConnect
  | NodeDisconnect
  | ContextClose (ctx : Audio.AudioContext)
  | ReadFile (name : list Z)
  | GenerateContent (mimeType data language : list Z).

(** The mounted component: the state of its last render, its refs, the
    updates dispatched since that render, whether React has work flagged on
    it, and the calls it has made.  React keeps the component as a pair of
    fibers, the current one and its alternate, and flags work on both:
    [lanes] is the flag of the current fiber, [alternate] the flag of the
    other one (unset while there is no other one, before the first
    update). *)
Record Component := {
  state : State;
  refs : Refs;
  queue : list Update;
  lanes : bool;
  alternate : bool;
  trace : list Effect;
}.

Definition with_refs (f : Refs -> Refs) (c : Component) : Component :=
  {| state := state c; refs := f (refs c); queue := queue c;
     lanes := lanes c; alternate := alternate c; trace := trace c |}.

Definition effect (e : Effect) (c : Component) : Component :=
  {| state := state c; refs := refs c; queue := queue c;
     lanes := lanes c; alternate := alternate c; trace := trace c ++ [e] |}.

Definition set_sessionPromiseRef v (r : Refs) : Refs :=
  {| sessionPromiseRef := v; audioContextRef := audioContextRef r;
     outputAudioContextRef := outputAudioContextRef r;
     scriptProcessorRef := scriptProcessorRef r;
     mediaStreamSourceRef := mediaStreamSourceRef r;
     mediaStreamRef := mediaStreamRef r;
     liveTranscriptRef := liveTranscriptRef r; timerRef := timerRef r;
     recordedChunksRef := recordedChunksRef r |}.

Definition set_audioContextRef v (r : Refs) : Refs :=
  {| sessionPromiseRef := sessionPromiseRef r; audioContextRef := v;
     outputAudioContextRef := outputAudioContextRef r;
     scriptProcessorRef := scriptProcessorRef r;
     mediaStreamSourceRef := mediaStreamSourceRef r;
     mediaStreamRef := mediaStreamRef r;
     liveTranscriptRef := liveTranscriptRef r; timerRef := timerRef r;
     recordedChunksRef := recordedChunksRef r |}.

Definition set_outputAudioContextRef v (r : Refs) : Refs :=
  {| sessionPromiseRef := sessionPromiseRef r;
     audioContextRef := audioContextRef r; outputAudioContextRef := v;
     scriptProcessorRef := scriptProcessorRef r;
     mediaStreamSourceRef := mediaStreamSourceRef r;
     mediaStreamRef := mediaStreamRef r;
     liveTranscriptRef := liveTranscriptRef r; timerRef := timerRef r;
     recordedChunksRef := recordedChunksRef r |}.

Definition set_scriptProcessorRef v (r : Refs) : Refs :=
  {| sessionPromiseRef := sessionPromiseRef r;
     audioContextRef := audioContextRef r;
     outputAudioContextRef := outputAudioContextRef r;
     scriptProcessorRef := v;
     mediaStreamSourceRef := mediaStreamSourceRef r;
     mediaStreamRef := mediaStreamRef r;
     liveTranscriptRef := liveTranscriptRef r; timerRef := timerRef r;
     recordedChunksRef := recordedChunksRef r |}.

Definition set_mediaStreamSourceRef v (r : Refs) : Refs :=
  {| sessionPromiseRef := sessionPromiseRef r;
     audioContextRef := audioContextRef r;
     outputAudioContextRef := outputAudioContextRef r;
     scriptProcessorRef := scriptProcessorRef r;
     mediaStreamSourceRef := v;
     mediaStreamRef := mediaStreamRef r;
     liveTranscriptRef := liveTranscriptRef r; timerRef := timerRef r;
     recordedChunksRef := recordedChunksRef r |}.

Definition set_mediaStreamRef v (r : Refs) : Refs :=
  {| sessionPromiseRef := sessionPromiseRef r;
     audioContextRef := audioContextRef r;
     outputAudioContextRef := outputAudioContextRef r;
     scriptProcessorRef := scriptProcessorRef r;
     mediaStreamSourceRef := mediaStreamSourceRef r;
     mediaStreamRef := v;
     liveTranscriptRef := liveTranscriptRef r; timerRef := timerRef r;
     recordedChunksRef := recordedChunksRef r |}.

Definition set_liveTranscriptRef v (r : Refs) : Refs :=
  {| sessionPromiseRef := sessionPromiseRef r;
     audioContextRef := audioContextRef r;
     outputAudioContextRef := outputAudioContextRef r;
     scriptProcessorRef := scriptProcessorRef r;
     mediaStreamSourceRef := mediaStreamSourceRef r;
     mediaStreamRef := mediaStreamRef r;
     liveTranscriptRef := v; timerRef := timerRef r;
     recordedChunksRef := recordedChunksRef r |}.

Definition set_timerRef v (r : Refs) : Refs :=
  {| sessionPromiseRef := sessionPromiseRef r;
     audioContextRef := audioContextRef r;
     outputAudioContextRef := outputAudioContextRef r;
     scriptProcessorRef := scriptProcessorRef r;
     mediaStreamSourceRef := mediaStreamSourceRef r;
     mediaStreamRef := mediaStreamRef r;
     liveTranscriptRef := liveTranscriptRef r; timerRef := v;
     recordedChunksRef := recordedChunksRef r |}.

Definition set_recordedChunksRef v (r : Refs) : Refs :=
  {| sessionPromiseRef := sessionPromiseRef r;
     audioContextRef := audioContextRef r;
     outputAudioContextRef := outputAudioContextRef r;
     scriptProcessorRef := scriptProcessorRef r;
     mediaStreamSourceRef := mediaStreamSourceRef r;
     mediaStreamRef := mediaStreamRef r;
     liveTranscriptRef := liveTranscriptRef r; timerRef := timerRef r;
     recordedChunksRef := v |}.

(** *** State updates *)

Definition run_action {A} (r : Refs) (a : Action A) (prev : A) : A :=
  match a with
  | Value v => v
  | Updater f => f r prev
  end.

(** One queued update applied to the state, as a render does. *)
Definition apply_update (r : Refs) (u : Update) (s : State) : State :=
  match u with
  | SetAppState a =>
      {| appState := run_action r a (appState s); transcript := transcript s;
         liveTranscript := liveTranscript s; error := error s;
         recordingTime := recordingTime s; audioBlob := audioBlob s |}
  | SetTranscript a =>
      {| appState := appState s; transcript := run_action r a (transcript s);
         liveTranscript := liveTranscript s; error := error s;
         recordingTime := recordingTime s; audioBlob := audioBlob s |}
  | SetLiveTranscript a =>
      {| appState := appState s; transcript := transcript s;
         liveTranscript := run_action r a (liveTranscript s); error := error s;
         recordingTime := recordingTime s; audioBlob := audioBlob s |}
  | SetError a =>
      {| appState := appState s; transcript := transcript s;
         liveTranscript := liveTranscript s;
         error := run_action r a (error s);
         recordingTime := recordingTime s; audioBlob := audioBlob s |}
  | SetRecordingTime a =>
      {| appState := appState s; transcript := transcript s;
         liveTranscript := liveTranscript s; error := error s;
         recordingTime := run_action r a (recordingTime s);
         audioBlob := audioBlob s |}
  | SetAudioBlob a =>
      {| appState := appState s; transcript := transcript s;
         liveTranscript := liveTranscript s; error := error s;
         recordingTime := recordingTime s;
         audioBlob := run_action r a (audioBlob s) |}
  end.

(** The update with its action run now on the rendered state. *)
Definition evaluate (r : Refs) (s : State) (u : Update) : Update :=
  match u with
  | SetAppState a => SetAppState (Value (run_action r a (appState s)))
  | SetTranscript a => SetTranscript (Value (run_action r a (transcript s)))
  | SetLiveTranscript a =>
      SetLiveTranscript (Value (run_action r a (liveTranscript s)))
  | SetError a => SetError (Value (run_action r a (error s)))
  | SetRecordingTime a =>
      SetRecordingTime (Value (run_action r a (recordingTime s)))
  | SetAudioBlob a => SetAudioBlob (Value (run_action r a (audioBlob s)))
  end.

(** [Object.is] of the new value and the rendered one.  Two Blob objects are
    never the same object, so only [null] is the same as [null]. *)
Definition unchanged (r : Refs) (s : State) (u : Update) : bool :=
  match u with
  | SetAppState a => bool_decide (run_action r a (appState s) = appState s)
  | SetTranscript a => bool_decide (run_action r a (transcript s) = transcript s)
  | SetLiveTranscript a =>
      bool_decide (run_action r a (liveTranscript s) = liveTranscript s)
  | SetError a => bool_decide (run_action r a (error s) = error s)
  | SetRecordingTime a =>
      bool_decide (run_action r a (recordingTime s) = recordingTime s)
  | SetAudioBlob a =>
      match run_action r a (audioBlob s), audioBlob s with
      | None, None => true
      | _, _ => false
      end
  end.

(** A call of a state setter.  React queues the update, flags both fibers,
    and applies the update when the component next renders.  Only when no
    work is flagged on either fiber does it run the action at once, against
    the rendered state, and drop the update if the state would not change. *)
Definition dispatch (u : Update) (c : Component) : Component :=
  match lanes c, alternate c, queue c with
  | false, false, [] =>
      if unchanged (refs c) (state c) u then c
      else {| state := state c; refs := refs c;
              queue := [evaluate (refs c) (state c) u];
              lanes := true; alternate := true; trace := trace c |}
  | _, _, _ =>
      {| state := state c; refs := refs c; queue := queue c ++ [u];
         lanes := true; alternate := true; trace := trace c |}
  end.

(** The state a render would show if the refs were [r] by then: the queued
    updates applied in order, updaters run on [r]. *)
Definition pending (r : Refs) (c : Component) : State :=
  foldl (fun s u => apply_update r u s) (state c) (queue c).

(** A render.  The fiber that is rendered becomes the current one with its
    flag cleared; the fiber that was current becomes the alternate and keeps
    the flag it had.  So after a render that had work to do the next setter
    call still finds a flag and queues its update; the flag goes when React
    next passes over the component with nothing flagged on it.  (React
    also clears both flags when a render finds that no state of the
    component has changed.  The component here holds the cells of the hook,
    not those of the App that calls it, so that case is not told apart; the
    render a flag is followed through below, the one at an [await] of
    [stopRecording], shows a new [appState].) *)
Definition render (c : Component) : Component :=
  {| state := pending (refs c) c;
     refs := refs c; queue := []; lanes := false; alternate := lanes c;
     trace := trace c |}.

(** *** Code that runs on a component and can throw *)

Definition Act (A : Type) : Type := Component -> Component * result A.

#[global] Instance Act_ret : MRet Act := fun A a c => (c, Ok a).

#[global] Instance Act_bind : MBind Act := fun A B k m c =>
  match m c with
  | (c', Ok a) => k a c'
  | (c', Throw e) => (c', Throw e)
  end.

Definition throw {A} (e : exn) : Act A := fun c => (c, Throw e).

Definition lift {A} (r : result A) : Act A := fun c => (c, r).

Definition modify (f : Component -> Component) : Act unit :=
  fun c => (f c, Ok ()).

(** A call into the platform that the environment lets fail or not. *)
Definition may_throw (o : option exn) : Act unit :=
  match o with
  | Some e => throw e
  | None => mret ()
  end.

(** An [await]: the function is suspended and resumes when the promise has
    settled, [settles] telling how.  In between React may get to render the
    component ([rendered]), which it does when work is flagged on it.  Other
    handlers that run in between, and passes of React over the component
    for the sake of another one, are not part of the function, and a promise
    that never settles is outside this model. *)
Definition await (rendered : bool) (settles : option exn) : Act unit :=
  fun c => may_throw settles (if rendered && lanes c then render c else c).

(** *** Props, timers, the visualisation callback *)

Record Props := {
  language : list Z;
  onAudioData : bool;
}.

Definition paragraph_break : list Z := [10; 10].

(** [target.set(source, offset)] on typed arrays. *)
Definition typedArraySet {A} (target source : list A) (offset : nat)
  : result (list A) :=
  if (offset + length source <=? length target)%nat
  then Ok (take offset target ++ source ++ drop (offset + length source) target)
  else Throw RangeError.

Fixpoint copyChunks (concatenated : list number) (offset : nat)
    (chunks : list (list number)) : result (list number) :=
  match chunks with
  | [] => Ok concatenated
  | chunk :: chunks' =>
      concatenated' ← typedArraySet concatenated chunk offset;
      copyChunks concatenated' (offset + length chunk) chunks'
  end.

(** The accumulated frames laid out in one array, as [stopRecording] does. *)
Definition concatenate (chunks : list (list number)) : result (list number) :=
  let totalLength := foldl (fun acc val => (acc + length val)%nat) 0%nat chunks in
  let concatenated := replicate totalLength (Num 0) in
  copyChunks concatenated 0 chunks.

Section Operations.

Context (props : Props).

(** [onAudioData?.(frame)].  App passes the setter of its [audioData] state,
    so a call leaves an update flagged on the component. *)
Definition emitAudioData (frame : list number) (c : Component) : Component :=
  if onAudioData props then
    {| state := state c; refs := refs c; queue := queue c; lanes := true;
       alternate := true; trace := trace c ++ [AudioData frame] |}
  else c.

Definition startTimer (c : Component) : Component :=
  with_refs (set_timerRef (Some {| timer_ms := 1000 |})) c.

Definition stopTimer (c : Component) : Component :=
  match timerRef (refs c) with
  | Some _ => with_refs (set_timerRef None) c
  | None => c
  end.

(** The interval callback. *)
Definition timerTick (c : Component) : Component :=
  match timerRef (refs c) with
  | Some _ => dispatch (SetRecordingTime (Updater (fun _ prevTime => prevTime + 1))) c
  | None => c
  end.

(** *** pauseRecording, resumeRecording *)

Definition pauseRecording (c : Component) : Component :=
  if bool_decide (appState (state c) ≠ RECORDING) then c else
  let c := dispatch (SetAppState (Value PAUSED)) c in
  let c := match scriptProcessorRef (refs c) with
           | Some _ => effect NodeDisconnect c
           | None => c
           end in
  let c := stopTimer c in
  emitAudioData [] c.

Definition resumeRecording (c : Component) : Component :=
  if bool_decide (appState (state c) ≠ PAUSED) then c else
  let c := dispatch (SetAppState (Value RECORDING)) c in
  let c := match scriptProcessorRef (refs c), mediaStreamSourceRef (refs c),
                 audioContextRef (refs c) with
           | Some _, Some _, Some _ => effect NodeConnect (effect NodeConnect c)
           | _, _, _ => c
           end in
  startTimer c.

(** *** stopRecording *)

(** How the platform answers the clean-up calls of one [stopRecording]:
    [None] when the call returns (or the awaited promise fulfils), the
    exception when it throws (or the promise rejects);
    [rendersWhileSuspended] tells whether React gets to render at the
    awaits. *)
Record StopEnv := {
  rendersWhileSuspended : bool;
  allocation : option exn;
  sessionSettles : option exn;
  sessionClose : option exn;
  tracksStop : option exn;
  processorDisconnect : option exn;
  sourceDisconnect : option exn;
  contextClose : option exn;
  outputContextClose : option exn;
}.

Definition effectiveSampleRate (r : Refs) : Z :=
  match audioContextRef r with
  | Some ctx => if Audio.ctx_sampleRate ctx =? 0 then 16000
                else Audio.ctx_sampleRate ctx
  | None => 16000
  end.

Definition encodeArtifact (env : StopEnv) : Act unit := fun c =>
  let chunks := recordedChunksRef (refs c) in
  if (0 <? length chunks)%nat then
    (may_throw (allocation env);;
     concatenated ← lift (concatenate chunks);
     let sampleRate := effectiveSampleRate (refs c) in
     wavBlob ← lift (Audio.encodeWav concatenated sampleRate);
     modify (dispatch (SetAudioBlob (Value (Some wavBlob))));;
     modify (with_refs (set_recordedChunksRef []))) c
  else (c, Ok ()).

Definition closeSession (env : StopEnv) : Act unit := fun c =>
  match sessionPromiseRef (refs c) with
  | Some session =>
      (await (rendersWhileSuspended env) (sessionSettles env);;
       may_throw (sessionClose env);;
       modify (effect (SessionClose session));;
       modify (with_refs (set_sessionPromiseRef None))) c
  | None => (c, Ok ())
  end.

Definition releaseStream (env : StopEnv) : Act unit := fun c =>
  match mediaStreamRef (refs c) with
  | Some stream =>
      (may_throw (tracksStop env);;
       modify (effect (TracksStop stream));;
       modify (with_refs (set_mediaStreamRef None))) c
  | None => (c, Ok ())
  end.

Definition releaseProcessor (env : StopEnv) : Act unit := fun c =>
  match scriptProcessorRef (refs c) with
  | Some _ =>
      (may_throw (processorDisconnect env);;
       modify (effect NodeDisconnect);;
       modify (with_refs (set_scriptProcessorRef None))) c
  | None => (c, Ok ())
  end.

Definition releaseSource (env : StopEnv) : Act unit := fun c =>
  match mediaStreamSourceRef (refs c) with
  | Some _ =>
      (may_throw (sourceDisconnect env);;
       modify (effect NodeDisconnect);;
       modify (with_refs (set_mediaStreamSourceRef None))) c
  | None => (c, Ok ())
  end.

Definition closeContext (env : StopEnv) : Act unit := fun c =>
  match audioContextRef (refs c) with
  | Some ctx =>
      if Audio.ctx_closed ctx then (c, Ok ())
      else (await (rendersWhileSuspended env) (contextClose env);;
            modify (effect (ContextClose ctx));;
            modify (with_refs (set_audioContextRef None))) c
  | None => (c, Ok ())
  end.

Definition closeOutputContext (env : StopEnv) : Act unit := fun c =>
  match outputAudioContextRef (refs c) with
  | Some ctx =>
      if Audio.ctx_closed ctx then (c, Ok ())
      else (await (rendersWhileSuspended env) (outputContextClose env);;
            modify (effect (ContextClose ctx));;
            modify (with_refs (set_outputAudioContextRef None))) c
  | None => (c, Ok ())
  end.

(** The body of [try]. *)
Definition stop_try (env : StopEnv) : Act unit :=
  encodeArtifact env;;
  closeSession env;;
  releaseStream env;;
  releaseProcessor env;;
  releaseSource env;;
  closeContext env;;
  closeOutputContext env.

Definition stop_failed : list Z := str "Failed to stop recording cleanly.".

(** The body of [catch]. *)
Definition stop_catch (e : exn) (c : Component) : Component :=
  dispatch (SetError (Value (Some stop_failed))) c.

(** The body of [finally].  The updater handed to [setTranscript] reads
    [liveTranscriptRef.current] when it runs; the statement after the call
    empties that ref. *)
Definition stop_finally (c : Component) : Component :=
  let c :=
    if truthy (liveTranscriptRef (refs c)) then
      let c := dispatch (SetTranscript (Updater (fun r prev =>
                 prev ++ liveTranscriptRef r ++ paragraph_break))) c in
      let c := with_refs (set_liveTranscriptRef []) c in
      dispatch (SetLiveTranscript (Value [])) c
    else c in
  let c := dispatch (SetRecordingTime (Value 0)) c in
  dispatch (SetAppState (Value IDLE)) c.

(** [stopRecording] as a closure that saw [seen] as [appState] in the render
    that created it. *)
Definition stopRecordingOf (seen : AppState) (env : StopEnv) (c : Component)
  : Component :=
  if bool_decide (seen ∈ [IDLE; STOPPING]) then c else
  let c := dispatch (SetAppState (Value STOPPING)) c in
  let c := stopTimer c in
  let c := emitAudioData [] c in
  let '(c, r) := stop_try env c in
  let c := match r with
           | Throw e => stop_catch e c
           | Ok _ => c
           end in
  stop_finally c.

(** [stopRecording] of the current render, the one the App calls. *)
Definition stopRecording (env : StopEnv) (c : Component) : Component :=
  stopRecordingOf (appState (state c)) env c.

(** The clean-up of the unmount effect, which reads the latest render. *)
Definition unmount (env : StopEnv) (c : Component) : Component :=
  if bool_decide (appState (state c) ∈ [RECORDING; GETTING_PERMISSION; PAUSED])
  then stopRecording env c
  else c.

(** *** startRecording *)

(** What a call of an async function has done when control comes back to
    the caller: returned, or suspended at an [await]. *)
Inductive Call := Returned | Suspended.

(** [startRecording] up to [await getUserMedia]. *)
Definition startRecording (c : Component) : Component * Call :=
  if bool_decide (appState (state c) ≠ IDLE) then (c, Returned) else
  let c := dispatch (SetError (Value None)) c in
  let c := dispatch (SetTranscript (Value [])) c in
  let c := dispatch (SetLiveTranscript (Value [])) c in
  let c := dispatch (SetRecordingTime (Value 0)) c in
  let c := dispatch (SetAudioBlob (Value None)) c in
  let c := with_refs (set_recordedChunksRef []) c in
  let c := dispatch (SetAppState (Value GETTING_PERMISSION)) c in
  (effect GetUserMedia c, Suspended).

(** How the platform answers the rest of one [startRecording]. *)
Record StartEnv := {
  userMedia : result MediaStream;
  newAudioContext : result Audio.AudioContext;
  newOutputAudioContext : result Audio.AudioContext;
  newClient : option exn;
  connected : LiveSession;
}.

Definition microphone_failed : list Z :=
  str "Could not access microphone. Please check permissions and try again.".

Definition start_try (env : StartEnv) : Act unit :=
  stream ← lift (userMedia env);
  modify (with_refs (set_mediaStreamRef (Some stream)));;
  ctx ← lift (newAudioContext env);
  modify (with_refs (set_audioContextRef (Some ctx)));;
  out ← lift (newOutputAudioContext env);
  modify (with_refs (set_outputAudioContextRef (Some out)));;
  may_throw (newClient env);;
  modify (effect (LiveConnect (language props)));;
  modify (with_refs (set_sessionPromiseRef (Some (connected env)))).

(** Whether the platform lets the rest of [startRecording] go through. *)
Definition start_ok (env : StartEnv) : bool :=
  match userMedia env, newAudioContext env, newOutputAudioContext env,
        newClient env with
  | Ok _, Ok _, Ok _, None => true
  | _, _, _, _ => false
  end.

(** [startRecording] from the moment the promise of [getUserMedia] settles. *)
Definition startRecording_resume (env : StartEnv) (c : Component) : Component :=
  match start_try env c with
  | (c, Ok _) => c
  | (c, Throw _) =>
      let c := dispatch (SetError (Value (Some microphone_failed))) c in
      dispatch (SetAppState (Value IDLE)) c
  end.

(** *** The callbacks of the live session *)

Definition onopen (c : Component) : Component :=
  match audioContextRef (refs c), mediaStreamRef (refs c) with
  | Some _, Some stream =>
      let c := dispatch (SetAppState (Value RECORDING)) c in
      let c := startTimer c in
      let c := with_refs (set_mediaStreamSourceRef
                            (Some {| source_stream := stream |})) c in
      let c := with_refs (set_scriptProcessorRef
                            (Some {| processor_bufferSize := 4096 |})) c in
      effect NodeConnect (effect NodeConnect c)
  | _, _ => c
  end.

Definition onaudioprocess (inputData : list number) (c : Component)
  : Component :=
  let c := with_refs (fun r => set_recordedChunksRef
                                 (recordedChunksRef r ++ [inputData]) r) c in
  let c := emitAudioData inputData c in
  match Audio.createBlob inputData with
  | Ok pcmBlob =>
      match sessionPromiseRef (refs c) with
      | Some _ => effect (SendRealtimeInput pcmBlob) c
      | None => c
      end
  | Throw _ => c
  end.

(** What the hook reads of a server message.  [inputTranscription] is
    [Some None] when the message has an input transcription without text,
    which [+=] appends as the word [undefined]. *)
Record LiveServerMessage := {
  inputTranscription : option (option (list Z));
  turnComplete : bool;
  inlineAudio : option (list Z);
}.

(** [onmessage].  After the two steps below it decodes the audio of the
    model and drops the result; a failure there rejects the promise of the
    callback, nothing of the component is touched. *)
Definition onmessage (message : LiveServerMessage) (c : Component) : Component :=
  let c :=
    match inputTranscription message with
    | Some text =>
        let text := default (str "undefined") text in
        let c := with_refs (fun r => set_liveTranscriptRef
                                       (liveTranscriptRef r ++ text) r) c in
        dispatch (SetLiveTranscript (Value (liveTranscriptRef (refs c)))) c
    | None => c
    end in
  if turnComplete message then
    let fullInput := liveTranscriptRef (refs c) in
    let c := if truthy (trim fullInput)
             then dispatch (SetTranscript (Updater (fun _ prev =>
                              prev ++ fullInput ++ paragraph_break))) c
             else c in
    let c := with_refs (set_liveTranscriptRef []) c in
    dispatch (SetLiveTranscript (Value [])) c
  else c.

Definition api_error : list Z := str "An API error occurred. Please try again.".

(** [onerror] calls the [stopRecording] that [startRecording] closed over,
    the one of a render in which [appState] was [IDLE]. *)
Definition onerror (env : StopEnv) (c : Component) : Component :=
  let c := dispatch (SetError (Value (Some api_error))) c in
  stopRecordingOf IDLE env c.

(** *** transcribeFile *)

Record File := {
  file_name : list Z;
  file_type : list Z;
}.

Definition mimeMap : gmap (list Z) (list Z) :=
  list_to_map
    [(str "mp3", str "audio/mpeg");
     (str "wav", str "audio/wav");
     (str "m4a", str "audio/mp4");
     (str "mp4", str "audio/mp4");
     (str "aac", str "audio/aac");
     (str "flac", str "audio/flac");
     (str "ogg", str "audio/ogg");
     (str "opus", str "audio/ogg");
     (str "webm", str "audio/webm");
     (str "3gp", str "audio/3gpp");
     (str "amr", str "audio/amr");
     (str "oga", str "audio/ogg");
     (str "mpga", str "audio/mpeg")].

(** The names every object literal inherits from [Object.prototype]. *)
Definition Object_prototype : list (list Z) :=
  [str "constructor"; str "__proto__"; str "hasOwnProperty";
   str "isPrototypeOf"; str "propertyIsEnumerable"; str "toString";
   str "toLocaleString"; str "valueOf"; str "__defineGetter__";
   str "__defineSetter__"; str "__lookupGetter__"; str "__lookupSetter__"].

(** What [mimeType] can hold: a string, or what a property read of
    [mimeMap] found on the prototype, a function or an object. *)
Inductive Property :=
  | PString (s : list Z)
  | PInherited.

(** [value === s] for a string [s]. *)
Definition strict_eq (value : Property) (s : list Z) : bool :=
  match value with
  | PString v => bool_decide (v = s)
  | PInherited => false
  end.

(** [mimeMap[key]]: an own property, else an inherited one, else undefined. *)
Definition mimeMap_get (key : list Z) : option Property :=
  match mimeMap !! key with
  | Some v => Some (PString v)
  | None => if bool_decide (key ∈ Object_prototype) then Some PInherited
            else None
  end.

Definition unsupported_message (mimeType : list Z) : list Z :=
  str "Unsupported file type: "
  ++ (if truthy mimeType then mimeType else str "unknown")
  ++ str ". Please upload a supported audio file (e.g., MP3, WAV, M4A).".

Definition not_a_function : exn :=
  Error "TypeError" (str "mimeType.startsWith is not a function").

(** Steps 1 to 4 of the try block: the resolved type, or what is thrown. *)
Definition resolveMimeType (file : File) : result (list Z) :=
  let extension := trim ∘ toLowerCase <$> pop (split 46 (file_name file)) in
  let mimeType := PString (file_type file) in
  let mimeType :=
    match extension with
    | Some ext =>
        match (if truthy ext then mimeMap_get ext else None) with
        | Some mapped => mapped
        | None => if strict_eq mimeType (str "audio/x-m4a")
                  then PString (str "audio/mp4") else mimeType
        end
    | None => if strict_eq mimeType (str "audio/x-m4a")
              then PString (str "audio/mp4") else mimeType
    end in
  let mimeType :=
    if bool_decide (extension = Some (str "m4a")) && strict_eq mimeType []
    then PString (str "audio/mp4") else mimeType in
  match mimeType with
  | PInherited => Throw not_a_function
  | PString mimeType =>
      let isValidAudio := truthy mimeType && startsWith mimeType (str "audio/") in
      let isValidVideoContainer :=
        truthy mimeType
        && bool_decide (mimeType ∈ [str "video/mp4"; str "video/webm";
                                    str "video/3gpp"]) in
      if negb isValidAudio && negb isValidVideoContainer
      then Throw (Error "Error" (unsupported_message mimeType))
      else Ok mimeType
  end.

(** What the hook reads of the response of [generateContent]. *)
Record Response := {
  response_text : option (list Z);
  finishReason : option (list Z);
}.

(** How the platform answers one [transcribeFile]. *)
Record FileEnv := {
  newFileClient : option exn;
  base64 : result (list Z);
  generated : result Response;
}.

Definition handleResponse (response : Response) : Act unit :=
  match response_text response with
  | Some text =>
      if truthy text && (0 <? length (trim text))%nat
      then modify (dispatch (SetTranscript (Value (text ++ paragraph_break))))
      else
        match finishReason response with
        | Some reason =>
            if truthy reason && negb (bool_decide (reason = str "STOP"))
            then throw (Error "Error" (str "Transcription stopped due to: " ++ reason))
            else throw (Error "Error" (str "empty transcription"))
        | None => throw (Error "Error" (str "empty transcription"))
        end
  | None =>
      match finishReason response with
      | Some reason =>
          if truthy reason && negb (bool_decide (reason = str "STOP"))
          then throw (Error "Error" (str "Transcription stopped due to: " ++ reason))
          else throw (Error "Error" (str "empty transcription"))
      | None => throw (Error "Error" (str "empty transcription"))
      end
  end.

Definition file_try (env : FileEnv) (file : File) : Act unit :=
  mimeType ← lift (resolveMimeType file);
  may_throw (newFileClient env);;
  modify (effect (ReadFile (file_name file)));;
  base64Audio ← lift (base64 env);
  modify (effect (GenerateContent mimeType base64Audio (language props)));;
  response ← lift (generated env);
  handleResponse response.

(** The message the [catch] block shows for what was thrown. *)
Definition userMessage (err : exn) : list Z :=
  match err with
  | Error _ message =>
      let errorMessage := toLowerCase message in
      if includes errorMessage (str "unsupported file type") then message
      else if includes errorMessage (str "corrupt")
              || includes errorMessage (str "decode error")
      then str "The uploaded file seems to be corrupted or is not a valid audio file."
      else if includes errorMessage (str "empty transcription")
      then str "Transcription result was empty. This can happen if the audio file is silent or contains no speech."
      else if includes errorMessage (str "safety")
              || includes errorMessage (str "blocked")
      then str "The transcription was blocked by safety filters."
      else if includes errorMessage (str "400")
      then str "The server rejected the file. It might be in an unsupported format."
      else str "An unexpected error occurred. Please try again."
  | Thrown => str "An unexpected error occurred. Please try again."
  end.

(** [transcribeFile], run to its end. *)
Definition transcribeFile (env : FileEnv) (file : File) (c : Component)
  : Component :=
  if bool_decide (appState (state c) ≠ IDLE) then c else
  let c := dispatch (SetError (Value None)) c in
  let c := dispatch (SetTranscript (Value [])) c in
  let c := dispatch (SetLiveTranscript (Value [])) c in
  let c := dispatch (SetAudioBlob (Value None)) c in
  let c := dispatch (SetAppState (Value TRANSCRIBING_FILE)) c in
  let '(c, r) := file_try env file c in
  let c := match r with
           | Throw err => dispatch (SetError (Value (Some (userMessage err)))) c
           | Ok _ => c
           end in
  dispatch (SetAppState (Value IDLE)) c.

End Operations.

End Hook.

(** ** Vocabulary of the properties of the hook *)

Module HookSpec.

Import JSString Hook.

(** Whether an update sets the recording artifact. *)
Definition touchesAudioBlob (u : Update) : bool :=
  match u with SetAudioBlob _ => true | _ => false end.

(** A property that code running on the component keeps, whether the code
    returns or throws. *)
Definition preserves (P : Component -> Prop) {A} (m : Act A) : Prop :=
  forall c, P c -> P (m c).1.

(** The artifact is [b] and no queued update sets it. *)
Definition artifact_untouched (b : option Audio.Blob) (c : Component) : Prop :=
  audioBlob (state c) = b
  /\ Forall (fun u => touchesAudioBlob u = false) (queue c).

(** Work is flagged on the component, on one fiber or the other, so that
    the next setter call queues its update. *)
Definition flagged (c : Component) : bool := lanes c || alternate c.

(** What holds from the first setter call of a stop to its [finally]: work
    is flagged, the live buffer holds [L], and the settled transcript is due
    to be [T]. *)
Definition stopping (L T : list Z) (c : Component) : Prop :=
  flagged c = true
  /\ liveTranscriptRef (refs c) = L
  /\ forall r, transcript (pending r c) = T.

(** *** Turns: fragments arrive, renders happen, the turn completes *)

Inductive TurnEvent :=
  | Fragment (text : list Z)
  | Rendered.

Definition fragmentMessage (text : list Z) : LiveServerMessage :=
  {| inputTranscription := Some (Some text); turnComplete := false;
     inlineAudio := None |}.

Definition turnCompleteMessage : LiveServerMessage :=
  {| inputTranscription := None; turnComplete := true; inlineAudio := None |}.

Definition deliver (events : list TurnEvent) (c : Component) : Component :=
  foldl (fun c ev => match ev with
                     | Fragment text => onmessage (fragmentMessage text) c
                     | Rendered => render c
                     end) c events.

Fixpoint fragments (events : list TurnEvent) : list Z :=
  match events with
  | [] => []
  | Fragment text :: events' => text ++ fragments events'
  | Rendered :: events' => fragments events'
  end.

(** What a completed turn adds to the settled transcript. *)
Definition flushed (fullInput : list Z) : list Z :=
  if truthy (trim fullInput) then fullInput ++ paragraph_break else [].

(** The extension the hook looks at: what follows the last dot of the name
    (the whole name when it has no dot), in lower case, trimmed. *)
Definition extensionOf (file : File) : list Z :=
  default [] (trim ∘ toLowerCase <$> pop (split 46 (file_name file))).

(** The type the specification resolves: by extension first, else the
    reported type with the mislabelled m4a type corrected. *)
Definition resolvedType (file : File) : list Z :=
  match mimeMap !! extensionOf file with
  | Some mapped => mapped
  | None => if bool_decide (file_type file = str "audio/x-m4a")
            then str "audio/mp4" else file_type file
  end.

(** The types the validation lets through. *)
Definition acceptable (mimeType : list Z) : bool :=
  startsWith mimeType (str "audio/")
  || bool_decide (mimeType ∈ [str "video/mp4"; str "video/webm"; str "video/3gpp"]).

(** The catch-all message of the [catch] block of [transcribeFile]. *)
Definition unexpected_error : list Z :=
  str "An unexpected error occurred. Please try again.".

(** *** Example components and environments *)

(** The props App passes: its default language and [setAudioData]. *)
Definition exampleProps : Props :=
  {| language := str "ru"; onAudioData := true |}.

Definition noRefs : Refs :=
  {| sessionPromiseRef := None; audioContextRef := None;
     outputAudioContextRef := None; scriptProcessorRef := None;
     mediaStreamSourceRef := None; mediaStreamRef := None;
     liveTranscriptRef := []; timerRef := None; recordedChunksRef := [] |}.

(** A freshly mounted component. *)
Definition idleComponent : Component :=
  {| state := {| appState := IDLE; transcript := []; liveTranscript := [];
                 error := None; recordingTime := 0; audioBlob := None |};
     refs := noRefs; queue := []; lanes := false; alternate := false;
     trace := [] |}.

(** A recording in progress: seven seconds in, one frame accumulated, a
    turn settled and a fragment of the next one pending. *)
Definition recordingComponent : Component :=
  {| state := {| appState := RECORDING; transcript := str "Settled. ";
                 liveTranscript := str "pending words"; error := None;
                 recordingTime := 7; audioBlob := None |};
     refs := {| sessionPromiseRef := Some {| session_id := 1 |};
                audioContextRef := Some Layout.exampleContext;
                outputAudioContextRef := Some Layout.exampleContext;
                scriptProcessorRef := Some {| processor_bufferSize := 4096 |};
                mediaStreamSourceRef :=
                  Some {| source_stream := {| stream_tracks := 1 |} |};
                mediaStreamRef := Some {| stream_tracks := 1 |};
                liveTranscriptRef := str "pending words";
                timerRef := Some {| timer_ms := 1000 |};
                recordedChunksRef := [[Num (1 # 2); Num (-1 # 4)]] |};
     queue := []; lanes := false; alternate := false; trace := [] |}.

(** Every clean-up call succeeds; React gets to render at the awaits. *)
Definition cleanStop : StopEnv :=
  {| rendersWhileSuspended := true; allocation := None; sessionSettles := None;
     sessionClose := None; tracksStop := None; processorDisconnect := None;
     sourceDisconnect := None; contextClose := None;
     outputContextClose := None |}.

(** The promise of the session rejects. *)
Definition rejectedSession : StopEnv :=
  {| rendersWhileSuspended := true; allocation := None;
     sessionSettles := Some (Error "Error" (str "WebSocket closed"));
     sessionClose := None; tracksStop := None; processorDisconnect := None;
     sourceDisconnect := None; contextClose := None;
     outputContextClose := None |}.

(** The microphone is granted and the session opens. *)
Definition grantedStart : StartEnv :=
  {| userMedia := Ok {| stream_tracks := 1 |};
     newAudioContext := Ok Layout.exampleContext;
     newOutputAudioContext := Ok Layout.exampleContext;
     newClient := None;
     connected := {| session_id := 1 |} |}.

(** The service answers with a transcript. *)
Definition exampleFileEnv : FileEnv :=
  {| newFileClient := None; base64 := Ok (str "AAAA");
     generated := Ok {| response_text := Some (str "Hello"); finishReason := Some (str "STOP") |} |}.

End HookSpec.

(** ** Base64 decoding: [atob] and [decode] of src/utils/audio.ts *)

Module Base64.

Import Audio.

(** ASCII whitespace, which [atob] drops before it decodes. *)
Definition isAsciiWhitespace (c : Z) : bool :=
  bool_decide (c ∈ [9; 10; 12; 13; 32]).

(** The position of [c] in [l], counted from [i]. *)
Fixpoint index_of (c : Z) (l : list Z) (i : Z) : option Z :=
  match l with
  | [] => None
  | x :: l' => if c =? x then Some i else index_of c l' (i + 1)
  end.

(** The six bits a character of the alphabet stands for. *)
Definition base64_value (c : Z) : option Z := index_of c base64_alphabet 0.

(** One or two [=] at the end are dropped. *)
Definition strip_padding (data : list Z) : list Z :=
  match reverse data with
  | c1 :: c2 :: r =>
      if c1 =? base64_pad then
        if c2 =? base64_pad then reverse r else reverse (c2 :: r)
      else data
  | [c1] => if c1 =? base64_pad then [] else data
  | [] => data
  end.

(** Four sextets give three bytes; a rest of three gives two bytes, a rest
    of two gives one, the bits left over are dropped. *)
Fixpoint base64_decode (vs : list Z) : list Z :=
  match vs with
  | a :: b :: c :: d :: vs' =>
      (a * 4 + b / 16) :: ((b mod 16) * 16 + c / 4) :: ((c mod 4) * 64 + d)
        :: base64_decode vs'
  | [a; b; c] => [a * 4 + b / 16; (b mod 16) * 16 + c / 4]
  | [a; b] => [a * 4 + b / 16]
  | _ => []
  end.

(** [atob], the forgiving base64 decoding of the platform: whitespace is
    removed, padding is dropped when the length is a multiple of four, a
    length of 1 modulo 4 or a character outside the alphabet is an
    InvalidCharacterError. *)
Definition atob (data : list Z) : result (list Z) :=
  let data := List.filter (fun c => negb (isAsciiWhitespace c)) data in
  let data := if (length data mod 4 =? 0)%nat then strip_padding data else data in
  if (length data mod 4 =? 1)%nat then Throw InvalidCharacterError
  else match mapM base64_value data with
       | Some vs => Ok (base64_decode vs)
       | None => Throw InvalidCharacterError
       end.

(** [decode]: a byte array as long as the string [atob] returns, filled with
    its char codes. *)
Definition decode (base64 : list Z) : result (list Z) :=
  binaryString ← atob base64;
  let len := length binaryString in
  Ok (for_range len
        (fun i bytes => <[i := default 0 (binaryString !! i) mod 2 ^ 8]> bytes)
        (replicate len 0)).

(** The sextets of a byte sequence and the padding that follows them in its
    base64 text. *)
Fixpoint sextets (bs : list Z) : list Z :=
  match bs with
  | a :: b :: c :: bs' =>
      a / 4 :: (a mod 4) * 16 + b / 16 :: (b mod 16) * 4 + c / 64 :: c mod 64
        :: sextets bs'
  | [a; b] => [a / 4; (a mod 4) * 16 + b / 16; (b mod 16) * 4]
  | [a] => [a / 4; (a mod 4) * 16]
  | [] => []
  end.

Fixpoint padding (bs : list Z) : list Z :=
  match bs with
  | _ :: _ :: _ :: bs' => padding bs'
  | [_; _] => [base64_pad]
  | [_] => [base64_pad; base64_pad]
  | [] => []
  end.

End Base64.


(** ** Words of a byte buffer *)

Module Words.

(** The sixteen-bit words an Int16Array shows of a byte buffer, two bytes
    each, low byte first. *)
Fixpoint int16_words (bs : list Z) : list Z :=
  match bs with
  | lo :: hi :: bs' => wrap_signed 16 (lo + 256 * hi) :: int16_words bs'
  | _ => []
  end.

End Words.

(** ** Vocabulary of the scenarios of the hook *)

Module Scenario.

Import JSString Hook.

(** A cell of the state shows [v] at the next render, however the refs
    stand by then. *)
Definition settled {X} (f : State -> X) (v : X) (c : Component) : Prop :=
  forall r, f (pending r c) = v.

(** The frames the script processor hands to [onaudioprocess], in order. *)
Definition capture (props : Props) (frames : list (list number))
    (c : Component) : Component :=
  foldl (fun c frame => onaudioprocess props frame c) c frames.

(** What [onaudioprocess] sends for a frame. *)
Definition streamed (frame : list number) : Audio.GoogleGenAIBlob :=
  {| Audio.data := Audio.base64_encode (Layout.pcm16 frame);
     Audio.mimeType := str "audio/pcm;rate=16000" |}.

(** [n] firings of the interval callback. *)
Definition ticks (n : nat) (c : Component) : Component :=
  Nat.iter n timerTick c.

(** The empty frame that tells the visualisation to go flat. *)
Definition flatline (props : Props) : list Effect :=
  if onAudioData props then [AudioData []] else [].

(** Server messages and renders, in the order they happen. *)
Inductive SessionEvent :=
  | Message (message : LiveServerMessage)
  | Render.

Definition receive (events : list SessionEvent) (c : Component) : Component :=
  foldl (fun c ev => match ev with
                     | Message message => onmessage message c
                     | Render => render c
                     end) c events.

(** The clean-up calls [stopRecording] makes on refs [r] when none fails. *)
Definition cleanup (r : Refs) : list Effect :=
  match sessionPromiseRef r with Some session => [SessionClose session] | None => [] end
  ++ match mediaStreamRef r with Some stream => [TracksStop stream] | None => [] end
  ++ match scriptProcessorRef r with Some _ => [NodeDisconnect] | None => [] end
  ++ match mediaStreamSourceRef r with Some _ => [NodeDisconnect] | None => [] end
  ++ match audioContextRef r with
     | Some ctx => if Audio.ctx_closed ctx then [] else [ContextClose ctx]
     | None => []
     end
  ++ match outputAudioContextRef r with
     | Some ctx => if Audio.ctx_closed ctx then [] else [ContextClose ctx]
     | None => []
     end.

(** A context ref after the clean-up: emptied unless the context was
    already closed. *)
Definition afterClose (ctx : option Audio.AudioContext) : option Audio.AudioContext :=
  match ctx with
  | Some ctx => if Audio.ctx_closed ctx then Some ctx else None
  | None => None
  end.

(** A ref emptied by its clean-up step, unless it holds nothing or holds
    something the step keeps. *)
Definition clear_unless {A} (get : Refs -> option A)
    (set : option A -> Refs -> Refs) (keep : A -> bool) (r : Refs) : Refs :=
  match get r with
  | Some x => if keep x then r else set None r
  | None => r
  end.

(** The refs after a clean-up in which no call fails. *)
Definition released (r : Refs) : Refs :=
  {| sessionPromiseRef := None;
     audioContextRef := afterClose (audioContextRef r);
     outputAudioContextRef := afterClose (outputAudioContextRef r);
     scriptProcessorRef := None;
     mediaStreamSourceRef := None;
     mediaStreamRef := None;
     liveTranscriptRef := [];
     timerRef := None;
     recordedChunksRef := [] |}.

(** No clean-up call of [stopRecording] fails. *)
Definition succeeds (env : StopEnv) : Prop :=
  allocation env = None /\ sessionSettles env = None /\ sessionClose env = None
  /\ tracksStop env = None /\ processorDisconnect env = None
  /\ sourceDisconnect env = None /\ contextClose env = None
  /\ outputContextClose env = None.

(** The clean-up of [stopRecording] after the artifact is encoded. *)
Definition release (env : StopEnv) : Act unit :=
  closeSession env;; releaseStream env;; releaseProcessor env;;
  releaseSource env;; closeContext env;; closeOutputContext env.

(** A property of the refs that no clean-up step disturbs. *)
Definition stable (P : Refs -> Prop) : Prop :=
  forall r,
    P r ->
    P (set_sessionPromiseRef None r) /\ P (set_mediaStreamRef None r)
    /\ P (set_scriptProcessorRef None r) /\ P (set_mediaStreamSourceRef None r)
    /\ P (set_audioContextRef None r) /\ P (set_outputAudioContextRef None r)
    /\ P (set_recordedChunksRef [] r).

(** The message shown when the service returns no text. *)
Definition empty_result : list Z :=
  str "Transcription result was empty. This can happen if the audio file is silent or contains no speech.".

(** Whether a response carries a transcript: a text that is not blank. *)
Definition transcribed (response : Response) : option (list Z) :=
  match response_text response with
  | Some text => if truthy text && (0 <? length (trim text))%nat then Some text else None
  | None => None
  end.

(** Turns one after the other: the fragments and renders of each, then its
    turn-complete message. *)
Definition deliverTurns (turns : list (list HookSpec.TurnEvent)) (c : Component)
  : Component :=
  foldl (fun c events =>
           onmessage HookSpec.turnCompleteMessage (HookSpec.deliver events c))
    c turns.

End Scenario.

(** ** The rest of the App component (src/App.tsx) *)

Module Editor.

Import JSString.

(** [s.substring(start, end)]: each index is clamped to the string and the
    smaller of the two is where the substring starts. *)
Definition substring2 (s : list Z) (start end_ : Z) : list Z :=
  let len := Z.of_nat (length s) in
  let finalStart := Z.min (Z.max start 0) len in
  let finalEnd := Z.min (Z.max end_ 0) len in
  let from := Z.min finalStart finalEnd in
  let to := Z.max finalStart finalEnd in
  take (Z.to_nat (to - from)) (drop (Z.to_nat from) s).

Inductive Style := bold | italic | underline.

Definition markers (style : Style) : list Z :=
  match style with
  | bold => str "**"
  | italic => str "*"
  | underline => str "__"
  end.

(** What [handleStyleClick] reads and writes of the textarea. *)
Record Textarea := {
  value : list Z;
  selectionStart : Z;
  selectionEnd : Z;
}.

(** [textarea.setSelectionRange(start, end)]: an index past the end of the
    value points at the end; when [end] is not after [start] the selection
    collapses at [end]. *)
Definition setSelectionRange (start end_ : Z) (textarea : Textarea) : Textarea :=
  let len := Z.of_nat (length (value textarea)) in
  let start := Z.min start len in
  let end_ := Z.min end_ len in
  {| value := value textarea;
     selectionStart := if end_ <=? start then end_ else start;
     selectionEnd := end_ |}.

(** [handleStyleClick] up to the call of [focus]: the textarea it leaves,
    or nothing done when the ref is empty. *)
Definition handleStyleClick (style : Style) (textarea : option Textarea)
  : option Textarea :=
  match textarea with
  | None => None
  | Some textarea =>
      let marker := markers style in
      let selectionStart := selectionStart textarea in
      let selectionEnd := selectionEnd textarea in
      let value := value textarea in
      let selectedText := substring2 value selectionStart selectionEnd in
      let '(newValue, newSelectionStart, newSelectionEnd) :=
        if truthy selectedText then
          (substring2 value 0 selectionStart ++ marker ++ selectedText ++ marker
           ++ substring value selectionEnd,
           selectionStart,
           selectionEnd + 2 * Z.of_nat (length marker))
        else
          (substring2 value 0 selectionStart ++ marker ++ marker
           ++ substring value selectionEnd,
           selectionStart + Z.of_nat (length marker),
           selectionStart + Z.of_nat (length marker)) in
      Some (setSelectionRange newSelectionStart newSelectionEnd
              {| value := newValue;
                 selectionStart := Z.of_nat (length newValue);
                 selectionEnd := Z.of_nat (length newValue) |})
  end.

(** [s.split(/\s+/)]: the pieces between the maximal runs of white space, an
    empty piece before a run that starts the string and after one that ends
    it.  [in_run] tells whether the code unit before was white space. *)
Fixpoint split_run (in_run : bool) (s : list Z) : list (list Z) :=
  match s with
  | [] => [[]]
  | c :: s' =>
      if isWhiteSpace c then
        if in_run then split_run true s' else [] :: split_run true s'
      else
        match split_run false s' with
        | piece :: pieces => (c :: piece) :: pieces
        | [] => [[c]]
        end
  end.

Definition split_whitespace (s : list Z) : list (list Z) := split_run false s.

(** The two values NoteEditor derives from the text it shows. *)
Definition hasContent (editorValue : list Z) : bool :=
  (0 <? length (trim editorValue))%nat.

Definition wordCount (editorValue : list Z) : Z :=
  if truthy (trim editorValue)
  then Z.of_nat (length (split_whitespace (trim editorValue)))
  else 0.

End Editor.

Module Clock.

(** [String(n)] for an integer. *)
Definition String_of (n : Z) : list Z :=
  str (NilZero.string_of_int (Z.to_int n)).

(** [s.padStart(targetLength, pad)] for a pad of one code unit. *)
Definition padStart (s : list Z) (targetLength : Z) (pad : Z) : list Z :=
  replicate (Z.to_nat (targetLength - Z.of_nat (length s))) pad ++ s.

(** [formatTime] on a whole number of seconds; [%] keeps the sign of the
    dividend. *)
Definition formatTime (seconds : Z) : list Z :=
  let minutes := seconds / 60 in
  let remainingSeconds := Z.rem seconds 60 in
  padStart (String_of minutes) 2 48 ++ str ":"
  ++ padStart (String_of remainingSeconds) 2 48.

End Clock.

Module Drag.

(** The drag overlay of the App: the counter ref and the [isDragging]
    state. *)
Record Overlay := {
  dragCounter : Z;
  isDragging : bool;
}.

(** [handleDragEnter]; [hasItems] tells whether the event carries items. *)
Definition handleDragEnter (hasItems : bool) (o : Overlay) : Overlay :=
  {| dragCounter := dragCounter o + 1;
     isDragging := if hasItems then true else isDragging o |}.

Definition handleDragLeave (o : Overlay) : Overlay :=
  let counter := dragCounter o - 1 in
  {| dragCounter := counter;
     isDragging := if counter =? 0 then false else isDragging o |}.

(** What [handleDrop] does to the overlay. *)
Definition handleDrop (o : Overlay) : Overlay :=
  {| dragCounter := 0; isDragging := false |}.

Inductive DragEvent := DragEnter (hasItems : bool) | DragLeave | DragOver | DragDrop.

Definition handle (ev : DragEvent) (o : Overlay) : Overlay :=
  match ev with
  | DragEnter hasItems => handleDragEnter hasItems o
  | DragLeave => handleDragLeave o
  | DragOver => o
  | DragDrop => handleDrop o
  end.

Definition handleAll (events : list DragEvent) (o : Overlay) : Overlay :=
  foldl (fun o ev => handle ev o) o events.

End Drag.

Module Reader.

Import JSString Audio.

(** [fileToBase64]: [reader] is what the FileReader ends with, the data
    URL it read or the error it reports.  The promise resolves to the second
    piece of the URL split at commas, [undefined] when there is none. *)
Definition fileToBase64 (reader : result (list Z)) : result (option (list Z)) :=
  result ← reader;
  Ok (split 44 result !! 1%nat).

End Reader.

Module Share.

Import JSString Hook App.

(** What [formData.get] returns for a field that is present. *)
Inductive FormValue :=
  | FormFile (file : File)
  | FormString (s : list Z).

(** The object store [shared-files] of the database
    [transcriber-share-db]. *)
Definition Store := gmap (list Z) FormValue.

Definition latest : list Z := str "latest".

(** [saveSharedFile] of the service worker, when the transaction
    completes. *)
Definition saveSharedFile (file : FormValue) (store : Store) : Store :=
  <[latest := file]> store.

Definition truthyValue (v : FormValue) : bool :=
  match v with
  | FormFile _ => true
  | FormString s => truthy s
  end.

(** What the fetch listener reads of a request; [formData] is [Throw] when
    the body cannot be read as a form, its value the field [media]. *)
Record Request := {
  method : list Z;
  pathname : list Z;
  formData : result (option FormValue);
}.

(** The fetch listener: the store it leaves and whether it answered the
    request (with the redirect to [./]). *)
Definition onfetch (request : Request) (store : Store) : Store * bool :=
  if bool_decide (method request = str "POST")
     && endsWith (pathname request) (str "share-target")
  then
    (match formData request with
     | Ok (Some mediaFile) =>
         if truthyValue mediaFile then saveSharedFile mediaFile store else store
     | Ok None => store
     | Throw _ => store
     end, true)
  else (store, false).

(** [checkSharedFile] of the App, when the requests on the database
    succeed. *)
Definition checkSharedFile (props : Props) (env : FileEnv)
    (store : Store) (n : Note) (c : Component) : Store * Note * Component :=
  match store !! latest with
  | Some (FormFile file) =>
      (delete latest store, resetNote n, transcribeFile props env file c)
  | _ => (store, n, c)
  end.

End Share.

(** * Properties *)

(** ** Numbers and bytes *)

Module NumberFacts.

Lemma bind_Ok {A B} (a : A) (k : A -> result B) : (Ok a ≫= k) = k a.
Proof. reflexivity. Qed.

Lemma length_le_bytes n v : length (le_bytes n v) = n.
Proof. revert v. induction n as [|n IH]; intros v; simpl; [reflexivity|]. by rewrite IH. Qed.

Lemma le_value_le_bytes n v :
  0 <= v < 256 ^ Z.of_nat n -> le_value (le_bytes n v) = v.
Proof.
  revert v. induction n as [|n IH]; intros v Hv.
  - simpl in *. lia.
  - cbn [le_bytes le_value]. rewrite IH.
    + pose proof (Z.div_mod v 256). lia.
    + rewrite Nat2Z.inj_succ, Z.pow_succ_r in Hv by lia.
      split; [apply Z.div_pos; lia|].
      apply Z.div_lt_upper_bound; lia.
Qed.

Lemma le_bytes_range n v b : b ∈ le_bytes n v -> 0 <= b < 256.
Proof.
  revert v. induction n as [|n IH]; intros v; simpl.
  - by intros ?%elem_of_nil.
  - intros [->|H]%elem_of_cons; [apply Z.mod_pos_bound; lia|eauto].
Qed.

Lemma wrap_signed_16_range v : -32768 <= wrap_signed 16 v <= 32767.
Proof.
  unfold wrap_signed. change (2 ^ 16) with 65536. change (2 ^ (16 - 1)) with 32768.
  pose proof (Z.mod_pos_bound v 65536). destruct (32768 <=? v mod 65536) eqn:E; lia.
Qed.

Lemma wrap_signed_16_id v : -32768 <= v <= 32767 -> wrap_signed 16 v = v.
Proof.
  intros Hv. unfold wrap_signed. change (2 ^ 16) with 65536. change (2 ^ (16 - 1)) with 32768.
  destruct (Z.le_gt_cases 0 v).
  - rewrite Z.mod_small by lia. destruct (32768 <=? v) eqn:E; lia.
  - replace (v mod 65536) with (v + 65536).
    + destruct (32768 <=? v + 65536) eqn:E; lia.
    + apply Z.mod_unique with (-1); lia.
Qed.

Lemma wrap_signed_16_mod v : wrap_signed 16 v mod 65536 = v mod 65536.
Proof.
  unfold wrap_signed. change (2 ^ 16) with 65536. change (2 ^ (16 - 1)) with 32768.
  destruct (32768 <=? v mod 65536).
  - replace (v mod 65536 - 65536) with (v mod 65536 + (-1) * 65536) by lia.
    rewrite Z.mod_add by lia. apply Z.mod_mod. lia.
  - apply Z.mod_mod. lia.
Qed.

(** Reading back a sixteen-bit word stored little-endian. *)
Lemma wrap_le_bytes_16 v :
  -32768 <= v <= 32767 -> wrap_signed 16 (le_value (le_bytes 2 (v mod 2 ^ 16))) = v.
Proof.
  intros Hv. rewrite le_value_le_bytes.
  - rewrite <- (wrap_signed_16_id v) at 2 by lia.
    unfold wrap_signed. by rewrite Z.mod_mod by lia.
  - change (256 ^ Z.of_nat 2) with 65536. change (2 ^ 16) with 65536.
    apply Z.mod_pos_bound. lia.
Qed.

End NumberFacts.

(** ** The container encoder *)

Module WavFacts.

Import NumberFacts Audio Layout.

Lemma length_pcm16 samples : length (pcm16 samples) = (2 * length samples)%nat.
Proof.
  induction samples as [|x l IH]; [reflexivity|].
  unfold pcm16 in *. cbn [flat_map]. rewrite length_app, length_le_bytes, IH.
  cbn [length]. lia.
Qed.

(** A write that starts where the written part of a zeroed buffer ends. *)
Lemma writeBytes_fill pre bs k off :
  off = Z.of_nat (length pre) -> (length bs <= k)%nat ->
  writeBytes (pre ++ replicate k 0) off bs
  = Ok ((pre ++ bs) ++ replicate (k - length bs) 0).
Proof.
  intros -> Hk. unfold writeBytes.
  rewrite length_app, length_replicate.
  replace ((0 <=? Z.of_nat (length pre))
           && (Z.of_nat (length pre) + Z.of_nat (length bs)
               <=? Z.of_nat (length pre + k)%nat)) with true
    by (symmetry; apply andb_true_iff; split; apply Z.leb_le; lia).
  rewrite Nat2Z.id, take_app_length.
  rewrite drop_app_ge by lia.
  replace (length pre + length bs - length pre)%nat with (length bs) by lia.
  rewrite drop_replicate. by rewrite <- app_assoc.
Qed.

Lemma writeString_fill s pre k off :
  off = Z.of_nat (length pre) -> (length s <= k)%nat ->
  writeString (pre ++ replicate k 0) off s
  = Ok ((pre ++ map (fun c => c mod 256) s) ++ replicate (k - length s) 0).
Proof.
  revert pre k off. induction s as [|c s IH]; intros pre k off Hoff Hk.
  - cbn [writeString map length]. by rewrite app_nil_r, Nat.sub_0_r.
  - cbn [writeString map length] in *. unfold setUint8.
    rewrite writeBytes_fill by (rewrite ?length_le_bytes; lia).
    rewrite bind_Ok, length_le_bytes.
    rewrite IH by (rewrite ?length_app, ?length_le_bytes; simpl; lia).
    cbn [le_bytes]. change (2 ^ 8) with 256. rewrite Z.mod_mod by lia.
    rewrite <- !app_assoc. cbn [app].
    repeat first [lia | f_equal].
Qed.

Lemma floatTo16BitPCM_fill input pre k off :
  off = Z.of_nat (length pre) -> (2 * length input <= k)%nat ->
  floatTo16BitPCM (pre ++ replicate k 0) off input
  = Ok ((pre ++ pcm16 input) ++ replicate (k - 2 * length input) 0).
Proof.
  revert pre k off. induction input as [|x l IH]; intros pre k off Hoff Hk.
  - cbn [floatTo16BitPCM pcm16 flat_map length]. by rewrite app_nil_r, Nat.sub_0_r.
  - cbn [floatTo16BitPCM length] in *. unfold setInt16.
    rewrite writeBytes_fill by (rewrite ?length_le_bytes; lia).
    rewrite bind_Ok, length_le_bytes.
    rewrite IH by (rewrite ?length_app, ?length_le_bytes; simpl; lia).
    unfold pcm16. cbn [flat_map]. fold (sample16 x).
    rewrite <- !app_assoc. repeat first [lia | f_equal].
Qed.

Lemma str_bytes s : Forall (fun c => 0 <= c < 256) (str s).
Proof.
  unfold str. induction (list_ascii_of_string s) as [|a l IH]; cbn [map].
  - constructor.
  - constructor; [|exact IH]. pose proof (N_ascii_bounded a). lia.
Qed.

Lemma map_mod_str s : map (fun c => c mod 256) (str s) = str s.
Proof.
  pose proof (str_bytes s) as H. induction H as [|c l Hc _ IH]; [reflexivity|].
  cbn [map]. rewrite IH. f_equal. apply Z.mod_small. lia.
Qed.

Local Ltac fill_side :=
  rewrite ?length_app, ?length_le_bytes, ?length_map; simpl length; lia.

(** The bytes of the container: header, then payload. *)
Lemma encodeWav_bytes samples sampleRate :
  encodeWav samples sampleRate
  = Ok {| blob_bytes := wavHeader (Z.of_nat (length samples)) sampleRate
                        ++ pcm16 samples;
          blob_type := str "audio/wav" |}.
Proof.
  unfold encodeWav. cbv zeta.
  set (len := Z.of_nat (length samples)).
  replace (Z.to_nat (44 + len * 2)) with (44 + 2 * length samples)%nat by lia.
  change (replicate (44 + 2 * length samples) 0)
    with ([] ++ replicate (44 + 2 * length samples) 0).
  unfold setUint32, setUint16.
  repeat first
    [ rewrite writeString_fill by fill_side
    | rewrite writeBytes_fill by fill_side
    | rewrite floatTo16BitPCM_fill by fill_side
    | rewrite bind_Ok
    | rewrite map_mod_str ].
  rewrite !length_le_bytes. simpl length.
  replace (44 + 2 * length samples - 4 - 4 - 4 - 4 - 4 - 2 - 2 - 4 - 4 - 2 - 2
           - 4 - 4 - 2 * length samples)%nat with 0%nat by lia.
  cbn [replicate]. rewrite app_nil_r. unfold wavHeader. fold len.
  cbn [app]. rewrite <- !app_assoc. reflexivity.
Qed.

Lemma field_stored n v bytes offset :
  take n (drop offset bytes) = le_bytes n v ->
  0 <= v < 256 ^ Z.of_nat n -> field bytes offset n = v.
Proof. intros E Hv. unfold field. rewrite E. by apply le_value_le_bytes. Qed.

Lemma length_wavHeader len sampleRate : length (wavHeader len sampleRate) = 44%nat.
Proof. reflexivity. Qed.

Section Layout.

Variables (samples : list number) (sampleRate : Z).

Let len := Z.of_nat (length samples).
Let bytes := wavHeader len sampleRate ++ pcm16 samples.

Lemma layout_length : Z.of_nat (length bytes) = 44 + 2 * len.
Proof.
  subst bytes len. rewrite length_app, length_wavHeader, length_pcm16. lia.
Qed.

Lemma layout_texts :
  text bytes 0 4 = str "RIFF" /\ text bytes 8 4 = str "WAVE"
  /\ text bytes 12 4 = str "fmt " /\ text bytes 36 4 = str "data".
Proof. repeat split; reflexivity. Qed.

Lemma layout_constants :
  field bytes 16 4 = 16 /\ field bytes 20 2 = 1 /\ field bytes 22 2 = 1
  /\ field bytes 32 2 = 2 /\ field bytes 34 2 = 16.
Proof. repeat split; reflexivity. Qed.

Lemma layout_payload : drop 44 bytes = pcm16 samples.
Proof. reflexivity. Qed.

Lemma layout_chunkSize : field bytes 4 4 = (36 + len * 2) mod 2 ^ 32.
Proof.
  apply field_stored; [reflexivity|].
  change (256 ^ Z.of_nat 4) with (2 ^ 32). apply Z.mod_pos_bound. lia.
Qed.

Lemma layout_sampleRate : field bytes 24 4 = sampleRate mod 2 ^ 32.
Proof.
  apply field_stored; [reflexivity|].
  change (256 ^ Z.of_nat 4) with (2 ^ 32). apply Z.mod_pos_bound. lia.
Qed.

Lemma layout_byteRate : field bytes 28 4 = (sampleRate * 2) mod 2 ^ 32.
Proof.
  replace (sampleRate * 2) with (sampleRate * 1 * (16 / 8))
    by (change (16 / 8) with 2; lia).
  apply field_stored; [reflexivity|].
  change (256 ^ Z.of_nat 4) with (2 ^ 32). apply Z.mod_pos_bound. lia.
Qed.

Lemma layout_dataSize : field bytes 40 4 = (len * 2) mod 2 ^ 32.
Proof.
  apply field_stored; [reflexivity|].
  change (256 ^ Z.of_nat 4) with (2 ^ 32). apply Z.mod_pos_bound. lia.
Qed.

End Layout.

End WavFacts.

(** ** The frame encoder and the decoder *)

Module CodecFacts.

Import NumberFacts Audio Layout WavFacts.

Lemma Qltb_lt x y : Qltb x y = true <-> (x < y)%Q.
Proof.
  unfold Qltb. rewrite negb_true_iff. split.
  - intros H. apply Qnot_le_lt. intros Hle. apply Qle_bool_iff in Hle. congruence.
  - intros H. destruct (Qle_bool y x) eqn:E; [|reflexivity].
    apply Qle_bool_iff in E. exfalso. eapply Qlt_not_le; eauto.
Qed.

Lemma Qltb_ge x y : Qltb x y = false <-> (y <= x)%Q.
Proof.
  unfold Qltb. rewrite negb_false_iff. apply Qle_bool_iff.
Qed.

Lemma clamp_Num q :
  exists s, clamp (Num q) = Num s /\ (-1 <= s <= 1)%Q
    /\ ((q < -1)%Q -> s = (-1)%Q) /\ ((1 < q)%Q -> s = 1%Q)
    /\ ((-1 <= q <= 1)%Q -> (s == q)%Q).
Proof.
  unfold clamp, Math_min, Math_max, number_lt.
  destruct (Qltb q 1) eqn:E1.
  - apply Qltb_lt in E1. destruct (Qltb (-1) q) eqn:E2.
    + apply Qltb_lt in E2. exists q. repeat split; try lra. 
    + apply Qltb_ge in E2. exists (-1)%Q. repeat split; try lra.
  - apply Qltb_ge in E1. replace (Qltb (-1) 1) with true by reflexivity.
    exists 1%Q. repeat split; try lra.
Qed.

Lemma trunc_nonneg s : (0 <= s)%Q -> (inject_Z (trunc s) <= s < inject_Z (trunc s) + 1)%Q.
Proof.
  destruct s as [n d]. unfold trunc, Qle, Qlt, inject_Z. cbn [Qnum Qden Qplus].
  intros Hn. rewrite Z.mul_1_r in Hn. cbn in Hn.
  rewrite Z.quot_div_nonneg by lia.
  pose proof (Z.div_mod n (Z.pos d) ltac:(lia)).
  pose proof (Z.mod_pos_bound n (Z.pos d) ltac:(lia)).
  cbn. nia.
Qed.

Lemma trunc_nonpos s : (s <= 0)%Q -> (inject_Z (trunc s) - 1 < s <= inject_Z (trunc s))%Q.
Proof.
  destruct s as [n d]. unfold trunc, Qle, Qlt, inject_Z. cbn [Qnum Qden Qplus Qminus Qopp].
  intros Hn. cbn in Hn.
  pose proof (Z.quot_rem' n (Z.pos d)).
  assert (Z.rem n (Z.pos d) <= 0 /\ - Z.pos d < Z.rem n (Z.pos d)).
  { pose proof (Z.rem_bound_pos_neg n (Z.pos d) ltac:(lia) ltac:(lia)). lia. }
  cbn. nia.
Qed.

Lemma sample16_bounds s :
  (-1 <= s <= 1)%Q ->
  ((s < 0)%Q -> ToInt16 (scale (Num s)) = trunc (s * 32768)
                /\ -32768 <= trunc (s * 32768) <= 0)
  /\ ((0 <= s)%Q -> ToInt16 (scale (Num s)) = trunc (s * 32767)
                /\ 0 <= trunc (s * 32767) <= 32767).
Proof.
  intros Hs. split; intros H0.
  - assert (B : -32768 <= trunc (s * 32768) <= 0).
    { pose proof (trunc_nonpos (s * 32768) ltac:(lra)) as [H1 H2].
      assert (H3 : (inject_Z (trunc (s * 32768)) < 1)%Q) by lra.
      assert (H4 : (inject_Z (-32769) < inject_Z (trunc (s * 32768)))%Q).
      { change (inject_Z (-32769)) with (-32769)%Q. lra. }
      rewrite <- Zlt_Qlt in H4. change 1%Q with (inject_Z 1) in H3.
      rewrite <- Zlt_Qlt in H3. lia. }
    split; [|exact B]. unfold scale, number_lt.
    replace (Qltb s 0) with true by (symmetry; by apply Qltb_lt).
    cbn [number_mul ToInt16]. apply wrap_signed_16_id. lia.
  - assert (B : 0 <= trunc (s * 32767) <= 32767).
    { pose proof (trunc_nonneg (s * 32767) ltac:(lra)) as [H1 H2].
      assert (H3 : (inject_Z (-1) < inject_Z (trunc (s * 32767)))%Q).
      { change (inject_Z (-1)) with (-1)%Q. lra. }
      assert (H4 : (inject_Z (trunc (s * 32767)) < inject_Z 32768)%Q).
      { change (inject_Z 32768) with 32768%Q. lra. }
      rewrite <- Zlt_Qlt in H3, H4. lia. }
    split; [|exact B]. unfold scale, number_lt.
    replace (Qltb s 0) with false by (symmetry; by apply Qltb_ge).
    cbn [number_mul ToInt16]. apply wrap_signed_16_id. lia.
Qed.

Lemma decode_error s :
  (-1 <= s <= 1)%Q ->
  (Qabs (inject_Z (ToInt16 (scale (Num s))) / 32768 - s) < 2 # 32768)%Q
  /\ ((s < 0)%Q -> (Qabs (inject_Z (ToInt16 (scale (Num s))) / 32768 - s) < 1 # 32768)%Q).
Proof.
  intros Hs. destruct (sample16_bounds s Hs) as [Hneg Hpos].
  unfold Qdiv. change (/ 32768)%Q with (1 # 32768)%Q.
  destruct (Qlt_le_dec s 0) as [H0|H0].
  - destruct (Hneg H0) as [-> _].
    pose proof (trunc_nonpos (s * 32768) ltac:(lra)) as [H1 H2].
    assert ((Qabs (inject_Z (trunc (s * 32768)) * (1 # 32768) - s) < 1 # 32768)%Q).
    { apply Qabs_Qlt_condition. split; lra. }
    split; [|done]. lra.
  - destruct (Hpos H0) as [-> _].
    pose proof (trunc_nonneg (s * 32767) ltac:(lra)) as [H1 H2].
    split; [|intros; lra].
    apply Qabs_Qlt_condition. split; lra.
Qed.

Lemma for_range_S {S} n (body : nat -> S -> S) s :
  for_range (Datatypes.S n) body s = body n (for_range n body s).
Proof. unfold for_range. rewrite seq_S, foldl_app. reflexivity. Qed.

Lemma for_range_ext {S} n (body1 body2 : nat -> S -> S) s :
  (forall i s', (i < n)%nat -> body1 i s' = body2 i s') ->
  for_range n body1 s = for_range n body2 s.
Proof.
  induction n as [|n IH]; intros H; [reflexivity|].
  rewrite !for_range_S, IH by (intros; apply H; lia). apply H. lia.
Qed.

(** A loop that stores [g (src[i])] at every index of a fresh array builds
    the image of [src]. *)
Lemma for_range_store {A B} (g : option A -> B) (src : list A) (z : B) k :
  (k <= length src)%nat ->
  for_range k (fun i arr => <[i := g (src !! i)]> arr) (replicate (length src) z)
  = map (fun a => g (Some a)) (take k src) ++ replicate (length src - k) z.
Proof.
  induction k as [|k IH]; intros Hk.
  - cbn. by rewrite Nat.sub_0_r.
  - rewrite for_range_S, IH by lia.
    destruct (lookup_lt_is_Some_2 src k ltac:(lia)) as [a Ha].
    rewrite (take_S_r _ _ _ Ha), map_app, Ha. cbn [map].
    rewrite insert_app_r_alt by (rewrite length_map, length_take; lia).
    rewrite length_map, length_take.
    replace (k - k `min` length src)%nat with 0%nat by lia.
    replace (length src - k)%nat with (S (length src - S k)) by lia.
    cbn [replicate]. cbn. by rewrite <- app_assoc.
Qed.

Lemma for_range_store_all {A B} (g : option A -> B) (src : list A) (z : B) :
  for_range (length src) (fun i arr => <[i := g (src !! i)]> arr)
    (replicate (length src) z)
  = map (fun a => g (Some a)) src.
Proof.
  rewrite for_range_store by lia.
  by rewrite firstn_all, Nat.sub_diag, app_nil_r.
Qed.

Lemma for_range_push {A B} (g : option A -> B) (src : list A) k :
  (k <= length src)%nat ->
  for_range k (fun i acc => acc ++ [g (src !! i)]) []
  = map (fun a => g (Some a)) (take k src).
Proof.
  induction k as [|k IH]; intros Hk; [reflexivity|].
  rewrite for_range_S, IH by lia.
  destruct (lookup_lt_is_Some_2 src k ltac:(lia)) as [a Ha].
  by rewrite (take_S_r _ _ _ Ha), map_app, Ha.
Qed.

Lemma Uint8Array_of_Int16_samples data :
  Uint8Array_of_Int16 (map sample16 data) = pcm16 data.
Proof.
  unfold Uint8Array_of_Int16, pcm16.
  induction data as [|x l IH]; [reflexivity|]. cbn [map flat_map]. by rewrite IH.
Qed.

Lemma pcm16_bytes data : Forall (fun b => 0 <= b < 256) (pcm16 data).
Proof.
  unfold pcm16. induction data as [|x l IH]; cbn [flat_map]; [constructor|].
  apply Forall_app. split; [|exact IH].
  apply Forall_forall. intros b Hb. by apply le_bytes_range in Hb.
Qed.

Lemma encode_bytes bytes :
  Forall (fun b => 0 <= b < 256) bytes -> encode bytes = Ok (base64_encode bytes).
Proof.
  intros Hb. unfold encode.
  rewrite (for_range_push (fun o => fromCharCode (default 0 o)) bytes) by lia.
  rewrite firstn_all.
  assert (E : map (fun a => fromCharCode (default 0 (Some a))) bytes = bytes).
  { induction Hb as [|b l Hb _ IH]; [reflexivity|]. cbn [map]. f_equal; [|exact IH].
    unfold fromCharCode. apply Z.mod_small. change (2 ^ 16) with 65536. cbn. lia. }
  rewrite E. unfold btoa.
  replace (forallb (fun c => (0 <=? c) && (c <=? 255)) bytes) with true; [reflexivity|].
  symmetry. apply forallb_forall. intros b Hin.
  rewrite Forall_forall in Hb. specialize (Hb b). 
  assert (0 <= b < 256) by (apply Hb; by apply list_elem_of_In).
  apply andb_true_iff. split; apply Z.leb_le; lia.
Qed.

Lemma createBlob_bytes data :
  createBlob data
  = Ok {| Audio.data := base64_encode (pcm16 data);
          mimeType := str "audio/pcm;rate=16000" |}.
Proof.
  unfold createBlob.
  rewrite (for_range_store (fun o => ToInt16 (scale (clamp (default NaN o)))) data 0)
    by lia.
  rewrite firstn_all, Nat.sub_diag, app_nil_r.
  change (map _ data) with (map sample16 data).
  rewrite Uint8Array_of_Int16_samples, encode_bytes by apply pcm16_bytes.
  reflexivity.
Qed.

Lemma sample16_range x : -32768 <= sample16 x <= 32767.
Proof.
  unfold sample16, ToInt16. destruct (scale (clamp x)); try lia.
  apply wrap_signed_16_range.
Qed.

Lemma pcm16_cons x l :
  pcm16 (x :: l)
  = (sample16 x mod 2 ^ 16) mod 256
    :: ((sample16 x mod 2 ^ 16) / 256) mod 256 :: pcm16 l.
Proof. reflexivity. Qed.

Lemma Int16Array_of_buffer_word lo hi bs :
  Int16Array_of_buffer (lo :: hi :: bs)
  = (vs ← Int16Array_of_buffer bs; Ok (wrap_signed 16 (le_value [lo; hi]) :: vs)).
Proof. reflexivity. Qed.

Lemma Int16Array_of_pcm16 samples :
  Int16Array_of_buffer (pcm16 samples) = Ok (map sample16 samples).
Proof.
  induction samples as [|x l IH]; [reflexivity|].
  rewrite pcm16_cons, Int16Array_of_buffer_word, IH, bind_Ok.
  cbn [map]. do 2 f_equal.
  apply (wrap_le_bytes_16 (sample16 x)), sample16_range.
Qed.

Lemma decode_pcm16 samples ctx rate :
  decodeAudioData (pcm16 samples) ctx rate 1
  = (buffer ← createBuffer ctx 1 (Z.of_nat (length samples)) rate;
     Ok {| numberOfChannels := 1;
           buffer_length := Z.of_nat (length samples);
           buffer_sampleRate := rate;
           channels := [map (fun x => decoded (sample16 x)) samples] |}).
Proof.
  unfold decodeAudioData. rewrite Int16Array_of_pcm16, bind_Ok, length_map.
  rewrite !Z.div_1_r. unfold createBuffer.
  destruct ((1 <=? 1) && (1 <=? 32) && (1 <=? Z.of_nat (length samples))
            && (ctx_minRate ctx <=? rate) && (rate <=? ctx_maxRate ctx));
    [|reflexivity].
  rewrite !bind_Ok. cbn [numberOfChannels buffer_length buffer_sampleRate channels].
  change (Z.to_nat 1) with 1%nat. cbn [replicate imap]. do 3 f_equal.
  replace (Z.to_nat (Z.of_nat (length samples) + 1 - 1)) with (length samples)
    by lia.
  rewrite Nat2Z.id.
  rewrite (for_range_ext _ _
             (fun i arr =>
                <[i := (fun o => match o with
                                 | Some d => number_div (Num (inject_Z d)) 32768
                                 | None => NaN
                                 end) (map sample16 samples !! i)]> arr)).
  - rewrite <- (length_map sample16 samples).
    etransitivity;
      [exact (for_range_store_all
                (fun o => match o with
                          | Some d => number_div (Num (inject_Z d)) 32768
                          | None => NaN
                          end) (map sample16 samples) (Num 0))|].
    rewrite map_map. reflexivity.
  - intros i arr _. cbv beta. by rewrite Nat.mul_1_r, Nat.add_0_r.
Qed.

Lemma clamp_cases x :
  match x with
  | NaN => clamp x = NaN
  | PosInf => clamp x = Num 1
  | NegInf => clamp x = Num (-1)
  | Num q => exists s, clamp x = Num s /\ (-1 <= s <= 1)%Q
               /\ ((q < -1)%Q -> s = (-1)%Q) /\ ((1 < q)%Q -> s = 1%Q)
               /\ ((-1 <= q <= 1)%Q -> (s == q)%Q)
  end.
Proof. destruct x; try reflexivity. apply clamp_Num. Qed.

Lemma clamp_range x s : clamp x = Num s -> (-1 <= s <= 1)%Q.
Proof.
  pose proof (clamp_cases x) as H. destruct x.
  - destruct H as (s' & E & Hs & _). rewrite E. by intros [= <-].
  - rewrite H. intros [= <-]. lra.
  - rewrite H. intros [= <-]. lra.
  - rewrite H. discriminate.
Qed.

Lemma clamp_not_Num x : (forall s, clamp x <> Num s) -> x = NaN /\ clamp x = NaN.
Proof.
  intros H. pose proof (clamp_cases x) as Hc. destruct x.
  - destruct Hc as (s & E & _). by destruct (H s).
  - by destruct (H 1%Q).
  - by destruct (H (-1)%Q).
  - done.
Qed.

Lemma pcm16_word samples i x :
  samples !! i = Some x ->
  take 2 (drop (2 * i) (pcm16 samples)) = le_bytes 2 (sample16 x mod 2 ^ 16).
Proof.
  revert i. induction samples as [|y l IH]; intros i Hi; [done|].
  destruct i as [|i].
  - cbn in Hi. injection Hi as ->. reflexivity.
  - cbn in Hi. replace (2 * S i)%nat with (S (S (2 * i))) by lia.
    rewrite pcm16_cons. cbn [drop]. by apply IH.
Qed.

(** C4, as amended.  For every sample sequence and integer rate, [encodeWav]
    returns 44 + 2 * len bytes: "RIFF" at 0, "WAVE" at 8, "fmt " at 12, 16 at
    16, format 1 at 20, one channel at 22, block align 2 at 32, 16 bits at
    34, "data" at 36, then the little-endian 16-bit payload.  The four
    32-bit fields that depend on the input hold their value modulo 2^32:
    the rate at 24 reads as the rate exactly when the rate is in [0, 2^32),
    the byte rate at 28 as 2 * rate exactly when the rate is in [0, 2^31),
    the chunk size at 4 as 36 + 2 * len exactly when len < 2^31 - 18, and
    the payload length at 40 as 2 * len exactly when len < 2^31. *)
Theorem encodeWav_layout (samples : list number) (sampleRate : Z) :
  let len := Z.of_nat (length samples) in
  exists bytes,
    encodeWav samples sampleRate
    = Ok {| blob_bytes := bytes; blob_type := str "audio/wav" |}
    /\ Z.of_nat (length bytes) = 44 + 2 * len
    /\ text bytes 0 4 = str "RIFF"
    /\ text bytes 8 4 = str "WAVE"
    /\ text bytes 12 4 = str "fmt "
    /\ field bytes 16 4 = 16
    /\ field bytes 20 2 = 1
    /\ field bytes 22 2 = 1
    /\ field bytes 32 2 = 2
    /\ field bytes 34 2 = 16
    /\ text bytes 36 4 = str "data"
    /\ drop 44 bytes = pcm16 samples
    /\ field bytes 4 4 = (36 + 2 * len) mod 2 ^ 32
    /\ field bytes 24 4 = sampleRate mod 2 ^ 32
    /\ field bytes 28 4 = (sampleRate * 2) mod 2 ^ 32
    /\ field bytes 40 4 = (2 * len) mod 2 ^ 32
    /\ (field bytes 24 4 = sampleRate <-> 0 <= sampleRate < 2 ^ 32)
    /\ (field bytes 28 4 = sampleRate * 2 <-> 0 <= sampleRate < 2 ^ 31)
    /\ (field bytes 4 4 = 36 + 2 * len <-> len < 2 ^ 31 - 18)
    /\ (field bytes 40 4 = 2 * len <-> len < 2 ^ 31).
Proof.
  cbv zeta. eexists. split; [apply encodeWav_bytes|].
  split; [apply layout_length|].
  pose proof (layout_texts samples sampleRate) as (? & ? & ? & ?).
  pose proof (layout_constants samples sampleRate) as (? & ? & ? & ? & ?).
  do 10 (split; [done|]).
  rewrite layout_sampleRate, layout_byteRate, layout_chunkSize, layout_dataSize.
  replace (Z.of_nat (length samples) * 2) with (2 * Z.of_nat (length samples))
    by lia.
  do 4 (split; [reflexivity|]).
  pose proof (Z.mod_pos_bound sampleRate (2 ^ 32) ltac:(lia)).
  pose proof (Z.mod_pos_bound (sampleRate * 2) (2 ^ 32) ltac:(lia)).
  pose proof (Z.mod_pos_bound (36 + 2 * Z.of_nat (length samples)) (2 ^ 32)
                ltac:(lia)).
  pose proof (Z.mod_pos_bound (2 * Z.of_nat (length samples)) (2 ^ 32)
                ltac:(lia)).
  repeat split; intros; try lia; apply Z.mod_small; lia.
Qed.

Lemma encodeWav_layout_witness :
  exists bytes,
    encodeWav [Num (1 # 2)] 3000000000
    = Ok {| blob_bytes := bytes; blob_type := str "audio/wav" |}
    /\ field bytes 24 4 = 3000000000
    /\ field bytes 28 4 = 1705032704
    /\ field bytes 4 4 = 38 /\ field bytes 40 4 = 2.
Proof.
  destruct (encodeWav_layout [Num (1 # 2)] 3000000000)
    as (bytes & E & _ & _ & _ & _ & _ & _ & _ & _ & _ & _ & _
        & _ & _ & H28 & _ & H24 & _ & H4 & H40).
  exists bytes. split; [exact E|].
  split; [apply H24; lia|]. split; [exact H28|].
  split; [apply H4; simpl; lia|apply H40; simpl; lia].
Defined.

Lemma encodeWav_layout_counterexample :
  (exists bytes,
     encodeWav [] 2147483648
     = Ok {| blob_bytes := bytes; blob_type := str "audio/wav" |}
     /\ field bytes 28 4 <> 2147483648 * 2)
  /\ (exists bytes,
        encodeWav [] 4294967296
        = Ok {| blob_bytes := bytes; blob_type := str "audio/wav" |}
        /\ field bytes 24 4 <> 4294967296)
  /\ (exists bytes,
        encodeWav (replicate (Z.to_nat 2147483630) (Num 0)) 16000
        = Ok {| blob_bytes := bytes; blob_type := str "audio/wav" |}
        /\ field bytes 4 4 <> 36 + 2 * 2147483630)
  /\ (exists bytes,
        encodeWav (replicate (Z.to_nat 2147483648) (Num 0)) 16000
        = Ok {| blob_bytes := bytes; blob_type := str "audio/wav" |}
        /\ field bytes 40 4 <> 2 * 2147483648).
Proof.
  split; [|split; [|split]].
  - eexists. split; [apply encodeWav_bytes|]. rewrite layout_byteRate. by vm_compute.
  - eexists. split; [apply encodeWav_bytes|]. rewrite layout_sampleRate. by vm_compute.
  - eexists. split; [apply encodeWav_bytes|]. rewrite layout_chunkSize.
    rewrite length_replicate, Z2Nat.id by lia. by vm_compute.
  - eexists. split; [apply encodeWav_bytes|]. rewrite layout_dataSize.
    rewrite length_replicate, Z2Nat.id by lia. by vm_compute.
Qed.

(** C3, as amended.  Decoding the payload of [encodeWav samples rate] as
    16-bit mono gives, at every index, a value within 2/32768 of the clamped
    sample (within 1/32768 when that sample is negative); a NaN sample
    decodes to 0.  The decoder returns a buffer whenever the sequence is not
    empty and the context supports the rate. *)
Theorem decode_encodeWav_error (samples : list number) (sampleRate : Z) :
  exists blob,
    encodeWav samples sampleRate = Ok blob
    /\ forall ctx,
         (samples <> [] ->
          ctx_minRate ctx <= sampleRate <= ctx_maxRate ctx ->
          exists buffer,
            decodeAudioData (drop 44 (blob_bytes blob)) ctx sampleRate 1 = Ok buffer)
         /\ forall buffer,
              decodeAudioData (drop 44 (blob_bytes blob)) ctx sampleRate 1 = Ok buffer ->
              exists channel,
                channels buffer = [channel]
                /\ length channel = length samples
                /\ forall i x, samples !! i = Some x ->
                     exists d, channel !! i = Some (Num d)
                       /\ match clamp x with
                          | Num s => (Qabs (d - s) < 2 # 32768)%Q
                                     /\ ((s < 0)%Q -> (Qabs (d - s) < 1 # 32768)%Q)
                          | _ => (d == 0)%Q
                          end.
Proof.
  eexists. split; [apply encodeWav_bytes|]. cbn [blob_bytes].
  change (drop 44 (wavHeader _ _ ++ pcm16 samples)) with (pcm16 samples).
  intros ctx. rewrite decode_pcm16. unfold createBuffer. split.
  - intros Hne [H1 H2]. 
    assert (1 <= Z.of_nat (length samples)) by (destruct samples; [done|cbn [length]; lia]).
    replace ((1 <=? 1) && (1 <=? 32) && (1 <=? Z.of_nat (length samples))
             && (ctx_minRate ctx <=? sampleRate) && (sampleRate <=? ctx_maxRate ctx))
      with true; [by eexists|].
    symmetry. repeat (apply andb_true_iff; split); apply Z.leb_le; lia.
  - destruct ((1 <=? 1) && (1 <=? 32) && (1 <=? Z.of_nat (length samples))
              && (ctx_minRate ctx <=? sampleRate) && (sampleRate <=? ctx_maxRate ctx));
      [|discriminate].
    rewrite bind_Ok. intros buffer [= <-]. cbn [channels].
    eexists. split; [reflexivity|]. split; [apply length_map|].
    intros i x Hx. exists (inject_Z (sample16 x) / 32768)%Q.
    split.
    { change (map (fun x0 => decoded (sample16 x0)) samples)
        with ((fun x0 => decoded (sample16 x0)) <$> samples).
      by rewrite list_lookup_fmap, Hx. }
    unfold sample16. destruct (clamp x) as [s| | |] eqn:E;
      try (cbn; reflexivity).
    apply decode_error, (clamp_range x s E).
Qed.

Lemma decode_encodeWav_error_witness :
  exists blob buffer channel d,
    encodeWav [Num (3 # 4)] 16000 = Ok blob
    /\ decodeAudioData (drop 44 (blob_bytes blob)) exampleContext 16000 1 = Ok buffer
    /\ channels buffer = [channel]
    /\ channel !! 0%nat = Some (Num d)
    /\ (Qabs (d - (3 # 4)) < 2 # 32768)%Q.
Proof.
  destruct (decode_encodeWav_error [Num (3 # 4)] 16000) as (blob & E & H).
  destruct (H exampleContext) as [Hex Hdec].
  destruct (Hex ltac:(discriminate) ltac:(split; vm_compute; discriminate))
    as (buffer & Hb).
  destruct (Hdec buffer Hb) as (channel & Hc & _ & Hi).
  destruct (Hi 0%nat (Num (3 # 4)) eq_refl) as (d & Hd & Herr).
  exists blob, buffer, channel, d.
  change (clamp (Num (3 # 4))) with (Num (3 # 4)) in Herr.
  destruct Herr as [Herr _]. repeat split; assumption.
Defined.

Lemma decode_encodeWav_error_counterexample :
  exists blob buffer d,
    encodeWav [Num (65535 # 65536)] 16000 = Ok blob
    /\ decodeAudioData (drop 44 (blob_bytes blob)) exampleContext 16000 1 = Ok buffer
    /\ channels buffer = [[Num d]]
    /\ clamp (Num (65535 # 65536)) = Num (65535 # 65536)
    /\ ~ (Qabs (d - (65535 # 65536)) <= 1 # 32768)%Q.
Proof.
  eexists _, _, _. split; [vm_compute; reflexivity|].
  split; [vm_compute; reflexivity|]. split; [reflexivity|]. split; [reflexivity|].
  vm_compute. intros H. apply H. reflexivity.
Qed.

End CodecFacts.

(** ** The note *)

Module AppFacts.

Import JSString App.









(** C5.  When the transcript changes, the note is only appended to: a
    transcript longer than the tracked length adds its suffix past that
    length to the note and the tracked length follows; a shorter one
    replaces the note wholesale and resets the tracked length; one of the
    same length changes nothing. *)
Theorem transcript_reconciliation (transcript : list Z) (n : Note) :
  let len := Z.of_nat (length transcript) in
  let tracked := lastProcessedTranscriptLength n in
  (tracked < len ->
   transcriptEffect transcript n
   = {| noteContent := noteContent n ++ drop (Z.to_nat tracked) transcript;
        lastProcessedTranscriptLength := len |})
  /\ (len < tracked ->
      transcriptEffect transcript n
      = {| noteContent := transcript; lastProcessedTranscriptLength := len |})
  /\ (len = tracked -> transcriptEffect transcript n = n).
Proof.
  cbv zeta. unfold transcriptEffect, substring. repeat split; intros H.
  - replace (_ <? _) with true by (symmetry; apply Z.ltb_lt; lia).
    do 3 f_equal. lia.
  - replace (lastProcessedTranscriptLength n <? _) with false
      by (symmetry; apply Z.ltb_ge; lia).
    replace (_ <? _) with true by (symmetry; apply Z.ltb_lt; lia). done.
  - rewrite H, Z.ltb_irrefl. done.
Qed.

Lemma transcript_reconciliation_witness :
  transcriptEffect (str "Hello world")
    {| noteContent := str "Hello"; lastProcessedTranscriptLength := 5 |}
  = {| noteContent := str "Hello world"; lastProcessedTranscriptLength := 11 |}
  /\ transcriptEffect (str "Hi")
       {| noteContent := str "Hello"; lastProcessedTranscriptLength := 5 |}
     = {| noteContent := str "Hi"; lastProcessedTranscriptLength := 2 |}
  /\ transcriptEffect (str "Hello")
       {| noteContent := str "edited"; lastProcessedTranscriptLength := 5 |}
     = {| noteContent := str "edited"; lastProcessedTranscriptLength := 5 |}.
Proof.
  split; [|split].
  - destruct (transcript_reconciliation (str "Hello world")
                {| noteContent := str "Hello"; lastProcessedTranscriptLength := 5 |})
      as (H & _ & _).
    apply H. vm_compute. reflexivity.
  - destruct (transcript_reconciliation (str "Hi")
                {| noteContent := str "Hello"; lastProcessedTranscriptLength := 5 |})
      as (_ & H & _).
    apply H. vm_compute. reflexivity.
  - destruct (transcript_reconciliation (str "Hello")
                {| noteContent := str "edited"; lastProcessedTranscriptLength := 5 |})
      as (_ & _ & H).
    apply H. vm_compute. reflexivity.
Defined.

End AppFacts.

(** ** The hook *)

Module HookFacts.

Import JSString Hook HookSpec.

(** *** State setters and renders *)

Lemma unchanged_apply r s u : unchanged r s u = true -> apply_update r u s = s.
Proof.
  destruct s, u; cbn; try (intros ->%bool_decide_eq_true; reflexivity).
  destruct audioBlob0, (run_action r a _) eqn:E; try discriminate. done.
Qed.

Lemma apply_evaluate r r' s u : apply_update r' (evaluate r s u) s = apply_update r u s.
Proof. destruct u; reflexivity. Qed.

Lemma state_render c : state (render c) = pending (refs c) c.
Proof. reflexivity. Qed.

Lemma pending_render r c : pending r (render c) = pending (refs c) c.
Proof. reflexivity. Qed.

Lemma pending_with_refs r f c : pending r (with_refs f c) = pending r c.
Proof. reflexivity. Qed.

Lemma pending_effect r e c : pending r (effect e c) = pending r c.
Proof. reflexivity. Qed.

(** What a dispatched update does to a cell of the state, when the update
    acts on that cell in a way that does not depend on the refs. *)
Lemma pending_dispatch {X} (f : State -> X) (g : X -> X) u :
  (forall r s, f (apply_update r u s) = g (f s)) ->
  forall r c, f (pending r (dispatch u c)) = g (f (pending r c)).
Proof.
  intros H r c. unfold dispatch.
  destruct (lanes c) eqn:El, (alternate c) eqn:Ea, (queue c) as [|u0 q] eqn:Eq;
    try (unfold pending; cbn [state queue]; rewrite ?Eq, ?foldl_app; cbn [foldl];
         apply H).
  destruct (unchanged (refs c) (state c) u) eqn:Eu.
  - unfold pending. rewrite Eq. cbn [foldl].
    apply unchanged_apply in Eu. rewrite <- Eu at 1. apply H.
  - unfold pending. cbn [state queue foldl]. rewrite Eq. cbn [foldl].
    rewrite apply_evaluate. apply H.
Qed.

Lemma refs_dispatch u c : refs (dispatch u c) = refs c.
Proof.
  unfold dispatch. destruct (lanes c), (alternate c), (queue c); try reflexivity.
  by destruct (unchanged _ _ _).
Qed.

Lemma trace_dispatch u c : trace (dispatch u c) = trace c.
Proof.
  unfold dispatch. destruct (lanes c), (alternate c), (queue c); try reflexivity.
  by destruct (unchanged _ _ _).
Qed.

Lemma state_dispatch u c : state (dispatch u c) = state c.
Proof.
  unfold dispatch. destruct (lanes c), (alternate c), (queue c); try reflexivity.
  by destruct (unchanged _ _ _).
Qed.


(** *** Properties kept by code that runs on the component *)

Lemma preserves_ret P {A} (a : A) : preserves P (mret a : Act A).
Proof. by intros c. Qed.

Lemma preserves_bind P {A B} (m : Act A) (k : A -> Act B) :
  preserves P m -> (forall a, preserves P (k a)) -> preserves P (m ≫= k).
Proof.
  intros Hm Hk c Hc. unfold mbind, Act_bind. specialize (Hm c Hc).
  destruct (m c) as [c' [a|e]]; [by apply Hk|exact Hm].
Qed.

Lemma preserves_throw P {A} e : preserves P (throw e : Act A).
Proof. by intros c. Qed.

Lemma preserves_lift P {A} (r : result A) : preserves P (lift r).
Proof. by intros c. Qed.

Lemma preserves_may_throw P o : preserves P (may_throw o).
Proof. destruct o; [apply preserves_throw|apply preserves_ret]. Qed.

Lemma preserves_modify P f : (forall c, P c -> P (f c)) -> preserves P (modify f).
Proof. intros Hf c Hc. by apply Hf. Qed.

Lemma preserves_await P rendered settles :
  (forall c, P c -> P (render c)) -> preserves P (await rendered settles).
Proof.
  intros Hr c Hc. unfold await.
  apply (preserves_may_throw P settles). destruct (rendered && lanes c); auto.
Qed.

(** *** The artifact is set by the encode step only *)

Lemma artifact_pending r s q :
  Forall (fun u => touchesAudioBlob u = false) q ->
  audioBlob (foldl (fun s u => apply_update r u s) s q) = audioBlob s.
Proof.
  intros H. revert s. induction H as [|u q Hu _ IH]; intros s; [reflexivity|].
  cbn [foldl]. rewrite IH. by destruct u.
Qed.

Lemma artifact_render b c : artifact_untouched b c -> artifact_untouched b (render c).
Proof.
  intros [Hb Hq]. split; [|constructor].
  cbn [render state]. unfold pending. by rewrite artifact_pending.
Qed.

Lemma artifact_dispatch b u c :
  touchesAudioBlob u = false ->
  artifact_untouched b c -> artifact_untouched b (dispatch u c).
Proof.
  intros Hu [Hb Hq]. unfold dispatch.
  destruct (lanes c), (alternate c), (queue c) as [|u0 q] eqn:Eq;
    try (split; [exact Hb|]; cbn [queue]; apply Forall_app; split;
         [exact Hq|by constructor]).
  destruct (unchanged _ _ _); [split; [exact Hb|by rewrite Eq]|].
  split; [exact Hb|]. constructor; [by destruct u|constructor].
Qed.

Lemma artifact_with_refs b f c :
  artifact_untouched b c -> artifact_untouched b (with_refs f c).
Proof. done. Qed.

Lemma artifact_effect b e c :
  artifact_untouched b c -> artifact_untouched b (effect e c).
Proof. done. Qed.

Local Ltac preserve :=
  repeat first
    [ apply preserves_bind; [|intros ?]
    | apply preserves_await
    | apply preserves_may_throw
    | apply preserves_lift
    | apply preserves_ret
    | apply preserves_modify; intros ? ?
    | apply artifact_render
    | apply artifact_with_refs
    | apply artifact_effect
    | assumption ].

Lemma artifact_release b env :
  preserves (artifact_untouched b)
    (closeSession env;; releaseStream env;; releaseProcessor env;;
     releaseSource env;; closeContext env;; closeOutputContext env).
Proof.
  repeat (apply preserves_bind; [|intros ?]).
  - intros c Hc. unfold closeSession.
    destruct (sessionPromiseRef (refs c)); [|exact Hc]. revert c Hc. preserve.
  - intros c Hc. unfold releaseStream.
    destruct (mediaStreamRef (refs c)); [|exact Hc]. revert c Hc. preserve.
  - intros c Hc. unfold releaseProcessor.
    destruct (scriptProcessorRef (refs c)); [|exact Hc]. revert c Hc. preserve.
  - intros c Hc. unfold releaseSource.
    destruct (mediaStreamSourceRef (refs c)); [|exact Hc]. revert c Hc. preserve.
  - intros c Hc. unfold closeContext.
    destruct (audioContextRef (refs c)) as [ctx|]; [|exact Hc].
    destruct (Audio.ctx_closed ctx); [exact Hc|]. revert c Hc. preserve.
  - intros c Hc. unfold closeOutputContext.
    destruct (outputAudioContextRef (refs c)) as [ctx|]; [|exact Hc].
    destruct (Audio.ctx_closed ctx); [exact Hc|]. revert c Hc. preserve.
Qed.


Lemma encodeArtifact_no_frames env c :
  recordedChunksRef (refs c) = [] -> encodeArtifact env c = (c, Ok ()).
Proof. intros H. unfold encodeArtifact. by rewrite H. Qed.

Lemma artifact_stop_finally b c :
  artifact_untouched b c -> artifact_untouched b (stop_finally c).
Proof.
  intros Hc. unfold stop_finally.
  do 2 (apply artifact_dispatch; [reflexivity|]).
  destruct (truthy _); [|exact Hc].
  apply artifact_dispatch; [reflexivity|]. apply artifact_with_refs.
  by apply artifact_dispatch.
Qed.

Lemma artifact_emit b props frame c :
  artifact_untouched b c -> artifact_untouched b (emitAudioData props frame c).
Proof. intros Hc. unfold emitAudioData. by destruct (onAudioData props). Qed.

Lemma artifact_stopTimer b c :
  artifact_untouched b c -> artifact_untouched b (stopTimer c).
Proof. intros Hc. unfold stopTimer. by destruct (timerRef (refs c)). Qed.

Lemma refs_emit props frame c : refs (emitAudioData props frame c) = refs c.
Proof. unfold emitAudioData. by destruct (onAudioData props). Qed.

Lemma chunks_stopTimer c :
  recordedChunksRef (refs (stopTimer c)) = recordedChunksRef (refs c).
Proof. unfold stopTimer. by destruct (timerRef (refs c)). Qed.

(** With no frame accumulated, a stop that runs sets no artifact. *)
Lemma stop_no_frames props env c seen :
  seen ∉ [IDLE; STOPPING] ->
  recordedChunksRef (refs c) = [] ->
  Forall (fun u => touchesAudioBlob u = false) (queue c) ->
  audioBlob (state (render (stopRecordingOf props seen env c)))
  = audioBlob (state c).
Proof.
  intros Hseen Hchunks Hq.
  assert (Hc : artifact_untouched (audioBlob (state c)) c) by done.
  cut (artifact_untouched (audioBlob (state c)) (stopRecordingOf props seen env c)).
  { intros H. by apply artifact_render in H as [H _]. }
  unfold stopRecordingOf. rewrite bool_decide_eq_false_2 by done.
  set (c3 := emitAudioData props [] _).
  assert (H3 : artifact_untouched (audioBlob (state c)) c3).
  { apply artifact_emit, artifact_stopTimer. by apply artifact_dispatch. }
  assert (E3 : recordedChunksRef (refs c3) = []).
  { subst c3. by rewrite refs_emit, chunks_stopTimer, refs_dispatch. }
  unfold stop_try. unfold mbind at 1, Act_bind at 1.
  rewrite encodeArtifact_no_frames by done.
  pose proof (artifact_release (audioBlob (state c)) env c3 H3) as Hrel.
  destruct ((closeSession env;; _) c3) as [c4 [[]|e]]; cbn [fst] in Hrel.
  - by apply artifact_stop_finally.
  - apply artifact_stop_finally. unfold stop_catch. by apply artifact_dispatch.
Qed.

(** C10.  Called while the state is IDLE or STOPPING, [stopRecording]
    leaves the whole component as it is: state, refs, pending updates and
    the calls made, so no empty frame is emitted.  When it does run with no
    frame accumulated (and no update of the artifact pending from before),
    the artifact after the next render is the one before: an absent
    artifact stays absent. *)
Theorem stop_guard (props : Props) (env : StopEnv) (c : Component) :
  (appState (state c) ∈ [IDLE; STOPPING] -> stopRecording props env c = c)
  /\ (appState (state c) ∉ [IDLE; STOPPING] ->
      recordedChunksRef (refs c) = [] ->
      Forall (fun u => touchesAudioBlob u = false) (queue c) ->
      audioBlob (state (render (stopRecording props env c)))
      = audioBlob (state c)).
Proof.
  split.
  - intros H. unfold stopRecording, stopRecordingOf. by rewrite bool_decide_eq_true_2.
  - intros. by apply stop_no_frames.
Qed.

(** *** stopRecording always comes back to IDLE *)

Lemma stop_finally_idle c :
  appState (state (render (stop_finally c))) = IDLE
  /\ recordingTime (state (render (stop_finally c))) = 0.
Proof.
  rewrite state_render. unfold stop_finally. rewrite refs_dispatch. split.
  - by rewrite (pending_dispatch appState (fun _ => IDLE)).
  - rewrite (pending_dispatch recordingTime id) by done.
    by rewrite (pending_dispatch recordingTime (fun _ => 0)).
Qed.

Lemma stop_reaches_idle props env c seen :
  seen ∉ [IDLE; STOPPING] ->
  appState (state (render (stopRecordingOf props seen env c))) = IDLE
  /\ recordingTime (state (render (stopRecordingOf props seen env c))) = 0.
Proof.
  intros Hseen. unfold stopRecordingOf. rewrite bool_decide_eq_false_2 by done.
  destruct (stop_try env _) as [c4 r]. apply stop_finally_idle.
Qed.


(** *** Turns *)

Lemma deliver_turn events : forall c L T,
  liveTranscriptRef (refs c) = L ->
  (forall r, transcript (pending r c) = T) ->
  liveTranscriptRef (refs (deliver events c)) = L ++ fragments events
  /\ forall r, transcript (pending r (deliver events c)) = T.
Proof.
  induction events as [|[text|] events IH]; intros c L T HL HT.
  - cbn. by rewrite app_nil_r.
  - cbn [deliver foldl fragments]. rewrite app_assoc. apply IH.
    + unfold onmessage, fragmentMessage. cbn [inputTranscription turnComplete default].
      rewrite refs_dispatch. cbn. by rewrite HL.
    + intros r. unfold onmessage, fragmentMessage.
      cbn [inputTranscription turnComplete default].
      rewrite (pending_dispatch transcript id) by done. apply HT.
  - cbn [deliver foldl fragments]. apply IH; [exact HL|].
    intros r. rewrite pending_render. apply HT.
Qed.

Lemma turnComplete_flush c T :
  (forall r, transcript (pending r c) = T) ->
  let c' := render (onmessage turnCompleteMessage c) in
  transcript (state c') = T ++ flushed (liveTranscriptRef (refs c))
  /\ liveTranscript (state c') = []
  /\ liveTranscriptRef (refs c') = [].
Proof.
  intros HT. cbv zeta. unfold onmessage, turnCompleteMessage.
  cbn [inputTranscription turnComplete]. rewrite state_render.
  split; [|split].
  - rewrite (pending_dispatch transcript id) by done. unfold id.
    rewrite pending_with_refs. unfold flushed.
    destruct (truthy (trim _)).
    + rewrite (pending_dispatch transcript
                 (fun prev => prev ++ liveTranscriptRef (refs c) ++ paragraph_break))
        by done.
      by rewrite HT.
    + by rewrite HT, app_nil_r.
  - by rewrite (pending_dispatch liveTranscript (fun _ => [])).
  - cbn [render refs]. by rewrite refs_dispatch.
Qed.

(** C7, as amended.  Fragments delivered in one turn with no user edit,
    renders in between or not, then a turn-complete message: when their
    concatenation has a character that is not white space, the settled
    transcript gains that concatenation followed by a paragraph break, once;
    when it has none, the settled transcript gains nothing.  Either way the
    live transcript and its ref are emptied. *)
Theorem turn_flush (c0 : Component) (events : list TurnEvent) :
  let c := render c0 in
  liveTranscriptRef (refs c) = [] ->
  let c' := render (onmessage turnCompleteMessage (deliver events c)) in
  transcript (state c')
  = transcript (state c)
    ++ (if truthy (trim (fragments events))
        then fragments events ++ paragraph_break else [])
  /\ liveTranscript (state c') = []
  /\ liveTranscriptRef (refs c') = [].
Proof.
  intros c HL.
  destruct (deliver_turn events c [] (transcript (state c)) HL) as [HF HT].
  { intros r. reflexivity. }
  cbn [app] in HF.
  pose proof (turnComplete_flush (deliver events c) _ HT) as H.
  cbv zeta in H. rewrite HF in H. exact H.
Qed.


(** *** Start *)

Lemma trace_render c : trace (render c) = trace c.
Proof. reflexivity. Qed.

Lemma refs_render c : refs (render c) = refs c.
Proof. reflexivity. Qed.

Lemma trace_effect e c : trace (effect e c) = trace c ++ [e].
Proof. reflexivity. Qed.

Lemma refs_effect e c : refs (effect e c) = refs c.
Proof. reflexivity. Qed.

Lemma trace_with_refs f c : trace (with_refs f c) = trace c.
Proof. reflexivity. Qed.

Lemma refs_with_refs f c : refs (with_refs f c) = f (refs c).
Proof. reflexivity. Qed.

Lemma session_set_recordedChunksRef v r :
  sessionPromiseRef (set_recordedChunksRef v r) = sessionPromiseRef r.
Proof. reflexivity. Qed.

Lemma start_resume_trace props env c :
  trace (startRecording_resume props env c)
  = trace c ++ (if start_ok env then [LiveConnect (language props)] else [])
  /\ sessionPromiseRef (refs (startRecording_resume props env c))
     = if start_ok env then Some (connected env) else sessionPromiseRef (refs c).
Proof.
  unfold startRecording_resume, start_try, start_ok.
  destruct env as [um ac oc nc conn]. cbn [userMedia newAudioContext newOutputAudioContext newClient connected].
  unfold mbind, Act_bind, lift, modify, may_throw, throw, mret, Act_ret.
  destruct um as [stream|e]; [|rewrite trace_dispatch, trace_dispatch, !refs_dispatch; by rewrite app_nil_r].
  destruct ac as [a|e]; [|rewrite trace_dispatch, trace_dispatch, !refs_dispatch; by rewrite app_nil_r].
  destruct oc as [o|e]; [|rewrite trace_dispatch, trace_dispatch, !refs_dispatch; by rewrite app_nil_r].
  destruct nc as [e|]; [rewrite trace_dispatch, trace_dispatch, !refs_dispatch; by rewrite app_nil_r|].
  done.
Qed.

Lemma startRecording_idle c :
  appState (state c) = IDLE ->
  startRecording c
  = (effect GetUserMedia
       (dispatch (SetAppState (Value GETTING_PERMISSION))
          (with_refs (set_recordedChunksRef [])
             (dispatch (SetAudioBlob (Value None))
                (dispatch (SetRecordingTime (Value 0))
                   (dispatch (SetLiveTranscript (Value []))
                      (dispatch (SetTranscript (Value []))
                         (dispatch (SetError (Value None)) c))))))),
     Suspended).
Proof.
  intros H. unfold startRecording.
  rewrite bool_decide_eq_false_2; [reflexivity|]. rewrite H. tauto.
Qed.

Lemma startRecording_busy c :
  appState (state c) <> IDLE -> startRecording c = (c, Returned).
Proof. intros H. unfold startRecording. by rewrite bool_decide_eq_true_2. Qed.

(** What the first segment of [startRecording] leaves behind. *)
Lemma startRecording_idle_facts c :
  appState (state c) = IDLE ->
  (startRecording c).2 = Suspended
  /\ appState (state (render (startRecording c).1)) = GETTING_PERMISSION
  /\ trace (render (startRecording c).1) = trace c ++ [GetUserMedia]
  /\ sessionPromiseRef (refs (render (startRecording c).1))
     = sessionPromiseRef (refs c).
Proof.
  intros H. rewrite (startRecording_idle c H). cbn [fst snd].
  split; [reflexivity|]. split; [|split].
  - rewrite state_render, pending_effect.
    by rewrite (pending_dispatch appState (fun _ => GETTING_PERMISSION)).
  - rewrite trace_render, trace_effect, trace_dispatch, trace_with_refs.
    by rewrite !trace_dispatch.
  - rewrite refs_render, refs_effect, refs_dispatch, refs_with_refs.
    rewrite session_set_recordedChunksRef. by rewrite !refs_dispatch.
Qed.

(** The first segment of [startRecording] leaves the rendered state as it
    is: its updates wait for the next render. *)
Lemma state_effect e c : state (effect e c) = state c.
Proof. reflexivity. Qed.

Lemma state_with_refs f c : state (with_refs f c) = state c.
Proof. reflexivity. Qed.

Lemma startRecording_state c : state (startRecording c).1 = state c.
Proof.
  destruct (decide (appState (state c) = IDLE)) as [H|H].
  - rewrite (startRecording_idle c H). cbn [fst].
    rewrite state_effect, state_dispatch, state_with_refs.
    by rewrite !state_dispatch.
  - by rewrite (startRecording_busy c H).
Qed.

Lemma startRecording_idle_trace c :
  appState (state c) = IDLE ->
  (startRecording c).2 = Suspended
  /\ trace (startRecording c).1 = trace c ++ [GetUserMedia].
Proof.
  intros H. rewrite (startRecording_idle c H). cbn [fst snd].
  split; [reflexivity|].
  rewrite trace_effect, trace_dispatch, trace_with_refs. by rewrite !trace_dispatch.
Qed.

(** C2, as amended.  [startRecording] and [transcribeFile] test the
    [appState] of the last render.  Called when it is not IDLE they do
    nothing: the component is left as it is, state, refs, pending updates
    and calls made.  In particular a second [startRecording] made after the
    render that shows GETTING_PERMISSION returns at once, and when the first
    goes on it makes the only request for the microphone and opens the only
    session.  A second [startRecording] made before that render finds the
    state still IDLE and runs as the first did: the microphone is asked for
    twice, and when both go on two sessions are opened. *)
Theorem start_only_from_idle (props : Props) (fenv : FileEnv) (file : File)
    (senv senv' : StartEnv) :
  (forall c, appState (state c) <> IDLE ->
     startRecording c = (c, Returned) /\ transcribeFile props fenv file c = c)
  /\ (forall c0, appState (state c0) = IDLE ->
        let first := startRecording c0 in
        let c1 := render first.1 in
        let second := startRecording c1 in
        let c2 := startRecording_resume props senv second.1 in
        first.2 = Suspended
        /\ appState (state c1) = GETTING_PERMISSION
        /\ second = (c1, Returned)
        /\ trace c2
           = trace c0 ++ GetUserMedia
               :: (if start_ok senv then [LiveConnect (language props)] else [])
        /\ sessionPromiseRef (refs c2)
           = if start_ok senv then Some (connected senv)
             else sessionPromiseRef (refs c0))
  /\ (forall c0, appState (state c0) = IDLE ->
        let first := startRecording c0 in
        let second := startRecording first.1 in
        let c2 := startRecording_resume props senv'
                    (startRecording_resume props senv second.1) in
        appState (state first.1) = IDLE
        /\ second.2 = Suspended
        /\ trace second.1 = trace c0 ++ [GetUserMedia; GetUserMedia]
        /\ trace c2
           = trace c0 ++ [GetUserMedia; GetUserMedia]
             ++ (if start_ok senv then [LiveConnect (language props)] else [])
             ++ (if start_ok senv' then [LiveConnect (language props)] else [])).
Proof.
  split; [|split].
  - intros c Hc. split; [by apply startRecording_busy|].
    unfold transcribeFile. by rewrite bool_decide_eq_true_2.
  - intros c0 H0. cbv zeta.
    destruct (startRecording_idle_facts c0 H0) as (F1 & F2 & F3 & F4).
    generalize dependent (render (startRecording c0).1). intros c1 F2 F3 F4.
    assert (E : startRecording c1 = (c1, Returned)).
    { apply startRecording_busy. rewrite F2. discriminate. }
    rewrite E. cbn [fst].
    destruct (start_resume_trace props senv c1) as [Ht Hs].
    rewrite Ht, Hs, F3, F4, <- app_assoc.
    repeat split; done.
  - intros c0 H0. cbv zeta.
    assert (H1 : appState (state (startRecording c0).1) = IDLE)
      by (by rewrite startRecording_state).
    destruct (startRecording_idle_trace c0 H0) as [_ T1].
    destruct (startRecording_idle_trace _ H1) as [S2 T2].
    split; [exact H1|]. split; [exact S2|].
    rewrite (proj1 (start_resume_trace props senv' _)).
    rewrite (proj1 (start_resume_trace props senv _)).
    rewrite T2, T1, <- !app_assoc. done.
Qed.

Lemma start_only_from_idle_witness :
  startRecording (render (startRecording idleComponent).1)
  = (render (startRecording idleComponent).1, Returned)
  /\ trace (startRecording_resume exampleProps grantedStart
              (startRecording (render (startRecording idleComponent).1)).1)
     = [GetUserMedia; LiveConnect (str "ru")]
  /\ transcribeFile exampleProps exampleFileEnv
       {| file_name := str "voice.m4a"; file_type := str "audio/x-m4a" |}
       recordingComponent
     = recordingComponent
  /\ trace (startRecording (startRecording idleComponent).1).1
     = [GetUserMedia; GetUserMedia].
Proof.
  destruct (start_only_from_idle exampleProps exampleFileEnv
              {| file_name := str "voice.m4a"; file_type := str "audio/x-m4a" |}
              grantedStart grantedStart) as (Hguard & Hafter & Hbefore).
  destruct (Hafter idleComponent eq_refl) as (_ & _ & H2 & H3 & _).
  destruct (Hguard recordingComponent ltac:(discriminate)) as [_ H4].
  destruct (Hbefore idleComponent eq_refl) as (_ & _ & H5 & _).
  split; [exact H2|]. split; [exact H3|]. split; [exact H4|exact H5].
Defined.

(** Two calls of [startRecording] in succession, the second before React
    has rendered: the first has dispatched GETTING_PERMISSION and waits for
    the microphone, the second sees IDLE and is not a no-op.  The
    microphone is asked for twice and two sessions are opened.  A
    [transcribeFile] called at that point likewise sends its request. *)
Lemma start_only_from_idle_counterexample :
  let first := startRecording idleComponent in
  let second := startRecording first.1 in
  let c2 := startRecording_resume exampleProps grantedStart
              (startRecording_resume exampleProps grantedStart second.1) in
  let file := {| file_name := str "voice.m4a"; file_type := str "audio/x-m4a" |} in
  first.2 = Suspended
  /\ appState (pending (refs first.1) first.1) = GETTING_PERMISSION
  /\ second <> (first.1, Returned)
  /\ trace second.1 = [GetUserMedia; GetUserMedia]
  /\ trace c2 = [GetUserMedia; GetUserMedia;
                 LiveConnect (str "ru"); LiveConnect (str "ru")]
  /\ trace (transcribeFile exampleProps exampleFileEnv file first.1)
     = [GetUserMedia; ReadFile (str "voice.m4a");
        GenerateContent (str "audio/mp4") (str "AAAA") (str "ru")].
Proof. vm_compute. repeat split; try reflexivity. discriminate. Qed.


Lemma turn_flush_witness :
  let c0 := with_refs (set_liveTranscriptRef []) recordingComponent in
  transcript (state (render (onmessage turnCompleteMessage
                (deliver [Fragment (str "Hello"); Rendered; Fragment (str " world")]
                   (render c0)))))
  = str "Settled. Hello world" ++ paragraph_break.
Proof.
  intros c0.
  destruct (turn_flush c0
              [Fragment (str "Hello"); Rendered; Fragment (str " world")] eq_refl)
    as [H _].
  rewrite H. vm_compute. reflexivity.
Defined.

Lemma turn_flush_counterexample :
  transcript (state (render (onmessage turnCompleteMessage
                (deliver [Fragment (str "Hello")] (render idleComponent)))))
  <> transcript (state (render idleComponent)) ++ fragments [Fragment (str "Hello")]
  /\ transcript (state (render (onmessage turnCompleteMessage
                   (deliver [Fragment (str " ")] (render idleComponent)))))
     <> transcript (state (render idleComponent)) ++ fragments [Fragment (str " ")].
Proof. split; vm_compute; discriminate. Qed.

Lemma stop_guard_witness :
  stopRecording exampleProps cleanStop idleComponent = idleComponent
  /\ audioBlob (state (render (stopRecording exampleProps cleanStop
                                 (with_refs (set_recordedChunksRef []) recordingComponent))))
     = None.
Proof.
  split.
  - apply (stop_guard exampleProps cleanStop idleComponent). 
    apply list_elem_of_here.
  - apply (stop_guard exampleProps cleanStop
             (with_refs (set_recordedChunksRef []) recordingComponent)).
    + intros H. apply elem_of_cons in H as [H|H]; [discriminate|].
      apply elem_of_cons in H as [H|H]; [discriminate|]. by apply elem_of_nil in H.
    + reflexivity.
    + constructor.
Defined.

(** *** The fragment pending at stop *)

Lemma stop_finally_error c v :
  (forall r, error (pending r c) = v) ->
  forall r, error (pending r (stop_finally c)) = v.
Proof.
  intros H r. unfold stop_finally.
  do 2 rewrite (pending_dispatch error id) by done. unfold id.
  destruct (truthy _); [|apply H].
  rewrite (pending_dispatch error id) by done. unfold id.
  rewrite pending_with_refs, (pending_dispatch error id) by done. apply H.
Qed.

(** A clean-up step that throws shows as the soft error. *)
Lemma stop_error props env c seen e :
  seen ∉ [IDLE; STOPPING] ->
  (stop_try env (emitAudioData props []
                   (stopTimer (dispatch (SetAppState (Value STOPPING)) c)))).2
  = Throw e ->
  error (state (render (stopRecordingOf props seen env c))) = Some stop_failed.
Proof.
  intros Hseen. unfold stopRecordingOf.
  rewrite bool_decide_eq_false_2 by done.
  destruct (stop_try env _) as [c4 r]. cbn [snd]. intros ->.
  rewrite state_render. apply stop_finally_error. intros r. unfold stop_catch.
  by rewrite (pending_dispatch error (fun _ => Some stop_failed)).
Qed.

(** When work is flagged on the component as [finally] runs, on either
    fiber, the updater is queued and reads the ref after it has been
    emptied: the settled transcript gains the paragraph break alone. *)
Lemma stop_finally_drops_fragment c :
  flagged c = true ->
  truthy (liveTranscriptRef (refs c)) = true ->
  transcript (state (render (stop_finally c)))
  = transcript (pending (set_liveTranscriptRef [] (refs c)) c) ++ paragraph_break.
Proof.
  intros Hl Ht. rewrite state_render. unfold stop_finally. rewrite Ht.
  rewrite !refs_dispatch. cbn [with_refs refs]. rewrite refs_dispatch.
  do 3 rewrite (pending_dispatch transcript id) by done. unfold id.
  rewrite pending_with_refs. unfold dispatch at 1. unfold flagged in Hl.
  destruct (lanes c), (alternate c); try discriminate;
    unfold pending; cbn [state queue]; rewrite foldl_app; cbn; reflexivity.
Qed.

(** C1, at a failing input.  A recording with the fragment "pending words"
    not yet settled is stopped and the promise of the session rejects.  The
    component comes back to IDLE with the time at zero and the soft error
    shown, the live buffer is emptied, but the settled transcript gains the
    paragraph break only: the fragment is lost. *)
Theorem stop_loses_pending_fragment :
  let c := recordingComponent in
  let c' := render (stopRecording exampleProps rejectedSession c) in
  appState (state c) = RECORDING
  /\ liveTranscriptRef (refs c) = str "pending words"
  /\ appState (state c') = IDLE
  /\ recordingTime (state c') = 0
  /\ error (state c') = Some stop_failed
  /\ liveTranscript (state c') = []
  /\ liveTranscriptRef (refs c') = []
  /\ transcript (state c') = transcript (state c) ++ paragraph_break.
Proof. vm_compute. repeat split; reflexivity. Qed.

(** The same stop with every clean-up call succeeding loses the fragment
    as well: [setAppState(STOPPING)] has flagged the component, and after
    the render at the first [await] the alternate still carries the flag. *)
Lemma stop_clean_drops_fragment :
  transcript (state (render (stopRecording exampleProps cleanStop recordingComponent)))
  = str "Settled. " ++ paragraph_break.
Proof. vm_compute. reflexivity. Qed.

Lemma flagged_dispatch u c :
  flagged c = true \/ unchanged (refs c) (state c) u = false ->
  flagged (dispatch u c) = true.
Proof.
  unfold flagged, dispatch.
  destruct (lanes c), (alternate c), (queue c); try reflexivity.
  intros [H|H]; [discriminate|]. by rewrite H.
Qed.

Lemma stopping_dispatch L T u c :
  (forall r s, transcript (apply_update r u s) = transcript s) ->
  stopping L T c -> stopping L T (dispatch u c).
Proof.
  intros Hu (H1 & H2 & H3). split; [|split].
  - apply flagged_dispatch. by left.
  - by rewrite refs_dispatch.
  - intros r. rewrite (pending_dispatch transcript id) by exact Hu. apply H3.
Qed.

Lemma stopping_with_refs L T f c :
  (forall r, liveTranscriptRef (f r) = liveTranscriptRef r) ->
  stopping L T c -> stopping L T (with_refs f c).
Proof. intros Hf (H1 & H2 & H3). split; [|split]; [done| |done]. cbn. by rewrite Hf. Qed.

Lemma stopping_effect L T e c : stopping L T c -> stopping L T (effect e c).
Proof. done. Qed.

Lemma stopping_await L T rendered settles :
  preserves (stopping L T) (await rendered settles).
Proof.
  intros c (H1 & H2 & H3). unfold await.
  apply (preserves_may_throw (stopping L T) settles).
  destruct rendered; cbn [andb]; [|done].
  destruct (lanes c) eqn:El; [|done].
  split; [|split]; [|done|].
  - unfold flagged. cbn. by rewrite El.
  - intros r. rewrite pending_render. apply H3.
Qed.

Local Ltac keep_stopping :=
  repeat first
    [ apply preserves_bind; [|intros ?]
    | apply stopping_await
    | apply preserves_may_throw
    | apply preserves_lift
    | apply preserves_ret
    | apply preserves_modify; intros ? ?
    | apply stopping_dispatch; [by intros ? []|]
    | apply stopping_with_refs; [done|]
    | apply stopping_effect
    | assumption ].

Lemma stopping_stop_try L T env : preserves (stopping L T) (stop_try env).
Proof.
  unfold stop_try. repeat (apply preserves_bind; [|intros ?]).
  - intros c Hc. unfold encodeArtifact.
    destruct (0 <? length (recordedChunksRef (refs c)))%nat; [|exact Hc].
    generalize (recordedChunksRef (refs c)) (effectiveSampleRate (refs c)).
    intros chunks rate. revert c Hc. keep_stopping.
  - intros c Hc. unfold closeSession.
    destruct (sessionPromiseRef (refs c)); [|exact Hc]. revert c Hc. keep_stopping.
  - intros c Hc. unfold releaseStream.
    destruct (mediaStreamRef (refs c)); [|exact Hc]. revert c Hc. keep_stopping.
  - intros c Hc. unfold releaseProcessor.
    destruct (scriptProcessorRef (refs c)); [|exact Hc]. revert c Hc. keep_stopping.
  - intros c Hc. unfold releaseSource.
    destruct (mediaStreamSourceRef (refs c)); [|exact Hc]. revert c Hc. keep_stopping.
  - intros c Hc. unfold closeContext.
    destruct (audioContextRef (refs c)) as [ctx|]; [|exact Hc].
    destruct (Audio.ctx_closed ctx); [exact Hc|]. revert c Hc. keep_stopping.
  - intros c Hc. unfold closeOutputContext.
    destruct (outputAudioContextRef (refs c)) as [ctx|]; [|exact Hc].
    destruct (Audio.ctx_closed ctx); [exact Hc|]. revert c Hc. keep_stopping.
Qed.

(** Every stop that runs with a fragment in the live buffer loses it,
    whether a clean-up call throws or not and whether React gets to render
    at the awaits or not: the first setter call flags the component, the
    flag is still there on one fiber or the other when [finally] runs, so
    the updater is queued and reads the buffer after it has been emptied. *)
Lemma stop_drops_fragment props env c T :
  appState (state c) ∉ [IDLE; STOPPING] ->
  truthy (liveTranscriptRef (refs c)) = true ->
  (forall r, transcript (pending r c) = T) ->
  transcript (state (render (stopRecording props env c))) = T ++ paragraph_break.
Proof.
  intros Hs Ht HT. unfold stopRecording, stopRecordingOf.
  rewrite bool_decide_eq_false_2 by done.
  set (c3 := emitAudioData props [] _).
  assert (H3 : stopping (liveTranscriptRef (refs c)) T c3).
  { subst c3.
    assert (H1 : stopping (liveTranscriptRef (refs c)) T
                   (dispatch (SetAppState (Value STOPPING)) c)).
    { split; [|split].
      - apply flagged_dispatch. right. cbn. apply bool_decide_eq_false.
        intros E. apply Hs. rewrite <- E. apply elem_of_cons. right. apply list_elem_of_here.
      - by rewrite refs_dispatch.
      - intros r. rewrite (pending_dispatch transcript id) by done. apply HT. }
    assert (H2 : stopping (liveTranscriptRef (refs c)) T
                   (stopTimer (dispatch (SetAppState (Value STOPPING)) c))).
    { unfold stopTimer. destruct (timerRef _); [|exact H1].
      by apply stopping_with_refs. }
    unfold emitAudioData. destruct (onAudioData props); [|exact H2].
    destruct H2 as (_ & ? & ?). by split. }
  pose proof (stopping_stop_try _ _ env c3 H3) as H4. clearbody c3.
  destruct (stop_try env c3) as [c4 r]. cbn [fst] in H4.
  assert (H5 : stopping (liveTranscriptRef (refs c)) T
                 match r with Throw e => stop_catch e c4 | Ok _ => c4 end).
  { destruct r as [[]|e]; [exact H4|]. unfold stop_catch.
    by apply stopping_dispatch. }
  destruct H5 as (F & L & P).
  rewrite stop_finally_drops_fragment by (by rewrite ?L).
  by rewrite P.
Qed.


(** *** Media types *)

Lemma mimeMap_m4a : mimeMap !! str "m4a" = Some (str "audio/mp4").
Proof. vm_compute. reflexivity. Qed.

Lemma mimeMap_empty : mimeMap !! ([] : list Z) = None.
Proof. vm_compute. reflexivity. Qed.

Lemma validity m :
  negb (truthy m && startsWith m (str "audio/"))
  && negb (truthy m && bool_decide (m ∈ [str "video/mp4"; str "video/webm"; str "video/3gpp"]))
  = negb (acceptable m).
Proof.
  unfold acceptable. destruct m as [|c m]; [reflexivity|].
  by rewrite negb_orb.
Qed.

(** Away from the names of [Object.prototype], the hook resolves the type
    the specification describes and rejects exactly the types that neither
    start with "audio/" nor are one of the three video containers. *)
Lemma resolveMimeType_spec file :
  extensionOf file ∉ Object_prototype ->
  resolveMimeType file
  = if acceptable (resolvedType file) then Ok (resolvedType file)
    else Throw (Error "Error" (unsupported_message (resolvedType file))).
Proof.
  intros Hproto. unfold resolveMimeType, resolvedType, extensionOf in *.
  destruct (pop (split 46 (file_name file))) as [raw|];
    cbn [fmap option_fmap option_map from_option id] in *.
  - set (ext := (trim ∘ toLowerCase) raw) in *. unfold mimeMap_get.
    destruct (truthy ext) eqn:Et.
    + destruct (mimeMap !! ext) as [mapped|] eqn:Em.
      * destruct (bool_decide (Some ext = Some (str "m4a"))) eqn:E4.
        -- apply bool_decide_eq_true in E4. injection E4 as E4.
           rewrite E4, mimeMap_m4a in Em. injection Em as <-.
           reflexivity.
        -- cbn [andb]. rewrite validity. destruct (acceptable mapped); reflexivity.
      * rewrite (bool_decide_eq_false_2 _ Hproto).
        replace (bool_decide (Some ext = Some (str "m4a"))) with false.
        2:{ symmetry. apply bool_decide_eq_false. intros [= E4].
            rewrite E4, mimeMap_m4a in Em. discriminate. }
        cbn [andb strict_eq]. destruct (bool_decide (file_type file = _));
          rewrite validity; destruct (acceptable _); reflexivity.
    + assert (ext = []) as ->.
      { unfold truthy in Et. by apply negb_false_iff, bool_decide_eq_true in Et. }
      rewrite mimeMap_empty. cbn [andb strict_eq].
      replace (bool_decide (Some [] = Some (str "m4a"))) with false by reflexivity.
      cbn [andb]. destruct (bool_decide (file_type file = _));
        rewrite validity; destruct (acceptable _); reflexivity.
  - rewrite mimeMap_empty. cbn [strict_eq].
    replace (bool_decide (None = Some (str "m4a"))) with false by reflexivity.
    cbn [andb]. destruct (bool_decide (file_type file = _));
      rewrite validity; destruct (acceptable _); reflexivity.
Qed.

Lemma toLowerCase_app a b : toLowerCase (a ++ b) = toLowerCase a ++ toLowerCase b.
Proof. unfold toLowerCase. apply flat_map_app. Qed.

Lemma userMessage_unsupported name m :
  userMessage (Error name (unsupported_message m)) = unsupported_message m.
Proof.
  unfold userMessage, unsupported_message. rewrite toLowerCase_app.
  reflexivity.
Qed.

Lemma file_try_throw props env file e c :
  resolveMimeType file = Throw e -> file_try props env file c = (c, Throw e).
Proof.
  intros H. unfold file_try. unfold mbind at 1, Act_bind at 1, lift. by rewrite H.
Qed.

Lemma transcribeFile_throw props env file e c :
  appState (state c) = IDLE ->
  resolveMimeType file = Throw e ->
  transcribeFile props env file c
  = dispatch (SetAppState (Value IDLE))
      (dispatch (SetError (Value (Some (userMessage e))))
         (dispatch (SetAppState (Value TRANSCRIBING_FILE))
            (dispatch (SetAudioBlob (Value None))
               (dispatch (SetLiveTranscript (Value []))
                  (dispatch (SetTranscript (Value []))
                     (dispatch (SetError (Value None)) c)))))).
Proof.
  intros Hidle H. unfold transcribeFile.
  rewrite bool_decide_eq_false_2 by (rewrite Hidle; tauto).
  by rewrite (file_try_throw _ _ _ e).
Qed.

(** A rejected file shows the message that names the type. *)
Lemma transcribeFile_rejects props env file c :
  appState (state c) = IDLE ->
  extensionOf file ∉ Object_prototype ->
  acceptable (resolvedType file) = false ->
  let c' := render (transcribeFile props env file c) in
  error (state c') = Some (unsupported_message (resolvedType file))
  /\ appState (state c') = IDLE
  /\ trace c' = trace c.
Proof.
  intros Hidle Hproto Hacc. cbv zeta.
  rewrite (transcribeFile_throw props env file
             (Error "Error" (unsupported_message (resolvedType file)))) by
    (try done; by rewrite resolveMimeType_spec, Hacc).
  rewrite userMessage_unsupported.
  rewrite state_render, trace_render, !refs_dispatch, !trace_dispatch.
  split; [|split; [|done]].
  - rewrite (pending_dispatch error id) by done.
    by rewrite (pending_dispatch error (fun _ => Some (unsupported_message (resolvedType file)))).
  - by rewrite (pending_dispatch appState (fun _ => IDLE)).
Qed.

Example resolve_voice_m4a :
  resolveMimeType {| file_name := str "voice.m4a"; file_type := str "audio/x-m4a" |}
  = Ok (str "audio/mp4").
Proof. vm_compute. reflexivity. Qed.

Example resolve_clip_xyz :
  resolveMimeType {| file_name := str "clip.xyz"; file_type := [] |}
  = Throw (Error "Error"
             (str "Unsupported file type: unknown. Please upload a supported audio file (e.g., MP3, WAV, M4A).")).
Proof. vm_compute. reflexivity. Qed.

(** C8, at a failing input.  The extension of "take.constructor" is not a
    key of the table, so the specification resolves the reported type
    audio/mpeg, which is acceptable.  The property read finds the inherited
    [constructor], the validation throws a TypeError, and the user gets
    the catch-all message; no request is made. *)
Theorem inherited_extension_not_resolved :
  let file := {| file_name := str "take.constructor"; file_type := str "audio/mpeg" |} in
  let c' := render (transcribeFile exampleProps exampleFileEnv file idleComponent) in
  extensionOf file = str "constructor"
  /\ mimeMap !! extensionOf file = None
  /\ resolvedType file = str "audio/mpeg"
  /\ acceptable (resolvedType file) = true
  /\ resolveMimeType file = Throw not_a_function
  /\ error (state c') = Some unexpected_error
  /\ trace c' = [].
Proof. vm_compute. repeat split; reflexivity. Qed.

(** *** The accumulated frames *)

Lemma typedArraySet_fill {A} (pre source : list A) (z : A) k :
  (length source <= k)%nat ->
  typedArraySet (pre ++ replicate k z) source (length pre)
  = Ok ((pre ++ source) ++ replicate (k - length source) z).
Proof.
  intros Hk. unfold typedArraySet. rewrite length_app, length_replicate.
  replace (length pre + length source <=? length pre + k)%nat with true
    by (symmetry; apply Nat.leb_le; lia).
  rewrite take_app_length, drop_app_ge by lia.
  replace (length pre + length source - length pre)%nat with (length source) by lia.
  by rewrite drop_replicate, <- app_assoc.
Qed.

Lemma copyChunks_fill chunks : forall pre k,
  (length (concat chunks) <= k)%nat ->
  copyChunks (pre ++ replicate k (Num 0)) (length pre) chunks
  = Ok ((pre ++ concat chunks) ++ replicate (k - length (concat chunks)) (Num 0)).
Proof.
  induction chunks as [|chunk chunks IH]; intros pre k Hk.
  - cbn. by rewrite app_nil_r, Nat.sub_0_r.
  - cbn [copyChunks concat] in *. rewrite length_app in Hk.
    rewrite typedArraySet_fill, NumberFacts.bind_Ok by lia.
    rewrite <- length_app, IH by lia.
    rewrite <- !app_assoc, length_app. repeat first [lia | f_equal].
Qed.

Lemma totalLength_concat (chunks : list (list number)) n :
  foldl (fun acc val => (acc + length val)%nat) n chunks
  = (n + length (concat chunks))%nat.
Proof.
  revert n. induction chunks as [|chunk chunks IH]; intros n; cbn [foldl concat].
  - cbn. lia.
  - rewrite IH, length_app. lia.
Qed.

(** The frames come out in the order they were pushed. *)
Lemma concatenate_concat chunks : concatenate chunks = Ok (concat chunks).
Proof.
  unfold concatenate. rewrite totalLength_concat. cbn [Nat.add].
  change (replicate (length (concat chunks)) (Num 0))
    with ([] ++ replicate (length (concat chunks)) (Num 0)).
  change 0%nat with (length (@nil number)).
  rewrite copyChunks_fill by lia.
  by rewrite Nat.sub_diag, app_nil_r.
Qed.

(** [onerror] does not stop the recording: the [stopRecording] it calls
    saw IDLE and returns at its guard. *)
Lemma onerror_leaves_recording props env c :
  onerror props env c = dispatch (SetError (Value (Some api_error))) c.
Proof. reflexivity. Qed.

End HookFacts.

Module Base64Facts.

Import Audio Base64 NumberFacts CodecFacts.

Local Ltac div_lia := cbv beta; Z.div_mod_to_equations; lia.

(** Induction three bytes at a time. *)
Lemma triples_ind (P : list Z -> Prop) :
  P [] -> (forall a, P [a]) -> (forall a b, P [a; b]) ->
  (forall a b c l, P l -> P (a :: b :: c :: l)) ->
  forall l, P l.
Proof.
  intros H0 H1 H2 H3 l.
  assert (H : P l /\ (forall a, P (a :: l)) /\ (forall a b, P (a :: b :: l))).
  { induction l as [|x l (IH0 & IH1 & IH2)]; [by repeat split|].
    split; [apply IH1|]. split; [intros; apply IH2|]. intros a b. by apply H3. }
  apply H.
Qed.

Lemma base64_encode_sextets bs :
  base64_encode bs = map base64_char (sextets bs) ++ padding bs.
Proof.
  induction bs as [|a|a b|a b c l IH] using triples_ind; try reflexivity.
  cbn [base64_encode sextets padding map app]. by rewrite IH.
Qed.

Lemma sextets_range bs :
  Forall (fun b => 0 <= b < 256) bs -> Forall (fun v => 0 <= v < 64) (sextets bs).
Proof.
  induction bs as [|a|a b|a b c l IH] using triples_ind; intros H.
  - constructor.
  - apply Forall_cons in H as [Ha _]. cbn [sextets]. repeat (apply Forall_cons_2; [div_lia|]). apply Forall_nil_2.
  - apply Forall_cons in H as [Ha H]. apply Forall_cons in H as [Hb _].
    cbn [sextets]. repeat (apply Forall_cons_2; [div_lia|]). apply Forall_nil_2.
  - apply Forall_cons in H as [Ha H]. apply Forall_cons in H as [Hb H].
    apply Forall_cons in H as [Hc H]. cbn [sextets].
    repeat (apply Forall_cons_2; [div_lia|]). by apply IH.
Qed.

Lemma base64_decode_sextets bs :
  Forall (fun b => 0 <= b < 256) bs -> base64_decode (sextets bs) = bs.
Proof.
  induction bs as [|a|a b|a b c l IH] using triples_ind; intros H.
  - reflexivity.
  - apply Forall_cons in H as [Ha _]. cbn [sextets base64_decode]. f_equal. div_lia.
  - apply Forall_cons in H as [Ha H]. apply Forall_cons in H as [Hb _].
    cbn [sextets base64_decode]. repeat (f_equal; try div_lia).
  - apply Forall_cons in H as [Ha H]. apply Forall_cons in H as [Hb H].
    apply Forall_cons in H as [Hc H]. cbn [sextets base64_decode].
    rewrite IH by done. repeat (f_equal; try div_lia).
Qed.

(** Facts about the 64 characters, checked one by one. *)
Lemma alphabet_checked :
  forallb (fun n =>
             let v := Z.of_nat n in
             bool_decide (base64_value (base64_char v) = Some v)
             && negb (isAsciiWhitespace (base64_char v))
             && negb (base64_char v =? base64_pad))
    (seq 0 64) = true.
Proof. by vm_compute. Qed.

Lemma alphabet_char v :
  0 <= v < 64 ->
  base64_value (base64_char v) = Some v
  /\ isAsciiWhitespace (base64_char v) = false
  /\ (base64_char v =? base64_pad) = false.
Proof.
  intros Hv. pose proof alphabet_checked as H.
  rewrite forallb_forall in H. specialize (H (Z.to_nat v)).
  cbv zeta in H. rewrite Z2Nat.id in H by lia.
  assert (Hi : In (Z.to_nat v) (seq 0 64)) by (apply in_seq; lia).
  specialize (H Hi). apply andb_true_iff in H as [H H3].
  apply andb_true_iff in H as [H1 H2].
  apply bool_decide_eq_true_1 in H1. apply negb_true_iff in H2, H3. done.
Qed.

Lemma mapM_values vs :
  Forall (fun v => 0 <= v < 64) vs ->
  mapM base64_value (map base64_char vs) = Some vs.
Proof.
  induction 1 as [|v vs Hv _ IH]; [reflexivity|].
  cbn [map mapM]. destruct (alphabet_char v Hv) as (-> & _).
  cbn [mbind option_bind]. rewrite IH. reflexivity.
Qed.

Lemma filter_chars vs :
  Forall (fun v => 0 <= v < 64) vs ->
  List.filter (fun c => negb (isAsciiWhitespace c)) (map base64_char vs)
  = map base64_char vs.
Proof.
  induction 1 as [|v vs Hv _ IH]; [reflexivity|].
  cbn [map List.filter]. destruct (alphabet_char v Hv) as (_ & -> & _).
  cbn [negb]. by rewrite IH.
Qed.

Lemma filter_padding bs :
  List.filter (fun c => negb (isAsciiWhitespace c)) (padding bs) = padding bs.
Proof. induction bs as [|a|a b|a b c l IH] using triples_ind; done. Qed.

Lemma length_sextets_padding bs :
  ((length (sextets bs) + length (padding bs)) mod 4 = 0)%nat
  /\ (length (sextets bs) mod 4 <> 1)%nat.
Proof.
  induction bs as [|a|a b|a b c l [IH1 IH2]] using triples_ind; try done.
  cbn [sextets padding length].
  replace (S (S (S (S (length (sextets l))))) + length (padding l))%nat
    with (length (sextets l) + length (padding l) + 1 * 4)%nat by lia.
  replace (S (S (S (S (length (sextets l))))))
    with (length (sextets l) + 1 * 4)%nat by lia.
  by rewrite !Nat.Div0.mod_add.
Qed.

(** Stripping the padding leaves the characters of the sextets. *)
Lemma strip_padding_encode bs :
  Forall (fun b => 0 <= b < 256) bs ->
  strip_padding (map base64_char (sextets bs) ++ padding bs)
  = map base64_char (sextets bs).
Proof.
  intros H. 
  assert (Hlast : forall xs, Forall (fun v => 0 <= v < 64) xs ->
            match reverse (map base64_char xs) with
            | c :: _ => (c =? base64_pad) = false
            | [] => True
            end).
  { intros xs Hxs. induction Hxs as [|v xs Hv _ IH]; [done|].
    cbn [map]. rewrite reverse_cons.
    destruct (reverse (map base64_char xs)) as [|c r]; [|exact IH].
    cbn [app]. by destruct (alphabet_char v Hv) as (_ & _ & ->). }
  specialize (Hlast _ (sextets_range bs H)).
  set (xs := map base64_char (sextets bs)) in *.
  assert (Hp : padding bs = [] \/ padding bs = [base64_pad]
               \/ padding bs = [base64_pad; base64_pad]).
  { clear. induction bs as [|a|a b|a b c l IH] using triples_ind; auto. }
  unfold strip_padding. destruct Hp as [-> | [-> | ->]].
  - rewrite app_nil_r. destruct (reverse xs) as [|c1 [|c2 r]]; [done| |];
      by rewrite Hlast.
  - rewrite reverse_app. cbn [reverse app]. change (reverse [base64_pad]) with [base64_pad].
    cbn [app]. destruct (reverse xs) as [|c r] eqn:E.
    + apply (f_equal reverse) in E. rewrite reverse_involutive in E. by rewrite E.
    + rewrite Z.eqb_refl, Hlast. rewrite <- E. by rewrite reverse_involutive.
  - rewrite reverse_app. change (reverse [base64_pad; base64_pad]) with [base64_pad; base64_pad].
    cbn [app]. rewrite !Z.eqb_refl. by rewrite reverse_involutive.
Qed.

Lemma atob_encode bs :
  Forall (fun b => 0 <= b < 256) bs -> atob (base64_encode bs) = Ok bs.
Proof.
  intros H. unfold atob. rewrite base64_encode_sextets.
  rewrite List.filter_app, filter_chars, filter_padding by (by apply sextets_range).
  destruct (length_sextets_padding bs) as [H4 H1].
  rewrite length_app, length_map, H4. cbn [Nat.eqb].
  rewrite strip_padding_encode by done. rewrite length_map.
  replace (length (sextets bs) mod 4 =? 1)%nat with false
    by (symmetry; by apply Nat.eqb_neq).
  rewrite mapM_values by (by apply sextets_range).
  by rewrite base64_decode_sextets.
Qed.

Lemma decode_base64_encode bytes :
  Forall (fun b => 0 <= b < 256) bytes -> decode (base64_encode bytes) = Ok bytes.
Proof.
  intros H. unfold decode. rewrite atob_encode, bind_Ok by done.
  rewrite (for_range_store_all (fun o => default 0 o mod 2 ^ 8) bytes 0).
  f_equal. induction H as [|b l Hb _ IH]; [reflexivity|].
  cbn [map]. f_equal; [|exact IH]. cbn. apply Z.mod_small. lia.
Qed.

(** X1.  Base64 round trip.  [encode] accepts every array of bytes, and
    [decode] applied to the text it returns gives the same bytes back. *)
Theorem decode_encode (bytes : list Z) :
  Forall (fun b => 0 <= b < 256) bytes ->
  (text ← encode bytes; decode text) = Ok bytes.
Proof.
  intros H. rewrite encode_bytes, bind_Ok by done.
  by apply decode_base64_encode.
Qed.

Lemma decode_encode_witness :
  (text ← encode [255; 127; 0; 128]; decode text) = Ok [255; 127; 0; 128].
Proof. apply decode_encode. repeat (constructor; [lia|]). constructor. Defined.

End Base64Facts.

(** ** The streamed frame *)

Module FrameFacts.

Import Audio Layout Base64 NumberFacts WavFacts CodecFacts Base64Facts.

(** C9.  For every frame, [createBlob] returns, without throwing, a blob
    with the fixed tag "audio/pcm;rate=16000" whose data is the base64 text
    of two bytes per sample: [decode] reads the text back as exactly those
    bytes.  The two bytes of a sample are the little-endian 16-bit word [v]
    of that sample: the sample is clamped to [-1, 1] (a NaN stays NaN and
    gives 0), a negative one is scaled by 32768, the others by 32767, and
    the integer part is kept. *)
Theorem createBlob_encodes_frame (data : list number) :
  exists blob bytes,
    createBlob data = Ok blob
    /\ mimeType blob = str "audio/pcm;rate=16000"
    /\ Audio.data blob = base64_encode bytes
    /\ decode (Audio.data blob) = Ok bytes
    /\ length bytes = (2 * length data)%nat
    /\ Forall (fun b => 0 <= b < 256) bytes
    /\ forall i x, data !! i = Some x ->
         exists v,
           take 2 (drop (2 * i) bytes) = le_bytes 2 (v mod 2 ^ 16)
           /\ -32768 <= v <= 32767
           /\ match x with
              | Num q => exists s, clamp x = Num s
                           /\ ((q < -1)%Q -> s = (-1)%Q)
                           /\ ((1 < q)%Q -> s = 1%Q)
                           /\ ((-1 <= q <= 1)%Q -> (s == q)%Q)
              | PosInf => clamp x = Num 1
              | NegInf => clamp x = Num (-1)
              | NaN => clamp x = NaN
              end
           /\ match clamp x with
              | Num s => (-1 <= s <= 1)%Q
                         /\ ((s < 0)%Q -> v = trunc (s * 32768))
                         /\ ((0 <= s)%Q -> v = trunc (s * 32767))
              | _ => v = 0
              end.
Proof.
  eexists _, (pcm16 data). split; [apply createBlob_bytes|].
  cbn [Audio.data mimeType].
  split; [reflexivity|]. split; [reflexivity|].
  split; [apply decode_base64_encode, pcm16_bytes|].
  split; [apply length_pcm16|]. split; [apply pcm16_bytes|].
  intros i x Hx. exists (sample16 x).
  split; [by apply pcm16_word|]. split; [apply sample16_range|]. split.
  - pose proof (clamp_cases x) as Hc. destruct x; try exact Hc.
    destruct Hc as (s & E & _ & H1 & H2 & H3). eauto.
  - unfold sample16. destruct (clamp x) as [s| | |] eqn:E.
    + pose proof (clamp_range x s E) as Hs.
      destruct (sample16_bounds s Hs) as [Hneg Hpos].
      split; [exact Hs|]. split; intros H0; [by destruct (Hneg H0)|by destruct (Hpos H0)].
    + pose proof (clamp_cases x) as Hc. destruct x; try congruence.
      destruct Hc as (? & ? & _). congruence.
    + pose proof (clamp_cases x) as Hc. destruct x; try congruence.
      destruct Hc as (? & ? & _). congruence.
    + reflexivity.
Qed.

Lemma createBlob_encodes_frame_witness :
  exists blob bytes v,
    createBlob [Num (-1 # 2); Num 3] = Ok blob
    /\ mimeType blob = str "audio/pcm;rate=16000"
    /\ Audio.data blob = str "AMD/fw=="
    /\ decode (Audio.data blob) = Ok bytes
    /\ bytes = [0; 192; 255; 127]
    /\ take 2 (drop (2 * 0) bytes) = le_bytes 2 (v mod 2 ^ 16)
    /\ v = -16384.
Proof.
  destruct (createBlob_encodes_frame [Num (-1 # 2); Num 3])
    as (blob & bytes & E & M & _ & D & _ & _ & H).
  destruct (H 0%nat (Num (-1 # 2)) eq_refl) as (v & Hv & _ & _ & Hs).
  exists blob, bytes, v. split; [exact E|]. split; [exact M|].
  assert (T : createBlob [Num (-1 # 2); Num 3]
              = Ok {| Audio.data := str "AMD/fw==";
                      mimeType := str "audio/pcm;rate=16000" |})
    by (vm_compute; reflexivity).
  rewrite T in E. injection E as <-. cbn [Audio.data] in *.
  split; [reflexivity|]. split; [exact D|].
  split; [vm_compute in D; by injection D as <-|].
  split; [exact Hv|].
  change (clamp (Num (-1 # 2))) with (Num (-1 # 2)) in Hs.
  destruct Hs as (_ & Hneg & _). rewrite Hneg by reflexivity. reflexivity.
Defined.

End FrameFacts.

Module BufferFacts.

Import Audio Layout Words NumberFacts WavFacts CodecFacts.

Lemma writeBytes_ok view o bs :
  0 <= o -> o + Z.of_nat (length bs) <= Z.of_nat (length view) ->
  writeBytes view o bs
  = Ok (take (Z.to_nat o) view ++ bs ++ drop (Z.to_nat o + length bs) view).
Proof.
  intros H1 H2. unfold writeBytes.
  replace ((0 <=? o) && (o + Z.of_nat (length bs) <=? Z.of_nat (length view)))
    with true; [done|].
  symmetry. apply andb_true_iff. split; apply Z.leb_le; lia.
Qed.

Lemma writeBytes_throw view o bs :
  o < 0 \/ Z.of_nat (length view) < o + Z.of_nat (length bs) ->
  writeBytes view o bs = Throw RangeError.
Proof.
  intros H. unfold writeBytes.
  replace ((0 <=? o) && (o + Z.of_nat (length bs) <=? Z.of_nat (length view)))
    with false; [done|].
  symmetry. apply andb_false_iff. destruct H; [left|right]; apply Z.leb_gt; lia.
Qed.

(** A splice keeps the length, and a second splice right after it extends
    the first. *)
Lemma splice_length {A} (view bs : list A) n :
  (n + length bs <= length view)%nat ->
  length (take n view ++ bs ++ drop (n + length bs) view) = length view.
Proof.
  intros H. rewrite !length_app, length_take, length_drop. lia.
Qed.

Lemma splice_splice {A} (view bs bs' : list A) n :
  (n + length bs + length bs' <= length view)%nat ->
  let view' := take n view ++ bs ++ drop (n + length bs) view in
  take (n + length bs) view' ++ bs' ++ drop (n + length bs + length bs') view'
  = take n view ++ (bs ++ bs') ++ drop (n + length (bs ++ bs')) view.
Proof.
  intros H view'. subst view'.
  assert (Hn : length (take n view) = n) by (rewrite length_take; lia).
  rewrite (app_assoc (take n view) bs).
  rewrite take_app_length' by (rewrite length_app; lia).
  rewrite drop_app_ge by (rewrite length_app; lia).
  rewrite length_app, Hn.
  replace (n + length bs + length bs' - (n + length bs))%nat with (length bs') by lia.
  rewrite drop_drop, length_app, <- !app_assoc.
  repeat first [lia | f_equal].
Qed.

Lemma writeString_in_bounds s : forall view offset,
  0 <= offset -> offset + Z.of_nat (length s) <= Z.of_nat (length view) ->
  writeString view offset s
  = Ok (take (Z.to_nat offset) view ++ map (fun c => c mod 256) s
        ++ drop (Z.to_nat offset + length s) view).
Proof.
  induction s as [|c s IH]; intros view offset H1 H2.
  - cbn [writeString map length app]. by rewrite Nat.add_0_r, take_drop.
  - cbn [writeString length] in *. unfold setUint8.
    rewrite writeBytes_ok by (rewrite ?length_le_bytes; lia).
    rewrite bind_Ok, length_le_bytes.
    rewrite IH by (rewrite ?splice_length; rewrite ?length_le_bytes; lia).
    replace (Z.to_nat (offset + 1)) with (Z.to_nat offset + 1)%nat by lia.
    pose proof (splice_splice view (le_bytes 1 (c mod 2 ^ 8))
                  (map (fun c => c mod 256) s) (Z.to_nat offset)) as E.
    rewrite length_le_bytes, length_map in E. cbv zeta in E. rewrite E by lia.
    cbn [le_bytes app map length]. change (2 ^ 8) with 256.
    rewrite Z.mod_mod by lia. by rewrite length_map.
Qed.

Lemma writeString_out_of_bounds s : forall view offset,
  s <> [] ->
  offset < 0 \/ Z.of_nat (length view) < offset + Z.of_nat (length s) ->
  writeString view offset s = Throw RangeError.
Proof.
  induction s as [|c s IH]; intros view offset Hne H; [done|].
  cbn [writeString length] in *. unfold setUint8.
  destruct (Z.lt_ge_cases offset 0) as [Hneg|Hpos];
    [by rewrite writeBytes_throw by auto|].
  destruct (Z.lt_ge_cases (Z.of_nat (length view)) (offset + 1)) as [Hbig|Hfit].
  { rewrite writeBytes_throw; [done|]. right. rewrite length_le_bytes. lia. }
  rewrite writeBytes_ok by (rewrite ?length_le_bytes; lia).
  rewrite bind_Ok. apply IH.
  - destruct s; [cbn [length] in H; lia|done].
  - right. rewrite splice_length by (rewrite ?length_le_bytes; lia). lia.
Qed.

(** X2.  [writeString] and the bounds of the view.  When the string
    fits at the offset, the view comes back with exactly those bytes
    replaced by the code units of the string, each modulo 256, and nothing
    else changed; when a non-empty string does not fit (negative offset, or
    it would run past the end) the call throws a RangeError. *)
Theorem writeString_bounds (view : list Z) (offset : Z) (s : list Z) :
  (0 <= offset /\ offset + Z.of_nat (length s) <= Z.of_nat (length view) ->
   writeString view offset s
   = Ok (take (Z.to_nat offset) view ++ map (fun c => c mod 256) s
         ++ drop (Z.to_nat offset + length s) view))
  /\ (s <> [] ->
      offset < 0 \/ Z.of_nat (length view) < offset + Z.of_nat (length s) ->
      writeString view offset s = Throw RangeError).
Proof.
  split; [intros [H1 H2]; by apply writeString_in_bounds|].
  apply writeString_out_of_bounds.
Qed.

Lemma writeString_bounds_witness :
  writeString [1; 2; 3; 4; 5] 1 (str "ab") = Ok [1; 97; 98; 4; 5]
  /\ writeString [1; 2; 3; 4; 5] 4 (str "ab") = Throw RangeError.
Proof.
  destruct (writeString_bounds [1; 2; 3; 4; 5] 1 (str "ab")) as [H _].
  destruct (writeString_bounds [1; 2; 3; 4; 5] 4 (str "ab")) as [_ H'].
  split; [apply H; vm_compute; split; discriminate|].
  apply H'; [discriminate|right; vm_compute; reflexivity].
Defined.

Lemma floatTo16BitPCM_in_bounds input : forall output offset,
  0 <= offset ->
  offset + 2 * Z.of_nat (length input) <= Z.of_nat (length output) ->
  floatTo16BitPCM output offset input
  = Ok (take (Z.to_nat offset) output ++ pcm16 input
        ++ drop (Z.to_nat offset + 2 * length input) output).
Proof.
  induction input as [|x l IH]; intros output offset H1 H2.
  - cbn [floatTo16BitPCM pcm16 flat_map length app].
    by rewrite Nat.mul_0_r, Nat.add_0_r, take_drop.
  - cbn [floatTo16BitPCM length] in *. unfold setInt16.
    rewrite writeBytes_ok by (rewrite ?length_le_bytes; lia).
    rewrite bind_Ok, length_le_bytes.
    rewrite IH by (rewrite ?splice_length; rewrite ?length_le_bytes; lia).
    replace (Z.to_nat (offset + 2)) with (Z.to_nat offset + 2)%nat by lia.
    pose proof (splice_splice output (le_bytes 2 (ToInt16 (scale (clamp x)) mod 2 ^ 16))
                  (pcm16 l) (Z.to_nat offset)) as E.
    rewrite length_le_bytes, length_pcm16 in E. cbv zeta in E. rewrite E by lia.
    rewrite length_app, length_le_bytes, length_pcm16.
    change (pcm16 (x :: l))
      with (le_bytes 2 (ToInt16 (scale (clamp x)) mod 2 ^ 16) ++ pcm16 l).
    repeat first [lia | f_equal].
Qed.

Lemma floatTo16BitPCM_out_of_bounds input : forall output offset,
  input <> [] ->
  offset < 0 \/ Z.of_nat (length output) < offset + 2 * Z.of_nat (length input) ->
  floatTo16BitPCM output offset input = Throw RangeError.
Proof.
  induction input as [|x l IH]; intros output offset Hne H; [done|].
  cbn [floatTo16BitPCM length] in *. unfold setInt16.
  destruct (Z.lt_ge_cases offset 0) as [Hneg|Hpos];
    [by rewrite writeBytes_throw by auto|].
  destruct (Z.lt_ge_cases (Z.of_nat (length output)) (offset + 2)) as [Hbig|Hfit].
  { rewrite writeBytes_throw; [done|]. right. rewrite length_le_bytes. lia. }
  rewrite writeBytes_ok by (rewrite ?length_le_bytes; lia).
  rewrite bind_Ok. apply IH.
  - destruct l; [cbn [length] in H; lia|done].
  - right. rewrite splice_length by (rewrite ?length_le_bytes; lia). lia.
Qed.

(** X3.  [floatTo16BitPCM] and the bounds of the view.  When the
    samples fit at the offset, two bytes each, the view comes back with
    exactly those bytes replaced by the little-endian words of the samples;
    when a non-empty input does not fit the call throws a RangeError. *)
Theorem floatTo16BitPCM_bounds (output : list Z) (offset : Z) (input : list number) :
  (0 <= offset
   /\ offset + 2 * Z.of_nat (length input) <= Z.of_nat (length output) ->
   floatTo16BitPCM output offset input
   = Ok (take (Z.to_nat offset) output ++ pcm16 input
         ++ drop (Z.to_nat offset + 2 * length input) output))
  /\ (input <> [] ->
      offset < 0 \/ Z.of_nat (length output) < offset + 2 * Z.of_nat (length input) ->
      floatTo16BitPCM output offset input = Throw RangeError).
Proof.
  split; [intros [H1 H2]; by apply floatTo16BitPCM_in_bounds|].
  apply floatTo16BitPCM_out_of_bounds.
Qed.

Lemma floatTo16BitPCM_bounds_witness :
  floatTo16BitPCM [9; 9; 9; 9; 9] 1 [Num 1; Num (-1)] = Ok [9; 255; 127; 0; 128]
  /\ floatTo16BitPCM [9; 9; 9; 9; 9] 2 [Num 1; Num (-1)] = Throw RangeError.
Proof.
  destruct (floatTo16BitPCM_bounds [9; 9; 9; 9; 9] 1 [Num 1; Num (-1)]) as [H _].
  destruct (floatTo16BitPCM_bounds [9; 9; 9; 9; 9] 2 [Num 1; Num (-1)]) as [_ H'].
  split; [apply H; vm_compute; split; discriminate|].
  apply H'; [discriminate|right; vm_compute; reflexivity].
Defined.

End BufferFacts.

Module QuantFacts.

Import Audio Layout Words NumberFacts WavFacts CodecFacts.

Lemma inject_Z_lt_succ a b : (inject_Z a < inject_Z b + 1)%Q -> a <= b.
Proof.
  intros H. assert (H' : (inject_Z a < inject_Z (b + 1))%Q).
  { rewrite inject_Z_plus. exact H. }
  rewrite <- Zlt_Qlt in H'. lia.
Qed.

Lemma trunc_monotone a b : (a <= b)%Q -> trunc a <= trunc b.
Proof.
  intros H.
  destruct (Qlt_le_dec a 0) as [Ha|Ha]; destruct (Qlt_le_dec b 0) as [Hb|Hb].
  - assert (a <= 0)%Q as Ha' by lra. pose proof (trunc_nonpos a Ha') as [? ?].
    assert (b <= 0)%Q as Hb' by lra. pose proof (trunc_nonpos b Hb') as [? ?].
    apply inject_Z_lt_succ. lra.
  - assert (a <= 0)%Q as Ha' by lra. pose proof (trunc_nonpos a Ha') as [? ?].
    pose proof (trunc_nonneg b Hb) as [? ?].
    transitivity 0; apply inject_Z_lt_succ; change (inject_Z 0) with 0%Q; lra.
  - lra.
  - pose proof (trunc_nonneg a Ha) as [? ?]. pose proof (trunc_nonneg b Hb) as [? ?].
    apply inject_Z_lt_succ. lra.
Qed.

Lemma trunc_integer s n : (s == inject_Z n)%Q -> trunc s = n.
Proof.
  intros H. apply Z.le_antisymm; apply inject_Z_lt_succ.
  - destruct (Qlt_le_dec s 0) as [Hs|Hs].
    + assert (s <= 0)%Q as Hs' by lra. pose proof (trunc_nonpos s Hs') as [? ?]. lra.
    + pose proof (trunc_nonneg s Hs) as [? ?]. lra.
  - destruct (Qlt_le_dec s 0) as [Hs|Hs].
    + assert (s <= 0)%Q as Hs' by lra. pose proof (trunc_nonpos s Hs') as [? ?]. lra.
    + pose proof (trunc_nonneg s Hs) as [? ?]. lra.
Qed.

(** The word of a finite sample through its clamped value. *)
Lemma sample16_Num q :
  exists s, (-1 <= s <= 1)%Q
    /\ ((q <= -1)%Q -> (s == -1)%Q) /\ ((1 <= q)%Q -> (s == 1)%Q)
    /\ ((-1 <= q <= 1)%Q -> (s == q)%Q)
    /\ ((s < 0)%Q -> sample16 (Num q) = trunc (s * 32768))
    /\ ((0 <= s)%Q -> sample16 (Num q) = trunc (s * 32767)).
Proof.
  destruct (clamp_Num q) as (s & Hc & Hr & Hlo & Hhi & Hmid).
  exists s. unfold sample16. rewrite Hc.
  destruct (sample16_bounds s Hr) as [Hneg Hpos].
  split; [exact Hr|]. split; [|split; [|split; [exact Hmid|split]]].
  - intros Hq. destruct (Qlt_le_dec q (-1)) as [H|H].
    + rewrite (Hlo H). reflexivity.
    + rewrite (Hmid ltac:(lra)). lra.
  - intros Hq. destruct (Qlt_le_dec 1 q) as [H|H].
    + rewrite (Hhi H). reflexivity.
    + rewrite (Hmid ltac:(lra)). lra.
  - intros H. apply Hneg, H.
  - intros H. apply Hpos, H.
Qed.

(** X4.  The sixteen-bit word that [floatTo16BitPCM] and [createBlob]
    store for a finite sample is monotone in the sample and saturates: for
    x <= y the word of x is at most the word of y, both lie in
    [-32768, 32767], a sample at or below -1 gives -32768 and one at or
    above 1 gives 32767. *)
Theorem sample16_monotone (x y : Q) :
  (x <= y)%Q ->
  -32768 <= sample16 (Num x) <= sample16 (Num y) /\ sample16 (Num y) <= 32767
  /\ ((x <= -1)%Q -> sample16 (Num x) = -32768)
  /\ ((1 <= y)%Q -> sample16 (Num y) = 32767).
Proof.
  intros Hxy.
  pose proof (sample16_range (Num x)) as Rx.
  pose proof (sample16_range (Num y)) as Ry.
  destruct (sample16_Num x) as (s & Hs & Hslo & Hshi & Hsmid & Hsneg & Hspos).
  destruct (sample16_Num y) as (t & Ht & Htlo & Hthi & Htmid & Htneg & Htpos).
  assert (Hst : (s <= t)%Q).
  { destruct (Qlt_le_dec x (-1)) as [Hx|Hx]; [rewrite (Hslo ltac:(lra)); lra|].
    destruct (Qlt_le_dec 1 y) as [Hy|Hy]; [rewrite (Hthi ltac:(lra)); lra|].
    rewrite (Hsmid ltac:(lra)), (Htmid ltac:(lra)). exact Hxy. }
  split; [split; [lia|]|split; [lia|split]].
  - destruct (Qlt_le_dec s 0) as [Hs0|Hs0]; destruct (Qlt_le_dec t 0) as [Ht0|Ht0].
    + rewrite (Hsneg Hs0), (Htneg Ht0). apply trunc_monotone. lra.
    + rewrite (Hsneg Hs0), (Htpos Ht0).
      transitivity (trunc 0); apply trunc_monotone; lra.
    + lra.
    + rewrite (Hspos Hs0), (Htpos Ht0). apply trunc_monotone. lra.
  - intros Hx. rewrite Hsneg by (rewrite (Hslo Hx); lra).
    apply trunc_integer. rewrite (Hslo Hx). reflexivity.
  - intros Hy. rewrite Htpos by (rewrite (Hthi Hy); lra).
    apply trunc_integer. rewrite (Hthi Hy). reflexivity.
Qed.

Lemma sample16_monotone_witness :
  -32768 <= sample16 (Num (-3 # 2)) <= sample16 (Num (1 # 2))
  /\ sample16 (Num (1 # 2)) <= 32767.
Proof.
  destruct (sample16_monotone (-3 # 2) (1 # 2)) as (H1 & H2 & _).
  - vm_compute. discriminate.
  - split; [exact H1|exact H2].
Defined.

End QuantFacts.

Module DecodeFacts.

Import Audio Layout Base64 Words NumberFacts WavFacts CodecFacts Base64Facts.

(** X5.  The streamed frame and the file agree.  For every frame,
    [createBlob] and [encodeWav] both succeed, the blob is labelled
    audio/pcm;rate=16000, and base64-decoding its data with [decode] gives
    exactly the bytes of the WAV file after the 44-byte header. *)
Theorem createBlob_wav_payload (data : list number) (sampleRate : Z) :
  exists blob wav,
    createBlob data = Ok blob
    /\ encodeWav data sampleRate = Ok wav
    /\ mimeType blob = str "audio/pcm;rate=16000"
    /\ decode (Audio.data blob) = Ok (drop 44 (blob_bytes wav)).
Proof.
  eexists _, _. split; [apply createBlob_bytes|].
  split; [apply encodeWav_bytes|]. split; [reflexivity|].
  cbn [Audio.data blob_bytes].
  rewrite drop_app_length' by reflexivity.
  apply decode_base64_encode, pcm16_bytes.
Qed.

Lemma pairs_ind {A} (P : list A -> Prop) :
  P [] -> (forall a, P [a]) -> (forall a b l, P l -> P (a :: b :: l)) ->
  forall l, P l.
Proof.
  intros H0 H1 H2 l. cut (P l /\ forall a, P (a :: l)); [tauto|].
  induction l as [|b l [IH1 IH2]]; [by split|].
  split; [apply IH2|]. intros a. by apply H2.
Qed.

Lemma even_SS n : Nat.Even (S (S n)) <-> Nat.Even n.
Proof. rewrite <- !Nat.even_spec. reflexivity. Qed.

Lemma odd_SS n : Nat.Odd (S (S n)) <-> Nat.Odd n.
Proof. rewrite <- !Nat.odd_spec. reflexivity. Qed.

Lemma Int16Array_of_buffer_words bs :
  Nat.Even (length bs) -> Int16Array_of_buffer bs = Ok (int16_words bs).
Proof.
  induction bs as [|a|lo hi bs IH] using pairs_ind; intros H.
  - reflexivity.
  - exfalso. apply Nat.even_spec in H. discriminate.
  - cbn [length] in H. apply (proj1 (even_SS _)) in H.
    rewrite Int16Array_of_buffer_word, (IH H), bind_Ok.
    cbn [int16_words le_value]. do 3 f_equal. lia.
Qed.

Lemma Int16Array_of_buffer_odd bs :
  Nat.Odd (length bs) -> Int16Array_of_buffer bs = Throw RangeError.
Proof.
  induction bs as [|a|lo hi bs IH] using pairs_ind; intros H.
  - exfalso. apply Nat.odd_spec in H. discriminate.
  - reflexivity.
  - cbn [length] in H. apply (proj1 (odd_SS _)) in H.
    by rewrite Int16Array_of_buffer_word, (IH H).
Qed.

Lemma length_int16_words bs :
  Nat.Even (length bs) -> (2 * length (int16_words bs) = length bs)%nat.
Proof.
  induction bs as [|a|lo hi bs IH] using pairs_ind; intros H.
  - reflexivity.
  - exfalso. apply Nat.even_spec in H. discriminate.
  - cbn [length] in H. apply (proj1 (even_SS _)) in H. cbn [int16_words length].
    specialize (IH H). lia.
Qed.

Lemma int16_words_range bs : Forall (fun w => -32768 <= w <= 32767) (int16_words bs).
Proof.
  induction bs as [|a|lo hi bs IH] using pairs_ind; try constructor; [|exact IH].
  apply wrap_signed_16_range.
Qed.

(** A loop that stores [f i] at index [i]: the stores past the end of the
    array are dropped. *)
Lemma for_range_store_index {B} (f : nat -> B) (z : B) n k :
  for_range k (fun i arr => <[i := f i]> arr) (replicate n z)
  = map f (seq 0 (k `min` n)) ++ replicate (n - k) z.
Proof.
  induction k as [|k IH].
  - cbn. by rewrite Nat.sub_0_r.
  - rewrite for_range_S, IH. destruct (decide (k < n)%nat) as [Hk|Hk].
    + replace (S k `min` n)%nat with (S k) by lia.
      replace (k `min` n)%nat with k by lia.
      rewrite seq_S, map_app. cbn [map Nat.add].
      rewrite insert_app_r_alt by (rewrite length_map, length_seq; lia).
      rewrite length_map, length_seq, Nat.sub_diag.
      replace (n - k)%nat with (S (n - S k)) by lia.
      cbn [replicate]. cbn. by rewrite <- app_assoc.
    + replace (S k `min` n)%nat with n by lia.
      replace (k `min` n)%nat with n by lia.
      replace (n - k)%nat with 0%nat by lia.
      replace (n - S k)%nat with 0%nat by lia.
      apply list_insert_ge.
      rewrite length_app, length_map, length_seq. cbn. lia.
Qed.

Lemma imap_replicate {A B} (f : nat -> A -> B) n x :
  imap f (replicate n x) = map (fun i => f i x) (seq 0 n).
Proof.
  revert f. induction n as [|n IH]; intros f; [reflexivity|].
  cbn [replicate imap seq map]. f_equal. rewrite IH, <- seq_shift, map_map.
  reflexivity.
Qed.

Lemma decodeAudioData_channels data ctx rate c :
  Nat.Even (length data) -> 1 <= c <= 32 ->
  1 <= Z.of_nat (length (int16_words data)) / c ->
  ctx_minRate ctx <= rate <= ctx_maxRate ctx ->
  decodeAudioData data ctx rate c
  = Ok {| numberOfChannels := c;
          buffer_length := Z.of_nat (length (int16_words data)) / c;
          buffer_sampleRate := rate;
          channels :=
            map (fun ch =>
                   map (fun i =>
                          from_option decoded NaN
                            (int16_words data !! (i * Z.to_nat c + ch)%nat))
                     (seq 0 (Z.to_nat (Z.of_nat (length (int16_words data)) / c))))
              (seq 0 (Z.to_nat c)) |}.
Proof.
  intros He Hc Hn Hr. unfold decodeAudioData.
  rewrite (Int16Array_of_buffer_words _ He), bind_Ok.
  set (ws := int16_words data) in *. set (L := Z.of_nat (length ws)) in *.
  unfold createBuffer.
  replace ((1 <=? c) && (c <=? 32) && (1 <=? L / c)
           && (ctx_minRate ctx <=? rate) && (rate <=? ctx_maxRate ctx)) with true.
  2:{ symmetry. rewrite !andb_true_iff, !Z.leb_le. lia. }
  rewrite bind_Ok. cbn [numberOfChannels buffer_length buffer_sampleRate channels].
  do 2 f_equal. rewrite imap_replicate. apply map_ext. intros ch.
  rewrite for_range_store_index.
  assert (Hit : L / c <= (L + c - 1) / c) by (apply Z.div_le_mono; lia).
  replace (Z.to_nat ((L + c - 1) / c) `min` Z.to_nat (L / c))%nat
    with (Z.to_nat (L / c)) by lia.
  replace (Z.to_nat (L / c) - Z.to_nat ((L + c - 1) / c))%nat with 0%nat by lia.
  rewrite app_nil_r. apply map_ext. intros i.
  by destruct (ws !! _).
Qed.

(** X6.  [decodeAudioData] de-interleaves.  For a buffer of an even
    number of bytes, between 1 and 32 channels, at least one whole frame and
    a rate the context supports, the result has that many channels, each of
    [frameCount] values (the number of words divided by the number of
    channels, rounded down, so a trailing partial frame is dropped); value i
    of channel ch is word i * numChannels + ch divided by 32768, a number in
    [-1, 1). *)
Theorem decodeAudioData_deinterleaves (data : list Z) (ctx : AudioContext)
    (sampleRate numChannels : Z) :
  let words := int16_words data in
  let frameCount := Z.of_nat (length words) / numChannels in
  Nat.Even (length data) -> 1 <= numChannels <= 32 -> 1 <= frameCount ->
  ctx_minRate ctx <= sampleRate <= ctx_maxRate ctx ->
  exists buffer,
    decodeAudioData data ctx sampleRate numChannels = Ok buffer
    /\ numberOfChannels buffer = numChannels
    /\ buffer_length buffer = frameCount
    /\ buffer_sampleRate buffer = sampleRate
    /\ length (channels buffer) = Z.to_nat numChannels
    /\ forall channel i,
         (channel < Z.to_nat numChannels)%nat -> (i < Z.to_nat frameCount)%nat ->
         exists w channelData,
           words !! (i * Z.to_nat numChannels + channel)%nat = Some w
           /\ channels buffer !! channel = Some channelData
           /\ length channelData = Z.to_nat frameCount
           /\ channelData !! i = Some (Num (inject_Z w / 32768))
           /\ (-1 <= inject_Z w / 32768 < 1)%Q.
Proof.
  intros words frameCount He Hc Hn Hr. eexists.
  split; [by apply decodeAudioData_channels|].
  cbn [numberOfChannels buffer_length buffer_sampleRate channels].
  fold words. fold frameCount.
  split; [reflexivity|]. split; [reflexivity|]. split; [reflexivity|].
  split; [by rewrite length_map, length_seq|].
  intros ch i Hch Hi.
  assert (Hidx : (i * Z.to_nat numChannels + ch < length words)%nat).
  { assert (H1 : frameCount * numChannels <= Z.of_nat (length words)).
    { subst frameCount. rewrite Z.mul_comm. apply Z.mul_div_le. lia. }
    assert (H2 : (Z.to_nat frameCount * Z.to_nat numChannels <= length words)%nat)
      by (rewrite <- Z2Nat.inj_mul by lia; lia).
    nia. }
  destruct (lookup_lt_is_Some_2 _ _ Hidx) as [w Hw].
  exists w. eexists. split; [exact Hw|].
  split.
  { rewrite list_lookup_fmap, lookup_seq_lt by exact Hch. reflexivity. }
  split; [by rewrite length_map, length_seq|].
  split.
  { rewrite list_lookup_fmap, lookup_seq_lt by exact Hi. cbn [fmap option_fmap option_map Nat.add].
    by rewrite Hw. }
  assert (Hw' : -32768 <= w <= 32767).
  { exact (Forall_lookup_1 _ _ _ _ (int16_words_range data) Hw). }
  unfold Qdiv. change (/ 32768)%Q with (1 # 32768)%Q.
  destruct Hw' as [Hlo Hhi].
  rewrite Zle_Qle in Hlo, Hhi.
  change (inject_Z (-32768)) with (-32768)%Q in Hlo.
  change (inject_Z 32767) with 32767%Q in Hhi. lra.
Qed.

Lemma decodeAudioData_deinterleaves_witness :
  exists buffer,
    decodeAudioData [0; 64; 0; 192; 255; 127; 0; 128; 7; 0] exampleContext 24000 2
    = Ok buffer
    /\ channels buffer
       = [[Num (16384 / 32768); Num (32767 / 32768)];
          [Num (-16384 / 32768); Num (-32768 / 32768)]].
Proof.
  destruct (decodeAudioData_deinterleaves
              [0; 64; 0; 192; 255; 127; 0; 128; 7; 0] exampleContext 24000 2)
    as (buffer & H & _).
  - exists 5%nat. reflexivity.
  - lia.
  - vm_compute. discriminate.
  - vm_compute. split; discriminate.
  - exists buffer. split; [exact H|].
    vm_compute in H. injection H as <-. reflexivity.
Defined.

(** X7.  What [decodeAudioData] refuses.  A buffer with an odd number
    of bytes throws a RangeError; an even one throws a NotSupportedError when
    the channel count is outside 1..32, when there are fewer words than
    channels (an empty buffer in particular), or when the context does not
    support the rate. *)
Theorem decodeAudioData_rejects (data : list Z) (ctx : AudioContext)
    (sampleRate numChannels : Z) :
  (Nat.Odd (length data) ->
   decodeAudioData data ctx sampleRate numChannels = Throw RangeError)
  /\ (Nat.Even (length data) ->
      numChannels < 1 \/ 32 < numChannels
      \/ Z.of_nat (length data) < 2 * numChannels
      \/ sampleRate < ctx_minRate ctx \/ ctx_maxRate ctx < sampleRate ->
      decodeAudioData data ctx sampleRate numChannels = Throw NotSupportedError).
Proof.
  split; intros H.
  - unfold decodeAudioData. by rewrite (Int16Array_of_buffer_odd _ H).
  - intros Hbad. unfold decodeAudioData.
    rewrite (Int16Array_of_buffer_words _ H), bind_Ok.
    pose proof (length_int16_words _ H) as HL.
    set (L := Z.of_nat (length (int16_words data))) in *.
    unfold createBuffer.
    replace ((1 <=? numChannels) && (numChannels <=? 32) && (1 <=? L / numChannels)
             && (ctx_minRate ctx <=? sampleRate) && (sampleRate <=? ctx_maxRate ctx))
      with false; [reflexivity|].
    symmetry. rewrite !andb_false_iff, !Z.leb_gt.
    destruct Hbad as [?|[?|[?|[?|?]]]]; try tauto.
    destruct (Z.lt_ge_cases numChannels 1); [tauto|].
    left; left; right. apply Z.div_lt_upper_bound; lia.
Qed.

Lemma decodeAudioData_rejects_witness :
  decodeAudioData [1; 2; 3] exampleContext 24000 1 = Throw RangeError
  /\ decodeAudioData [] exampleContext 24000 1 = Throw NotSupportedError.
Proof.
  destruct (decodeAudioData_rejects [1; 2; 3] exampleContext 24000 1) as [H _].
  destruct (decodeAudioData_rejects [] exampleContext 24000 1) as [_ H'].
  split; [apply H; exists 1%nat; reflexivity|].
  apply H'; [exists 0%nat; reflexivity|].
  right; right; left. vm_compute. reflexivity.
Defined.

End DecodeFacts.

(** ** Recording sessions *)

Module SessionFacts.

Import JSString Hook HookSpec Scenario NumberFacts WavFacts CodecFacts HookFacts.

(** *** Settled cells *)

Lemma settled_state {X} (f : State -> X) v c :
  settled f v c -> f (state (render c)) = v.
Proof. intros H. rewrite state_render. apply H. Qed.

Lemma settled_render {X} (f : State -> X) v c :
  settled f v c -> settled f v (render c).
Proof. intros H r. rewrite pending_render. apply H. Qed.

Lemma settled_with_refs {X} (f : State -> X) v g c :
  settled f v c -> settled f v (with_refs g c).
Proof. intros H r. rewrite pending_with_refs. apply H. Qed.

Lemma settled_effect {X} (f : State -> X) v e c :
  settled f v c -> settled f v (effect e c).
Proof. intros H r. rewrite pending_effect. apply H. Qed.

Lemma pending_emit props frame r c :
  pending r (emitAudioData props frame c) = pending r c.
Proof. unfold emitAudioData. by destruct (onAudioData props). Qed.

Lemma settled_emit {X} (f : State -> X) v props frame c :
  settled f v c -> settled f v (emitAudioData props frame c).
Proof. intros H r. rewrite pending_emit. apply H. Qed.

Lemma settled_stopTimer {X} (f : State -> X) v c :
  settled f v c -> settled f v (stopTimer c).
Proof. intros H. unfold stopTimer. destruct (timerRef _); [by apply settled_with_refs|done]. Qed.

(** An update of another cell leaves a settled cell as it is. *)
Lemma settled_dispatch {X} (f : State -> X) v u c :
  (forall r s, f (apply_update r u s) = f s) ->
  settled f v c -> settled f v (dispatch u c).
Proof. intros Hu H r. rewrite (pending_dispatch f id) by exact Hu. apply H. Qed.

(** A value handed to the setter of a cell settles it. *)
Lemma settled_set {X} (f : State -> X) v u c :
  (forall r s, f (apply_update r u s) = v) -> settled f v (dispatch u c).
Proof. intros Hu r. by rewrite (pending_dispatch f (fun _ => v)). Qed.

Lemma settled_now {X} (f : State -> X) c :
  queue c = [] -> settled f (f (state c)) c.
Proof. intros H r. unfold pending. by rewrite H. Qed.

(** *** The steps of the clean-up on the refs they do not own *)

Lemma stopRecordingOf_run props seen env c :
  seen ∉ [IDLE; STOPPING] ->
  stopRecordingOf props seen env c
  = let c3 := emitAudioData props []
                (stopTimer (dispatch (SetAppState (Value STOPPING)) c)) in
    stop_finally (match (stop_try env c3).2 with
                  | Throw e => stop_catch e (stop_try env c3).1
                  | Ok _ => (stop_try env c3).1
                  end).
Proof.
  intros H. unfold stopRecordingOf. rewrite bool_decide_eq_false_2 by done.
  cbv zeta. by destruct (stop_try env _) as [c4 [[]|e]].
Qed.

Lemma refs_stopTimer c : refs (stopTimer c) = set_timerRef None (refs c) \/ 
  (timerRef (refs c) = None /\ refs (stopTimer c) = refs c).
Proof. unfold stopTimer. destruct (timerRef (refs c)); [by left|by right]. Qed.

Lemma timer_stopTimer c : timerRef (refs (stopTimer c)) = None.
Proof. by destruct (refs_stopTimer c) as [->|[? ->]]. Qed.

Lemma refs_stop_finally c :
  refs (stop_finally c)
  = if truthy (liveTranscriptRef (refs c))
    then set_liveTranscriptRef [] (refs c) else refs c.
Proof.
  unfold stop_finally. rewrite !refs_dispatch.
  destruct (truthy _); [|reflexivity].
  by rewrite refs_dispatch, refs_with_refs, refs_dispatch.
Qed.

Lemma live_stop_finally c : liveTranscriptRef (refs (stop_finally c)) = [].
Proof.
  rewrite refs_stop_finally. unfold truthy.
  destruct (bool_decide_reflect (liveTranscriptRef (refs c) = [])); cbn; done.
Qed.

Local Ltac steps Q H :=
  repeat first
    [ apply (preserves_bind Q); [|intros ?]
    | apply (preserves_await Q); intros ? ?; unfold Q in *; rewrite refs_render
    | apply (preserves_may_throw Q)
    | apply (preserves_lift Q)
    | apply (preserves_ret Q)
    | apply (preserves_modify Q); intros ? ?; unfold Q in *;
      rewrite ?refs_dispatch, ?refs_effect, ?refs_with_refs
    | assumption
    | match goal with
      | Hr : _ |- _ => destruct (H _ Hr) as (?&?&?&?&?&?&?); assumption
      end ].

Lemma stop_try_release env : stop_try env = (encodeArtifact env;; release env).
Proof. reflexivity. Qed.

Local Ltac release_steps tac :=
  unfold release; repeat (apply preserves_bind; [|intros ?]);
  [ intros c Hc; unfold closeSession;
    destruct (sessionPromiseRef (refs c)); [|exact Hc]; revert c Hc; tac
  | intros c Hc; unfold releaseStream;
    destruct (mediaStreamRef (refs c)); [|exact Hc]; revert c Hc; tac
  | intros c Hc; unfold releaseProcessor;
    destruct (scriptProcessorRef (refs c)); [|exact Hc]; revert c Hc; tac
  | intros c Hc; unfold releaseSource;
    destruct (mediaStreamSourceRef (refs c)); [|exact Hc]; revert c Hc; tac
  | intros c Hc; unfold closeContext;
    destruct (audioContextRef (refs c)) as [ctx|]; [|exact Hc];
    destruct (Audio.ctx_closed ctx); [exact Hc|]; revert c Hc; tac
  | intros c Hc; unfold closeOutputContext;
    destruct (outputAudioContextRef (refs c)) as [ctx|]; [|exact Hc];
    destruct (Audio.ctx_closed ctx); [exact Hc|]; revert c Hc; tac ].

Lemma stable_release P env :
  stable P -> preserves (fun c => P (refs c)) (release env).
Proof.
  intros H. set (Q := fun c => P (refs c)). release_steps ltac:(steps Q H).
Qed.

Lemma stable_stop_try P env :
  stable P -> preserves (fun c => P (refs c)) (stop_try env).
Proof.
  intros H. rewrite stop_try_release.
  apply preserves_bind; [|intros ?; by apply stable_release].
  set (Q := fun c => P (refs c)).
  intros c Hc. unfold encodeArtifact.
  destruct (0 <? _)%nat; [|exact Hc].
  generalize (recordedChunksRef (refs c)) (effectiveSampleRate (refs c)).
  intros chunks rate. revert c Hc. steps Q H.
Qed.

(** The release steps set no state. *)
Lemma settled_release {X} (f : State -> X) v env :
  preserves (settled f v) (release env).
Proof.
  release_steps
    ltac:(repeat first
            [ apply preserves_bind; [|intros ?]
            | apply preserves_await; intros ? ?; by apply settled_render
            | apply preserves_may_throw
            | apply preserves_ret
            | apply preserves_modify; intros ? ?;
              first [by apply settled_effect | by apply settled_with_refs] ]).
Qed.

Lemma stop_timer_cleared props env c seen :
  seen ∉ [IDLE; STOPPING] ->
  timerRef (refs (stopRecordingOf props seen env c)) = None.
Proof.
  intros Hs. rewrite stopRecordingOf_run by done. cbv zeta.
  set (c3 := emitAudioData props [] _).
  assert (H3 : timerRef (refs c3) = None).
  { subst c3. by rewrite refs_emit, timer_stopTimer. }
  assert (St : stable (fun r => timerRef r = None)) by (by intros r Hr).
  pose proof (stable_stop_try _ env St c3 H3) as H4. cbv beta in H4.
  rewrite refs_stop_finally.
  assert (H5 : timerRef (refs (match (stop_try env c3).2 with
                               | Throw e => stop_catch e (stop_try env c3).1
                               | Ok _ => (stop_try env c3).1
                               end)) = None).
  { destruct ((stop_try env c3).2); [exact H4|].
    unfold stop_catch. by rewrite refs_dispatch. }
  destruct (truthy _); exact H5.
Qed.

Lemma stop_idle_noop props env c :
  appState (state c) = IDLE -> stopRecording props env c = c.
Proof.
  intros H. unfold stopRecording, stopRecordingOf. rewrite H.
  by rewrite bool_decide_eq_true_2 by set_solver.
Qed.

(** X9.  A stop always settles.  Called in any state but IDLE and
    STOPPING, and whatever the clean-up calls do, [stopRecording] leaves, at
    the next render, the state IDLE and the time 0, the timer stopped and the
    live buffer empty; a second [stopRecording] then changes nothing. *)
Theorem stop_always_settles (props : Props) (env : StopEnv) (c : Component) :
  appState (state c) ∉ [IDLE; STOPPING] ->
  let c' := render (stopRecording props env c) in
  appState (state c') = IDLE
  /\ recordingTime (state c') = 0
  /\ timerRef (refs c') = None
  /\ liveTranscriptRef (refs c') = []
  /\ stopRecording props env c' = c'.
Proof.
  intros Hs c'.
  destruct (stop_reaches_idle props env c _ Hs) as [H1 H2].
  fold (stopRecording props env c) in H1, H2. fold c' in H1, H2.
  split; [exact H1|]. split; [exact H2|].
  split; [|split].
  - subst c'. rewrite refs_render. by apply stop_timer_cleared.
  - subst c'. rewrite refs_render. unfold stopRecording.
    rewrite stopRecordingOf_run by done. apply live_stop_finally.
  - by apply stop_idle_noop.
Qed.

Lemma stop_always_settles_witness :
  let c' := render (stopRecording exampleProps rejectedSession recordingComponent) in
  appState (state c') = IDLE /\ timerRef (refs c') = None.
Proof.
  destruct (stop_always_settles exampleProps rejectedSession recordingComponent)
    as (H1 & _ & H3 & _).
  - vm_compute. intros H. repeat (apply elem_of_cons in H as [H|H]; [discriminate|]).
    by apply elem_of_nil in H.
  - split; [exact H1|exact H3].
Defined.

(** *** Captured frames *)

Lemma createBlob_streamed frame : Audio.createBlob frame = Ok (streamed frame).
Proof. apply createBlob_bytes. Qed.

Lemma onaudioprocess_run props frame c :
  onaudioprocess props frame c
  = let c2 := emitAudioData props frame
                (with_refs (fun r => set_recordedChunksRef
                                       (recordedChunksRef r ++ [frame]) r) c) in
    match sessionPromiseRef (refs c) with
    | Some _ => effect (SendRealtimeInput (streamed frame)) c2
    | None => c2
    end.
Proof.
  unfold onaudioprocess. rewrite createBlob_streamed. cbv zeta.
  by rewrite refs_emit, refs_with_refs.
Qed.

Lemma pending_onaudioprocess props frame r c :
  pending r (onaudioprocess props frame c) = pending r c.
Proof.
  rewrite onaudioprocess_run. cbv zeta.
  destruct (sessionPromiseRef _);
    by rewrite ?pending_effect, pending_emit, pending_with_refs.
Qed.

Lemma state_emit props frame c : state (emitAudioData props frame c) = state c.
Proof. unfold emitAudioData. by destruct (onAudioData props). Qed.

Lemma state_onaudioprocess props frame c :
  state (onaudioprocess props frame c) = state c.
Proof.
  rewrite onaudioprocess_run. cbv zeta.
  destruct (sessionPromiseRef _);
    by rewrite ?state_effect, state_emit, state_with_refs.
Qed.

Lemma refs_onaudioprocess props frame c :
  refs (onaudioprocess props frame c)
  = set_recordedChunksRef (recordedChunksRef (refs c) ++ [frame]) (refs c).
Proof.
  rewrite onaudioprocess_run. cbv zeta.
  by destruct (sessionPromiseRef _); rewrite ?refs_effect, refs_emit, refs_with_refs.
Qed.

Lemma trace_emit props frame c :
  trace (emitAudioData props frame c)
  = trace c ++ (if onAudioData props then [AudioData frame] else []).
Proof.
  unfold emitAudioData. destruct (onAudioData props); [done|by rewrite app_nil_r].
Qed.

Lemma trace_onaudioprocess props frame c :
  trace (onaudioprocess props frame c)
  = trace c
    ++ (if onAudioData props then [AudioData frame] else [])
    ++ match sessionPromiseRef (refs c) with
       | Some _ => [SendRealtimeInput (streamed frame)]
       | None => []
       end.
Proof.
  rewrite onaudioprocess_run. cbv zeta.
  destruct (sessionPromiseRef _);
    rewrite ?trace_effect, trace_emit, trace_with_refs, <- ?app_assoc;
    [done|by rewrite app_nil_r].
Qed.

(** What a run of frames leaves of the component: the state and the
    pending updates as they were, every ref but the frame list as it was. *)
Lemma capture_facts props frames : forall c,
  state (capture props frames c) = state c
  /\ (forall r, pending r (capture props frames c) = pending r c)
  /\ recordedChunksRef (refs (capture props frames c))
     = recordedChunksRef (refs c) ++ frames
  /\ sessionPromiseRef (refs (capture props frames c)) = sessionPromiseRef (refs c)
  /\ audioContextRef (refs (capture props frames c)) = audioContextRef (refs c)
  /\ trace (capture props frames c)
     = trace c
       ++ flat_map (fun frame =>
                      (if onAudioData props then [AudioData frame] else [])
                      ++ match sessionPromiseRef (refs c) with
                         | Some _ => [SendRealtimeInput (streamed frame)]
                         | None => []
                         end) frames.
Proof.
  induction frames as [|frame frames IH]; intros c.
  - cbn [capture foldl flat_map]. by rewrite !app_nil_r.
  - change (capture props (frame :: frames) c)
      with (capture props frames (onaudioprocess props frame c)).
    destruct (IH (onaudioprocess props frame c)) as (H1 & H2 & H3 & H4 & H5 & H6).
    rewrite H1, H3, H4, H5, H6.
    rewrite state_onaudioprocess, trace_onaudioprocess, refs_onaudioprocess.
    cbn [recordedChunksRef sessionPromiseRef audioContextRef set_recordedChunksRef
         flat_map].
    split; [done|]. split; [intros r; by rewrite H2, pending_onaudioprocess|].
    split; [by rewrite <- app_assoc|]. split; [done|]. split; [done|].
    by rewrite <- !app_assoc.
Qed.

(** X10.  Every frame is recorded and streamed.  After any run of
    frames handed to [onaudioprocess], the frame list holds the frames it had
    followed by the new ones in order, and the calls made are, per frame, the
    visualisation callback (when one is given) and, when a session exists,
    one realtime input whose data is the base64 text of the 16-bit PCM of
    that frame; the state and the pending updates are untouched. *)
Theorem capture_records_and_streams (props : Props) (frames : list (list number))
    (c : Component) :
  let c' := capture props frames c in
  recordedChunksRef (refs c') = recordedChunksRef (refs c) ++ frames
  /\ trace c'
     = trace c
       ++ flat_map (fun frame =>
                      (if onAudioData props then [AudioData frame] else [])
                      ++ match sessionPromiseRef (refs c) with
                         | Some _ =>
                             [SendRealtimeInput
                                {| Audio.data := Audio.base64_encode (Layout.pcm16 frame);
                                   Audio.mimeType := str "audio/pcm;rate=16000" |}]
                         | None => []
                         end) frames
  /\ state c' = state c
  /\ forall r, pending r c' = pending r c.
Proof.
  destruct (capture_facts props frames c) as (H1 & H2 & H3 & H4 & H5 & H6).
  cbv zeta. by rewrite H1, H3, H6.
Qed.

(** *** The artifact *)

Lemma settled_stop_finally {X} (f : State -> X) v c :
  (forall r a s, f (apply_update r (SetTranscript a) s) = f s) ->
  (forall r a s, f (apply_update r (SetLiveTranscript a) s) = f s) ->
  (forall r a s, f (apply_update r (SetRecordingTime a) s) = f s) ->
  (forall r a s, f (apply_update r (SetAppState a) s) = f s) ->
  settled f v c -> settled f v (stop_finally c).
Proof.
  intros Ht Hl Hr Ha H. unfold stop_finally.
  apply settled_dispatch; [intros; apply Ha|].
  apply settled_dispatch; [intros; apply Hr|].
  destruct (truthy _); [|exact H].
  apply settled_dispatch; [intros; apply Hl|]. apply settled_with_refs.
  apply settled_dispatch; [intros; apply Ht|]. exact H.
Qed.

Lemma encodeArtifact_frames env c :
  recordedChunksRef (refs c) <> [] -> allocation env = None ->
  encodeArtifact env c
  = (with_refs (set_recordedChunksRef [])
       (dispatch (SetAudioBlob (Value (Some
          {| Audio.blob_bytes :=
               Layout.wavHeader
                 (Z.of_nat (length (concat (recordedChunksRef (refs c)))))
                 (effectiveSampleRate (refs c))
               ++ Layout.pcm16 (concat (recordedChunksRef (refs c)));
             Audio.blob_type := str "audio/wav" |}))) c),
     Ok ()).
Proof.
  intros Hne Ha. unfold encodeArtifact.
  destruct (recordedChunksRef (refs c)) as [|chunk chunks] eqn:E; [done|].
  cbn [length Nat.ltb Nat.leb]. rewrite Ha, concatenate_concat.
  unfold mbind at 1, Act_bind at 1. cbn [may_throw mret Act_ret].
  unfold mbind at 1, Act_bind at 1. cbn [lift].
  unfold mbind at 1, Act_bind at 1. rewrite encodeWav_bytes. cbn [lift].
  reflexivity.
Qed.

Lemma chunks_stop_finally c :
  recordedChunksRef (refs (stop_finally c)) = recordedChunksRef (refs c).
Proof. rewrite refs_stop_finally. by destruct (truthy _). Qed.

Lemma stop_artifact props env c seen :
  seen ∉ [IDLE; STOPPING] ->
  recordedChunksRef (refs c) <> [] -> allocation env = None ->
  let c' := render (stopRecordingOf props seen env c) in
  audioBlob (state c')
  = Some {| Audio.blob_bytes :=
              Layout.wavHeader
                (Z.of_nat (length (concat (recordedChunksRef (refs c)))))
                (effectiveSampleRate (refs c))
              ++ Layout.pcm16 (concat (recordedChunksRef (refs c)));
            Audio.blob_type := str "audio/wav" |}
  /\ recordedChunksRef (refs c') = [].
Proof.
  intros Hs Hne Ha. cbv zeta. rewrite stopRecordingOf_run by done. cbv zeta.
  set (c3 := emitAudioData props [] _).
  assert (E3 : recordedChunksRef (refs c3) = recordedChunksRef (refs c)).
  { subst c3. by rewrite refs_emit, chunks_stopTimer, refs_dispatch. }
  assert (R3 : effectiveSampleRate (refs c3) = effectiveSampleRate (refs c)).
  { subst c3. rewrite refs_emit. unfold effectiveSampleRate.
    destruct (refs_stopTimer (dispatch (SetAppState (Value STOPPING)) c))
      as [->|[_ ->]]; by rewrite ?refs_dispatch. }
  assert (T3 : stop_try env c3
               = release env (encodeArtifact env c3).1).
  { rewrite stop_try_release. unfold mbind at 1, Act_bind at 1.
    by rewrite encodeArtifact_frames by (by rewrite ?E3). }
  rewrite T3, encodeArtifact_frames by (by rewrite ?E3).
  cbn [fst]. rewrite E3, R3.
  set (wav := {| Audio.blob_bytes := _; Audio.blob_type := _ |}).
  set (c4 := with_refs _ _).
  assert (S4 : settled audioBlob (Some wav) c4).
  { subst c4. apply settled_with_refs. by apply settled_set. }
  assert (E4 : recordedChunksRef (refs c4) = []).
  { subst c4. by rewrite refs_with_refs. }
  pose proof (settled_release audioBlob (Some wav) env c4 S4) as S5.
  assert (St : stable (fun r => recordedChunksRef r = [])) by (by intros r Hr).
  pose proof (stable_release _ env St c4 E4) as E5. cbv beta in E5.
  destruct (release env c4) as [c5 [[]|e]]; cbn [fst snd] in *.
  - split.
    + apply settled_state. by apply settled_stop_finally.
    + by rewrite refs_render, chunks_stop_finally.
  - split.
    + apply settled_state. apply settled_stop_finally; try done.
      unfold stop_catch. by apply settled_dispatch.
    + rewrite refs_render, chunks_stop_finally. unfold stop_catch.
      by rewrite refs_dispatch.
Qed.

(** X11.  The artifact holds all that was captured.  When a recording
    with frames accumulated is stopped and the allocation of the joined
    array succeeds, the artifact shown at the next render is
    [encodeWav] of the frames joined in the order they arrived, at the rate
    of the audio context (16000 without one), even if a later clean-up call
    fails; the frame list is emptied. *)
Theorem stop_encodes_capture (props : Props) (env : StopEnv) (c : Component)
    (frames : list (list number)) :
  appState (state c) ∉ [IDLE; STOPPING] ->
  allocation env = None ->
  recordedChunksRef (refs c) ++ frames <> [] ->
  let samples := concat (recordedChunksRef (refs c) ++ frames) in
  let c' := render (stopRecording props env (capture props frames c)) in
  exists wav,
    Audio.encodeWav samples (effectiveSampleRate (refs c)) = Ok wav
    /\ audioBlob (state c') = Some wav
    /\ recordedChunksRef (refs c') = []
    /\ drop 44 (Audio.blob_bytes wav) = Layout.pcm16 samples.
Proof.
  intros Hs Ha Hne samples c'. eexists. split; [apply encodeWav_bytes|].
  destruct (capture_facts props frames c) as (H1 & H2 & H3 & H4 & H5 & H6).
  subst c'. unfold stopRecording. rewrite H1.
  destruct (stop_artifact props env (capture props frames c) (appState (state c)))
    as [A B]; [done|by rewrite H3|done|].
  cbv zeta in A, B. split; [|split; [exact B|]].
  - rewrite A, H3. unfold effectiveSampleRate. by rewrite H5.
  - cbn [Audio.blob_bytes]. by rewrite drop_app_length' by reflexivity.
Qed.

Lemma stop_encodes_capture_witness :
  exists wav,
    audioBlob (state (render (stopRecording exampleProps rejectedSession
                                (capture exampleProps [[Num 1]; [Num (-1)]]
                                   recordingComponent)))) = Some wav
    /\ drop 44 (Audio.blob_bytes wav)
       = Layout.pcm16 [Num (1 # 2); Num (-1 # 4); Num 1; Num (-1)].
Proof.
  destruct (stop_encodes_capture exampleProps rejectedSession recordingComponent
              [[Num 1]; [Num (-1)]]) as (wav & _ & H2 & _ & H4).
  - vm_compute. intros H. repeat (apply elem_of_cons in H as [H|H]; [discriminate|]).
    by apply elem_of_nil in H.
  - reflexivity.
  - discriminate.
  - exists wav. split; [exact H2|exact H4].
Defined.

(** *** The timer *)

Lemma refs_timerTick c : refs (timerTick c) = refs c.
Proof. unfold timerTick. destruct (timerRef _); by rewrite ?refs_dispatch. Qed.

Lemma refs_ticks n c : refs (ticks n c) = refs c.
Proof.
  induction n as [|n IH]; [done|].
  change (ticks (S n) c) with (timerTick (ticks n c)). by rewrite refs_timerTick.
Qed.

Lemma ticks_count n c t T :
  timerRef (refs c) = Some t -> settled recordingTime T c ->
  settled recordingTime (T + Z.of_nat n) (ticks n c).
Proof.
  intros Ht HT. induction n as [|n IH].
  - intros r. rewrite Z.add_0_r. apply HT.
  - change (ticks (S n) c) with (timerTick (ticks n c)).
    unfold timerTick. rewrite refs_ticks, Ht. intros r.
    rewrite (pending_dispatch recordingTime (fun t => t + 1)) by done.
    rewrite IH. lia.
Qed.

Lemma ticks_stopped n c : timerRef (refs c) = None -> ticks n c = c.
Proof.
  intros Ht. induction n as [|n IH]; [done|].
  change (ticks (S n) c) with (timerTick (ticks n c)).
  rewrite IH. unfold timerTick. by rewrite Ht.
Qed.

(** X12.  The timer.  While the interval is registered, n firings of its
    callback add n to the recording time shown at the next render, however
    many renders and other updates come in between; once [stopTimer] has run
    the firings change nothing, and after [startTimer] they count again. *)
Theorem timer_counts_seconds (n : nat) (c : Component) (T : Z) :
  settled recordingTime T c ->
  (timerRef (refs c) <> None ->
   recordingTime (state (render (ticks n c))) = T + Z.of_nat n)
  /\ (timerRef (refs c) = None -> ticks n c = c)
  /\ ticks n (stopTimer c) = stopTimer c
  /\ recordingTime (state (render (ticks n (startTimer c)))) = T + Z.of_nat n.
Proof.
  intros HT. split; [|split; [|split]].
  - intros Hne. destruct (timerRef (refs c)) as [t|] eqn:E; [|done].
    apply settled_state. by eapply ticks_count.
  - apply ticks_stopped.
  - apply ticks_stopped, timer_stopTimer.
  - apply settled_state. eapply ticks_count.
    + unfold startTimer. by rewrite refs_with_refs.
    + unfold startTimer. by apply settled_with_refs.
Qed.

Lemma timer_counts_seconds_witness :
  recordingTime (state (render (ticks 5 recordingComponent))) = 12.
Proof.
  destruct (timer_counts_seconds 5 recordingComponent 7) as [H _].
  - intros r. reflexivity.
  - apply H. discriminate.
Defined.

End SessionFacts.

(** ** From the microphone to the file and back *)

Module PlaybackFacts.

Import JSString Audio Layout Hook HookSpec Scenario NumberFacts WavFacts CodecFacts
  HookFacts SessionFacts.

Lemma decoded_sample_error q :
  (-1 <= q <= 1)%Q ->
  exists d, decoded (sample16 (Num q)) = Num d /\ (Qabs (d - q) < 2 # 32768)%Q.
Proof.
  intros Hq. destruct (clamp_Num q) as (s & Hc & Hs & _ & _ & Hsq).
  specialize (Hsq Hq). unfold decoded, sample16. rewrite Hc.
  eexists. split; [reflexivity|].
  destruct (decode_error s Hs) as [He _]. by rewrite <- Hsq.
Qed.

(** X30.  What was recorded plays back.  When a recording with samples
    captured is stopped and the joined array can be allocated, the artifact
    is a WAV file whose payload, decoded as 16-bit mono at the rate of the
    recording by a context that supports it, has one channel with one value
    per captured sample, in order, each within 2/32768 of its sample when
    that sample lies in [-1, 1]. *)
Theorem recording_plays_back (props : Props) (env : StopEnv) (c : Component)
    (frames : list (list number)) (ctx : AudioContext) :
  let samples := concat (recordedChunksRef (refs c) ++ frames) in
  let rate := effectiveSampleRate (refs c) in
  let c' := render (stopRecording props env (capture props frames c)) in
  appState (state c) ∉ [IDLE; STOPPING] ->
  allocation env = None ->
  samples <> [] ->
  ctx_minRate ctx <= rate <= ctx_maxRate ctx ->
  exists wav buffer channel,
    audioBlob (state c') = Some wav
    /\ blob_type wav = str "audio/wav"
    /\ decodeAudioData (drop 44 (blob_bytes wav)) ctx rate 1 = Ok buffer
    /\ buffer_sampleRate buffer = rate
    /\ channels buffer = [channel]
    /\ length channel = length samples
    /\ forall i q, samples !! i = Some (Num q) -> (-1 <= q <= 1)%Q ->
         exists d, channel !! i = Some (Num d) /\ (Qabs (d - q) < 2 # 32768)%Q.
Proof.
  intros samples rate c' Hs Ha Hne Hr.
  destruct (capture_facts props frames c) as (H1 & H2 & H3 & H4 & H5 & H6).
  assert (Hchunks : recordedChunksRef (refs (capture props frames c)) <> []).
  { rewrite H3. intros E. apply Hne. subst samples. by rewrite E. }
  destruct (stop_artifact props env (capture props frames c) (appState (state c))
              Hs Hchunks Ha) as [A _]. cbv zeta in A.
  rewrite H3 in A. fold samples in A.
  replace (effectiveSampleRate (refs (capture props frames c))) with rate in A
    by (subst rate; unfold effectiveSampleRate; by rewrite H5).
  assert (Hlen : 1 <= Z.of_nat (length samples)).
  { destruct samples; [done|cbn [length]; lia]. }
  eexists _, _, _. split.
  { subst c'. unfold stopRecording. rewrite H1. exact A. }
  split; [reflexivity|]. cbn [blob_bytes].
  rewrite drop_app_length' by reflexivity. rewrite decode_pcm16.
  unfold createBuffer.
  replace ((1 <=? 1) && (1 <=? 32) && (1 <=? Z.of_nat (length samples))
           && (ctx_minRate ctx <=? rate) && (rate <=? ctx_maxRate ctx)) with true
    by (symmetry; rewrite !andb_true_iff, !Z.leb_le; lia).
  rewrite bind_Ok. split; [reflexivity|].
  cbn [buffer_sampleRate channels]. split; [reflexivity|]. split; [reflexivity|].
  split; [by rewrite length_map|].
  intros i q Hi Hq. destruct (decoded_sample_error q Hq) as (d & Hd & He).
  exists d. split; [|exact He].
  change (map ?f samples) with (f <$> samples).
  by rewrite list_lookup_fmap, Hi, <- Hd.
Qed.

Lemma recording_plays_back_witness :
  exists wav buffer d,
    audioBlob (state (render (stopRecording exampleProps cleanStop
                                (capture exampleProps [[Num (3 # 4)]]
                                   recordingComponent)))) = Some wav
    /\ decodeAudioData (drop 44 (blob_bytes wav)) exampleContext 16000 1 = Ok buffer
    /\ channels buffer !! 0%nat ≫= (.!! 2%nat) = Some (Num d)
    /\ (Qabs (d - (3 # 4)) < 2 # 32768)%Q.
Proof.
  destruct (recording_plays_back exampleProps cleanStop recordingComponent
              [[Num (3 # 4)]] exampleContext)
    as (wav & buffer & channel & H1 & _ & H3 & _ & H5 & _ & H7).
  - vm_compute. intros H. repeat (apply elem_of_cons in H as [H|H]; [discriminate|]).
    by apply elem_of_nil in H.
  - reflexivity.
  - discriminate.
  - vm_compute. split; discriminate.
  - destruct (H7 2%nat (3 # 4)%Q) as (d & Hd & He); [reflexivity| |].
    + split; discriminate.
    + exists wav, buffer, d. split; [exact H1|]. split; [exact H3|].
      rewrite H5. split; [exact Hd|exact He].
Defined.

End PlaybackFacts.

(** ** What a stop releases *)

Module ReleaseFacts.

Import JSString Hook HookSpec Scenario NumberFacts WavFacts CodecFacts HookFacts
  SessionFacts.

Lemma bind_Act_Ok {A B} (m : Act A) (k : A -> Act B) c c' a :
  m c = (c', Ok a) -> (m ≫= k) c = k a c'.
Proof. intros H. unfold mbind, Act_bind. by rewrite H. Qed.

Lemma bind_Act_Throw {A B} (m : Act A) (k : A -> Act B) c c' e :
  m c = (c', Throw e) -> (m ≫= k) c = (c', Throw e).
Proof. intros H. unfold mbind, Act_bind. by rewrite H. Qed.

Lemma await_ok rendered c :
  await rendered None c
  = (if rendered && lanes c then render c else c, Ok ()).
Proof. reflexivity. Qed.

Lemma await_throw rendered e c :
  await rendered (Some e) c
  = (if rendered && lanes c then render c else c, Throw e).
Proof. reflexivity. Qed.

Lemma refs_if_render (b : bool) c : refs (if b then render c else c) = refs c.
Proof. by destruct b. Qed.

Lemma trace_if_render (b : bool) c : trace (if b then render c else c) = trace c.
Proof. by destruct b. Qed.

Lemma settled_if_render {X} (f : State -> X) v (b : bool) c :
  settled f v c -> settled f v (if b then render c else c).
Proof. destruct b; [apply settled_render|done]. Qed.

(** Each step of the clean-up when its calls succeed. *)
Lemma closeSession_clean env c :
  sessionSettles env = None -> sessionClose env = None ->
  exists c', closeSession env c = (c', Ok ())
    /\ refs c' = clear_unless sessionPromiseRef set_sessionPromiseRef
                   (fun _ => false) (refs c)
    /\ trace c' = trace c ++ match sessionPromiseRef (refs c) with
                             | Some session => [SessionClose session]
                             | None => []
                             end
    /\ forall X (f : State -> X) v, settled f v c -> settled f v c'.
Proof.
  intros H1 H2. unfold closeSession. rewrite H1, H2. unfold clear_unless.
  destruct (sessionPromiseRef (refs c)) as [session|].
  - eexists. split; [reflexivity|]. cbn [fst].
    rewrite refs_with_refs, refs_effect, refs_if_render.
    rewrite trace_with_refs, trace_effect, trace_if_render.
    split; [done|]. split; [done|]. intros X f v H.
    by apply settled_with_refs, settled_effect, settled_if_render.
  - exists c. by rewrite app_nil_r.
Qed.

Lemma releaseStream_clean env c :
  tracksStop env = None ->
  exists c', releaseStream env c = (c', Ok ())
    /\ refs c' = clear_unless mediaStreamRef set_mediaStreamRef
                   (fun _ => false) (refs c)
    /\ trace c' = trace c ++ match mediaStreamRef (refs c) with
                             | Some stream => [TracksStop stream]
                             | None => []
                             end
    /\ forall X (f : State -> X) v, settled f v c -> settled f v c'.
Proof.
  intros H1. unfold releaseStream. rewrite H1. unfold clear_unless.
  destruct (mediaStreamRef (refs c)) as [stream|].
  - eexists. split; [reflexivity|]. cbn [fst].
    rewrite refs_with_refs, refs_effect, trace_with_refs, trace_effect.
    split; [done|]. split; [done|]. intros X f v H.
    by apply settled_with_refs, settled_effect.
  - exists c. by rewrite app_nil_r.
Qed.

Lemma releaseProcessor_clean env c :
  processorDisconnect env = None ->
  exists c', releaseProcessor env c = (c', Ok ())
    /\ refs c' = clear_unless scriptProcessorRef set_scriptProcessorRef
                   (fun _ => false) (refs c)
    /\ trace c' = trace c ++ match scriptProcessorRef (refs c) with
                             | Some _ => [NodeDisconnect]
                             | None => []
                             end
    /\ forall X (f : State -> X) v, settled f v c -> settled f v c'.
Proof.
  intros H1. unfold releaseProcessor. rewrite H1. unfold clear_unless.
  destruct (scriptProcessorRef (refs c)).
  - eexists. split; [reflexivity|]. cbn [fst].
    rewrite refs_with_refs, refs_effect, trace_with_refs, trace_effect.
    split; [done|]. split; [done|]. intros X f v H.
    by apply settled_with_refs, settled_effect.
  - exists c. by rewrite app_nil_r.
Qed.

Lemma releaseSource_clean env c :
  sourceDisconnect env = None ->
  exists c', releaseSource env c = (c', Ok ())
    /\ refs c' = clear_unless mediaStreamSourceRef set_mediaStreamSourceRef
                   (fun _ => false) (refs c)
    /\ trace c' = trace c ++ match mediaStreamSourceRef (refs c) with
                             | Some _ => [NodeDisconnect]
                             | None => []
                             end
    /\ forall X (f : State -> X) v, settled f v c -> settled f v c'.
Proof.
  intros H1. unfold releaseSource. rewrite H1. unfold clear_unless.
  destruct (mediaStreamSourceRef (refs c)).
  - eexists. split; [reflexivity|]. cbn [fst].
    rewrite refs_with_refs, refs_effect, trace_with_refs, trace_effect.
    split; [done|]. split; [done|]. intros X f v H.
    by apply settled_with_refs, settled_effect.
  - exists c. by rewrite app_nil_r.
Qed.

Lemma closeContext_clean env c :
  contextClose env = None ->
  exists c', closeContext env c = (c', Ok ())
    /\ refs c' = clear_unless audioContextRef set_audioContextRef
                   Audio.ctx_closed (refs c)
    /\ trace c' = trace c ++ match audioContextRef (refs c) with
                             | Some ctx => if Audio.ctx_closed ctx then []
                                           else [ContextClose ctx]
                             | None => []
                             end
    /\ forall X (f : State -> X) v, settled f v c -> settled f v c'.
Proof.
  intros H1. unfold closeContext. rewrite H1. unfold clear_unless.
  destruct (audioContextRef (refs c)) as [ctx|];
    [destruct (Audio.ctx_closed ctx)|].
  - exists c. by rewrite app_nil_r.
  - eexists. split; [reflexivity|]. cbn [fst].
    rewrite refs_with_refs, refs_effect, refs_if_render.
    rewrite trace_with_refs, trace_effect, trace_if_render.
    split; [done|]. split; [done|]. intros X f v H.
    by apply settled_with_refs, settled_effect, settled_if_render.
  - exists c. by rewrite app_nil_r.
Qed.

Lemma closeOutputContext_clean env c :
  outputContextClose env = None ->
  exists c', closeOutputContext env c = (c', Ok ())
    /\ refs c' = clear_unless outputAudioContextRef set_outputAudioContextRef
                   Audio.ctx_closed (refs c)
    /\ trace c' = trace c ++ match outputAudioContextRef (refs c) with
                             | Some ctx => if Audio.ctx_closed ctx then []
                                           else [ContextClose ctx]
                             | None => []
                             end
    /\ forall X (f : State -> X) v, settled f v c -> settled f v c'.
Proof.
  intros H1. unfold closeOutputContext. rewrite H1. unfold clear_unless.
  destruct (outputAudioContextRef (refs c)) as [ctx|];
    [destruct (Audio.ctx_closed ctx)|].
  - exists c. by rewrite app_nil_r.
  - eexists. split; [reflexivity|]. cbn [fst].
    rewrite refs_with_refs, refs_effect, refs_if_render.
    rewrite trace_with_refs, trace_effect, trace_if_render.
    split; [done|]. split; [done|]. intros X f v H.
    by apply settled_with_refs, settled_effect, settled_if_render.
  - exists c. by rewrite app_nil_r.
Qed.

Lemma clear_other {A B} (p : Refs -> B) (get : Refs -> option A) set keep r :
  (forall v r, p (set v r) = p r) ->
  p (clear_unless get set keep r) = p r.
Proof.
  intros H. unfold clear_unless. destruct (get r) as [x|]; [|done].
  by destruct (keep x).
Qed.

Lemma clear_own {A} (get : Refs -> option A) set keep r :
  (forall v r, get (set v r) = v) ->
  get (clear_unless get set keep r)
  = match get r with
    | Some x => if keep x then Some x else None
    | None => None
    end.
Proof.
  intros H. unfold clear_unless. destruct (get r) as [x|] eqn:E; [|done].
  by destruct (keep x).
Qed.

Lemma refs_ext r r' :
  sessionPromiseRef r = sessionPromiseRef r' ->
  audioContextRef r = audioContextRef r' ->
  outputAudioContextRef r = outputAudioContextRef r' ->
  scriptProcessorRef r = scriptProcessorRef r' ->
  mediaStreamSourceRef r = mediaStreamSourceRef r' ->
  mediaStreamRef r = mediaStreamRef r' ->
  liveTranscriptRef r = liveTranscriptRef r' ->
  timerRef r = timerRef r' ->
  recordedChunksRef r = recordedChunksRef r' ->
  r = r'.
Proof. destruct r, r'. cbn. by intros -> -> -> -> -> -> -> -> ->. Qed.

Local Ltac other p := rewrite ?(clear_other p) by done.

(** The release steps together. *)
Lemma release_clean env c :
  succeeds env ->
  exists c', release env c = (c', Ok ())
    /\ sessionPromiseRef (refs c') = None
    /\ audioContextRef (refs c') = afterClose (audioContextRef (refs c))
    /\ outputAudioContextRef (refs c') = afterClose (outputAudioContextRef (refs c))
    /\ scriptProcessorRef (refs c') = None
    /\ mediaStreamSourceRef (refs c') = None
    /\ mediaStreamRef (refs c') = None
    /\ liveTranscriptRef (refs c') = liveTranscriptRef (refs c)
    /\ timerRef (refs c') = timerRef (refs c)
    /\ recordedChunksRef (refs c') = recordedChunksRef (refs c)
    /\ trace c' = trace c ++ cleanup (refs c)
    /\ forall X (f : State -> X) v, settled f v c -> settled f v c'.
Proof.
  intros (_ & E1 & E2 & E3 & E4 & E5 & E6 & E7).
  destruct (closeSession_clean env c E1 E2) as (c1 & R1 & F1 & T1 & S1).
  destruct (releaseStream_clean env c1 E3) as (c2 & R2 & F2 & T2 & S2).
  destruct (releaseProcessor_clean env c2 E4) as (c3 & R3 & F3 & T3 & S3).
  destruct (releaseSource_clean env c3 E5) as (c4 & R4 & F4 & T4 & S4).
  destruct (closeContext_clean env c4 E6) as (c5 & R5 & F5 & T5 & S5).
  destruct (closeOutputContext_clean env c5 E7) as (c6 & R6 & F6 & T6 & S6).
  exists c6. split.
  { unfold release.
    rewrite (bind_Act_Ok _ _ _ _ _ R1), (bind_Act_Ok _ _ _ _ _ R2),
      (bind_Act_Ok _ _ _ _ _ R3), (bind_Act_Ok _ _ _ _ _ R4),
      (bind_Act_Ok _ _ _ _ _ R5). exact R6. }
  rewrite T6, T5, T4, T3, T2, T1, F6, F5, F4, F3, F2, F1.
  generalize (refs c). intros r.
  split. { other sessionPromiseRef. rewrite clear_own by done.
           by destruct (sessionPromiseRef r). }
  split. { other audioContextRef. rewrite clear_own by done. other audioContextRef.
           done. }
  split. { rewrite clear_own by done. other outputAudioContextRef. done. }
  split. { other scriptProcessorRef. rewrite clear_own by done.
           other scriptProcessorRef. by destruct (scriptProcessorRef r). }
  split. { other mediaStreamSourceRef. rewrite clear_own by done.
           other mediaStreamSourceRef. by destruct (mediaStreamSourceRef r). }
  split. { other mediaStreamRef. rewrite clear_own by done.
           other mediaStreamRef. by destruct (mediaStreamRef r). }
  split. { by other liveTranscriptRef. }
  split. { by other timerRef. }
  split. { by other recordedChunksRef. }
  split.
  { other mediaStreamRef. other scriptProcessorRef. other mediaStreamSourceRef.
    other audioContextRef. other outputAudioContextRef.
    by rewrite <- !app_assoc. }
  intros X f v H. by apply S6, S5, S4, S3, S2, S1.
Qed.

Lemma encodeArtifact_clean env c :
  allocation env = None ->
  exists c', encodeArtifact env c = (c', Ok ())
    /\ refs c' = match recordedChunksRef (refs c) with
                 | [] => refs c
                 | _ :: _ => set_recordedChunksRef [] (refs c)
                 end
    /\ trace c' = trace c
    /\ forall X (f : State -> X) v,
         (forall r a s, f (apply_update r (SetAudioBlob a) s) = f s) ->
         settled f v c -> settled f v c'.
Proof.
  intros Ha. destruct (recordedChunksRef (refs c)) as [|chunk chunks] eqn:E.
  - exists c. by rewrite encodeArtifact_no_frames.
  - eexists. split; [apply encodeArtifact_frames; [by rewrite E|done]|].
    rewrite refs_with_refs, refs_dispatch, trace_with_refs, trace_dispatch.
    split; [done|]. split; [done|]. intros X f v Hf H.
    apply settled_with_refs. by apply settled_dispatch.
Qed.

Lemma trace_stopTimer c : trace (stopTimer c) = trace c.
Proof. unfold stopTimer. by destruct (timerRef _). Qed.

Lemma trace_stop_finally c : trace (stop_finally c) = trace c.
Proof.
  unfold stop_finally. rewrite !trace_dispatch. destruct (truthy _); [|done].
  by rewrite trace_dispatch, trace_with_refs, trace_dispatch.
Qed.

Lemma refs_stopTimer_match c :
  refs (stopTimer c) = match timerRef (refs c) with
                       | Some _ => set_timerRef None (refs c)
                       | None => refs c
                       end.
Proof. unfold stopTimer. by destruct (timerRef _). Qed.

Lemma settled_stop_error v c :
  settled error v c -> settled error v (stop_finally c).
Proof. by apply settled_stop_finally. Qed.

(** X13.  A stop in which no call fails releases everything.  Every ref
    is emptied (a context that was already closed stays in its ref), the
    calls made are the empty frame for the visualisation followed by: the
    session closed, the tracks of the stream stopped, the processor and the
    source disconnected, the two contexts closed, each only if it was there,
    in this order; and the error shown is the one that was shown before. *)
Theorem stop_clean_releases (props : Props) (env : StopEnv) (c : Component) :
  succeeds env ->
  appState (state c) ∉ [IDLE; STOPPING] ->
  let c' := render (stopRecording props env c) in
  refs c' = released (refs c)
  /\ trace c' = trace c ++ flatline props ++ cleanup (refs c)
  /\ forall v, settled error v c -> error (state c') = v.
Proof.
  intros Hok Hs c'. subst c'. unfold stopRecording.
  rewrite stopRecordingOf_run by done. cbv zeta.
  set (c3 := emitAudioData props [] _).
  assert (R3 : refs c3 = match timerRef (refs c) with
                         | Some _ => set_timerRef None (refs c)
                         | None => refs c
                         end).
  { subst c3. by rewrite refs_emit, refs_stopTimer_match, refs_dispatch. }
  assert (T3 : trace c3 = trace c ++ flatline props).
  { subst c3. by rewrite trace_emit, trace_stopTimer, trace_dispatch. }
  assert (S3 : forall v, settled error v c -> settled error v c3).
  { intros v H. subst c3. apply settled_emit, settled_stopTimer.
    by apply settled_dispatch. }
  destruct (encodeArtifact_clean env c3 (proj1 Hok)) as (c4 & E4 & R4 & T4 & S4).
  destruct (release_clean env c4 Hok)
    as (c5 & E5 & A1 & A2 & A3 & A4 & A5 & A6 & A7 & A8 & A9 & T5 & S5).
  assert (E : stop_try env c3 = (c5, Ok ())).
  { rewrite stop_try_release. by rewrite (bind_Act_Ok _ _ _ _ _ E4). }
  clearbody c3. rewrite E. cbn [fst snd].
  rewrite refs_render, trace_render, refs_stop_finally, trace_stop_finally.
  assert (R : refs c4 = set_recordedChunksRef [] (set_timerRef None (refs c))
              \/ (recordedChunksRef (refs c) = []
                  /\ refs c4 = set_timerRef None (refs c))
              \/ (timerRef (refs c) = None
                  /\ refs c4 = set_recordedChunksRef [] (refs c))
              \/ (timerRef (refs c) = None /\ recordedChunksRef (refs c) = []
                  /\ refs c4 = refs c)).
  { rewrite R4, R3. destruct (timerRef (refs c)) eqn:Et;
      cbn [recordedChunksRef set_timerRef];
      destruct (recordedChunksRef (refs c)) eqn:Ec.
    - right; left. by split.
    - by left.
    - right; right; right. by repeat split.
    - right; right; left. by split. }
  assert (K : sessionPromiseRef (refs c4) = sessionPromiseRef (refs c)
              /\ audioContextRef (refs c4) = audioContextRef (refs c)
              /\ outputAudioContextRef (refs c4) = outputAudioContextRef (refs c)
              /\ scriptProcessorRef (refs c4) = scriptProcessorRef (refs c)
              /\ mediaStreamSourceRef (refs c4) = mediaStreamSourceRef (refs c)
              /\ mediaStreamRef (refs c4) = mediaStreamRef (refs c)
              /\ timerRef (refs c4) = None
              /\ recordedChunksRef (refs c4) = []).
  { destruct R as [->|[[? ->]|[[? ->]|(? & ? & ->)]]]; by repeat split. }
  destruct K as (K1 & K2 & K3 & K4 & K5 & K6 & K7 & K8).
  split; [|split].
  - apply refs_ext; unfold truthy;
      destruct (bool_decide_reflect (liveTranscriptRef (refs c5) = [])) as [El|_];
      cbn [negb released sessionPromiseRef audioContextRef outputAudioContextRef
           scriptProcessorRef mediaStreamSourceRef mediaStreamRef liveTranscriptRef
           timerRef recordedChunksRef set_liveTranscriptRef];
      rewrite ?A1, ?A2, ?A3, ?A4, ?A5, ?A6, ?A8, ?A9, ?K2, ?K3, ?K7, ?K8; done.
  - rewrite T5, T4, T3, <- app_assoc. do 2 f_equal.
    unfold cleanup. by rewrite K1, K2, K3, K4, K5, K6.
  - intros v H. apply settled_state, settled_stop_error, S5, S4; [done|].
    by apply S3.
Qed.

Lemma stop_clean_releases_witness :
  let c' := render (stopRecording exampleProps cleanStop recordingComponent) in
  refs c' = noRefs
  /\ trace c'
     = [AudioData []; SessionClose {| session_id := 1 |};
        TracksStop {| stream_tracks := 1 |}; NodeDisconnect; NodeDisconnect;
        ContextClose Layout.exampleContext; ContextClose Layout.exampleContext].
Proof.
  destruct (stop_clean_releases exampleProps cleanStop recordingComponent)
    as (H1 & H2 & _).
  - repeat split.
  - vm_compute. intros H. repeat (apply elem_of_cons in H as [H|H]; [discriminate|]).
    by apply elem_of_nil in H.
  - split; [exact H1|exact H2].
Defined.

(** *** A clean-up call that fails *)

Lemma encodeArtifact_refs env c :
  trace (encodeArtifact env c).1 = trace c
  /\ sessionPromiseRef (refs (encodeArtifact env c).1) = sessionPromiseRef (refs c)
  /\ mediaStreamRef (refs (encodeArtifact env c).1) = mediaStreamRef (refs c)
  /\ scriptProcessorRef (refs (encodeArtifact env c).1) = scriptProcessorRef (refs c)
  /\ audioContextRef (refs (encodeArtifact env c).1) = audioContextRef (refs c).
Proof.
  destruct (recordedChunksRef (refs c)) as [|chunk chunks] eqn:E.
  { by rewrite encodeArtifact_no_frames. }
  destruct (allocation env) as [e|] eqn:Ea.
  - unfold encodeArtifact. rewrite E, Ea. by cbn.
  - rewrite encodeArtifact_frames by (by rewrite ?E). cbn [fst].
    by rewrite trace_with_refs, trace_dispatch, refs_with_refs, refs_dispatch.
Qed.

Lemma closeSession_rejected env c session e :
  sessionPromiseRef (refs c) = Some session -> sessionSettles env = Some e ->
  closeSession env c
  = (if rendersWhileSuspended env && lanes c then render c else c, Throw e).
Proof. intros H1 H2. unfold closeSession. by rewrite H1, H2. Qed.

Lemma stop_try_rejected env c session e :
  sessionPromiseRef (refs c) = Some session -> sessionSettles env = Some e ->
  exists c' e',
    stop_try env c = (c', Throw e')
    /\ trace c' = trace c
    /\ sessionPromiseRef (refs c') = Some session
    /\ mediaStreamRef (refs c') = mediaStreamRef (refs c)
    /\ scriptProcessorRef (refs c') = scriptProcessorRef (refs c)
    /\ audioContextRef (refs c') = audioContextRef (refs c).
Proof.
  intros Hs He. rewrite stop_try_release.
  destruct (encodeArtifact_refs env c) as (T & S & M & P & A).
  destruct (encodeArtifact env c) as [c1 [[]|e1]] eqn:E1; cbn [fst] in *.
  - rewrite (bind_Act_Ok _ _ _ _ _ E1). unfold release.
    rewrite <- S in Hs.
    rewrite (bind_Act_Throw _ _ _ _ _ (closeSession_rejected env c1 _ _ Hs He)).
    eexists _, _. split; [reflexivity|].
    by rewrite trace_if_render, refs_if_render.
  - rewrite (bind_Act_Throw _ _ _ _ _ E1). eexists _, _. split; [reflexivity|].
    by rewrite <- S in Hs.
Qed.

(** X14.  A failing clean-up call skips the later ones.  When a session
    exists and its promise rejects, [stopRecording] shows IDLE and the
    message "Failed to stop recording cleanly.", but it has made no call
    after the empty frame: the session, the stream, the processor and the
    context stay in their refs, no track is stopped, and a further
    [stopRecording] does nothing. *)
Theorem stop_failure_skips_release (props : Props) (env : StopEnv)
    (c : Component) (session : LiveSession) (e : exn) :
  appState (state c) ∉ [IDLE; STOPPING] ->
  sessionPromiseRef (refs c) = Some session ->
  sessionSettles env = Some e ->
  let c' := render (stopRecording props env c) in
  appState (state c') = IDLE
  /\ error (state c') = Some stop_failed
  /\ trace c' = trace c ++ flatline props
  /\ sessionPromiseRef (refs c') = Some session
  /\ mediaStreamRef (refs c') = mediaStreamRef (refs c)
  /\ scriptProcessorRef (refs c') = scriptProcessorRef (refs c)
  /\ audioContextRef (refs c') = audioContextRef (refs c)
  /\ stopRecording props env c' = c'.
Proof.
  intros Hs Hsess He c'.
  destruct (stop_reaches_idle props env c _ Hs) as [H1 _].
  fold (stopRecording props env c) in H1. fold c' in H1.
  split; [exact H1|].
  set (c3 := emitAudioData props []
               (stopTimer (dispatch (SetAppState (Value STOPPING)) c))).
  assert (R3 : sessionPromiseRef (refs c3) = Some session
               /\ mediaStreamRef (refs c3) = mediaStreamRef (refs c)
               /\ scriptProcessorRef (refs c3) = scriptProcessorRef (refs c)
               /\ audioContextRef (refs c3) = audioContextRef (refs c)).
  { subst c3. rewrite refs_emit, refs_stopTimer_match, refs_dispatch.
    by destruct (timerRef (refs c)). }
  destruct R3 as (S3 & M3 & P3 & A3).
  assert (T3 : trace c3 = trace c ++ flatline props).
  { subst c3. by rewrite trace_emit, trace_stopTimer, trace_dispatch. }
  destruct (stop_try_rejected env c3 session e S3 He)
    as (c4 & e' & E4 & T4 & S4 & M4 & P4 & A4).
  split.
  { subst c'. unfold stopRecording. apply (stop_error props env c _ e'); [done|].
    fold c3. by rewrite E4. }
  assert (F : refs c' = refs (stop_finally (stop_catch e' c4))
              /\ trace c' = trace c4).
  { subst c'. unfold stopRecording. rewrite stopRecordingOf_run by done.
    cbv zeta. fold c3. rewrite E4. cbn [fst snd].
    rewrite refs_render, trace_render, trace_stop_finally.
    unfold stop_catch. by rewrite trace_dispatch. }
  destruct F as [F1 F2]. rewrite F1, F2, T4, T3, refs_stop_finally.
  unfold stop_catch. rewrite refs_dispatch.
  split; [done|].
  split; [by destruct (truthy _)|]. split; [by destruct (truthy _); rewrite <- M3|].
  split; [by destruct (truthy _); rewrite <- P3|].
  split; [by destruct (truthy _); rewrite <- A3|].
  by apply stop_idle_noop.
Qed.

Lemma stop_failure_skips_release_witness :
  let c' := render (stopRecording exampleProps rejectedSession recordingComponent) in
  appState (state c') = IDLE
  /\ mediaStreamRef (refs c') = Some {| stream_tracks := 1 |}
  /\ trace c' = [AudioData []].
Proof.
  destruct (stop_failure_skips_release exampleProps rejectedSession
              recordingComponent {| session_id := 1 |}
              (Error "Error" (str "WebSocket closed")))
    as (H1 & _ & H3 & _ & H5 & _).
  - vm_compute. intros H. repeat (apply elem_of_cons in H as [H|H]; [discriminate|]).
    by apply elem_of_nil in H.
  - reflexivity.
  - reflexivity.
  - split; [exact H1|]. split; [exact H5|exact H3].
Defined.

End ReleaseFacts.

(** ** Pause, resume, start *)

Module LifecycleFacts.

Import JSString Hook HookSpec Scenario NumberFacts HookFacts SessionFacts ReleaseFacts.

Lemma pauseRecording_run props c :
  appState (state c) = RECORDING ->
  pauseRecording props c
  = emitAudioData props []
      (stopTimer
         (match scriptProcessorRef (refs c) with
          | Some _ => effect NodeDisconnect (dispatch (SetAppState (Value PAUSED)) c)
          | None => dispatch (SetAppState (Value PAUSED)) c
          end)).
Proof.
  intros H. unfold pauseRecording. rewrite H.
  rewrite bool_decide_eq_false_2 by (intros E; by apply E).
  cbv zeta. by rewrite refs_dispatch.
Qed.

Lemma resumeRecording_run c :
  appState (state c) = PAUSED ->
  resumeRecording c
  = startTimer
      (match scriptProcessorRef (refs c), mediaStreamSourceRef (refs c),
             audioContextRef (refs c) with
       | Some _, Some _, Some _ =>
           effect NodeConnect (effect NodeConnect (dispatch (SetAppState (Value RECORDING)) c))
       | _, _, _ => dispatch (SetAppState (Value RECORDING)) c
       end).
Proof.
  intros H. unfold resumeRecording. rewrite H.
  rewrite bool_decide_eq_false_2 by (intros E; by apply E).
  cbv zeta. by rewrite refs_dispatch.
Qed.

(** The calls a pause and a resume make on the audio graph. *)
Lemma pause_facts props c :
  appState (state c) = RECORDING ->
  let p := render (pauseRecording props c) in
  appState (state p) = PAUSED
  /\ refs p = match timerRef (refs c) with
              | Some _ => set_timerRef None (refs c)
              | None => refs c
              end
  /\ trace p = trace c
       ++ match scriptProcessorRef (refs c) with
          | Some _ => [NodeDisconnect]
          | None => []
          end ++ flatline props
  /\ forall X (f : State -> X) v,
       (forall r a s, f (apply_update r (SetAppState a) s) = f s) ->
       settled f v c -> f (state p) = v.
Proof.
  intros H p. subst p. rewrite pauseRecording_run by done.
  rewrite refs_render, trace_render, refs_emit, trace_emit, refs_stopTimer_match,
    trace_stopTimer.
  split; [|split; [|split]].
  - apply settled_state, settled_emit, settled_stopTimer.
    destruct (scriptProcessorRef (refs c)); [apply settled_effect|]; by apply settled_set.
  - by destruct (scriptProcessorRef (refs c)); rewrite ?refs_effect, refs_dispatch.
  - destruct (scriptProcessorRef (refs c));
      rewrite ?trace_effect, trace_dispatch, <- ?app_assoc; done.
  - intros X f v Hf Hv. apply settled_state, settled_emit, settled_stopTimer.
    destruct (scriptProcessorRef (refs c)); [apply settled_effect|];
      by apply settled_dispatch.
Qed.

Lemma resume_facts c :
  appState (state c) = PAUSED ->
  let q := render (resumeRecording c) in
  appState (state q) = RECORDING
  /\ refs q = set_timerRef (Some {| timer_ms := 1000 |}) (refs c)
  /\ trace q = trace c
       ++ match scriptProcessorRef (refs c), mediaStreamSourceRef (refs c),
                audioContextRef (refs c) with
          | Some _, Some _, Some _ => [NodeConnect; NodeConnect]
          | _, _, _ => []
          end
  /\ forall X (f : State -> X) v,
       (forall r a s, f (apply_update r (SetAppState a) s) = f s) ->
       settled f v c -> f (state q) = v.
Proof.
  intros H q. subst q. rewrite resumeRecording_run by done.
  unfold startTimer. rewrite refs_render, trace_render, refs_with_refs, trace_with_refs.
  split; [|split; [|split]].
  - apply settled_state, settled_with_refs.
    destruct (scriptProcessorRef (refs c)), (mediaStreamSourceRef (refs c)), (audioContextRef (refs c));
      repeat apply settled_effect; by apply settled_set.
  - by destruct (scriptProcessorRef (refs c)), (mediaStreamSourceRef (refs c)), (audioContextRef (refs c));
      rewrite ?refs_effect, refs_dispatch.
  - destruct (scriptProcessorRef (refs c)), (mediaStreamSourceRef (refs c)), (audioContextRef (refs c));
      rewrite ?trace_effect, trace_dispatch, <- ?app_assoc, ?app_nil_r; done.
  - intros X f v Hf Hv. apply settled_state, settled_with_refs.
    destruct (scriptProcessorRef (refs c)), (mediaStreamSourceRef (refs c)), (audioContextRef (refs c));
      repeat apply settled_effect; by apply settled_dispatch.
Qed.

(** X15.  Pause and resume.  From RECORDING, [pauseRecording] shows
    PAUSED, stops the timer (firings of its callback no longer change the
    time) and disconnects the processor; [resumeRecording] then shows
    RECORDING, restarts the timer (the time goes on from where it stood) and
    reconnects the audio graph.  The session, the frames accumulated and the
    live buffer are the same throughout. *)
Theorem pause_then_resume (props : Props) (c : Component) (T : Z) :
  appState (state c) = RECORDING ->
  settled recordingTime T c ->
  let p := render (pauseRecording props c) in
  let q := render (resumeRecording p) in
  appState (state p) = PAUSED
  /\ timerRef (refs p) = None
  /\ (forall n, recordingTime (state (render (ticks n p))) = T)
  /\ appState (state q) = RECORDING
  /\ timerRef (refs q) = Some {| timer_ms := 1000 |}
  /\ (forall n, recordingTime (state (render (ticks n q))) = T + Z.of_nat n)
  /\ sessionPromiseRef (refs q) = sessionPromiseRef (refs c)
  /\ recordedChunksRef (refs q) = recordedChunksRef (refs c)
  /\ liveTranscriptRef (refs q) = liveTranscriptRef (refs c)
  /\ trace q
     = trace c
       ++ match scriptProcessorRef (refs c) with
          | Some _ => [NodeDisconnect]
          | None => []
          end
       ++ flatline props
       ++ match scriptProcessorRef (refs c), mediaStreamSourceRef (refs c),
                audioContextRef (refs c) with
          | Some _, Some _, Some _ => [NodeConnect; NodeConnect]
          | _, _, _ => []
          end.
Proof.
  intros Hc HT p q.
  destruct (pause_facts props c Hc) as (P1 & P2 & P3 & P4). fold p in P1, P2, P3, P4.
  destruct (resume_facts p P1) as (Q1 & Q2 & Q3 & Q4). fold q in Q1, Q2, Q3, Q4.
  assert (Tp : timerRef (refs p) = None).
  { rewrite P2. by destruct (timerRef (refs c)) eqn:E. }
  assert (Sp : recordingTime (state p) = T) by (by apply (P4 _ recordingTime T)).
  assert (Sq : recordingTime (state q) = T).
  { apply (Q4 _ recordingTime T); [done|]. intros r. subst p. by rewrite pending_render, <- state_render. }
  split; [exact P1|]. split; [exact Tp|]. split.
  { intros n. rewrite ticks_stopped by exact Tp. subst p.
    by rewrite state_render, pending_render, <- state_render. }
  split; [exact Q1|]. split; [by rewrite Q2|]. split.
  { intros n. apply settled_state. eapply ticks_count; [by rewrite Q2|].
    intros r. subst q. by rewrite pending_render, <- state_render. }
  rewrite Q3, P3, Q2, P2, <- !app_assoc. by destruct (timerRef (refs c)).
Qed.

Lemma pause_then_resume_witness :
  let p := render (pauseRecording exampleProps recordingComponent) in
  let q := render (resumeRecording p) in
  appState (state p) = PAUSED
  /\ recordingTime (state (render (ticks 3 p))) = 7
  /\ appState (state q) = RECORDING
  /\ recordingTime (state (render (ticks 3 q))) = 10.
Proof.
  destruct (pause_then_resume exampleProps recordingComponent 7)
    as (H1 & _ & H3 & H4 & _ & H6 & _).
  - reflexivity.
  - intros r. reflexivity.
  - split; [exact H1|]. split; [exact (H3 3%nat)|]. split; [exact H4|exact (H6 3%nat)].
Defined.

End LifecycleFacts.

(** ** Starting a recording *)

Module StartFacts.

Import JSString Hook HookSpec Scenario NumberFacts HookFacts SessionFacts ReleaseFacts.

Lemma start_settles c :
  appState (state c) = IDLE ->
  let s := (startRecording c).1 in
  settled error None s /\ settled transcript [] s /\ settled liveTranscript [] s
  /\ settled recordingTime 0 s /\ settled audioBlob None s
  /\ settled appState GETTING_PERMISSION s
  /\ refs s = set_recordedChunksRef [] (refs c)
  /\ trace s = trace c ++ [GetUserMedia].
Proof.
  intros H. rewrite startRecording_idle by done. cbn [fst].
  rewrite refs_effect, trace_effect, refs_dispatch, trace_dispatch, refs_with_refs,
    trace_with_refs, !refs_dispatch, !trace_dispatch.
  repeat split; intros r; rewrite pending_effect.
  - rewrite (pending_dispatch error id) by done.
    rewrite pending_with_refs.
    do 4 rewrite (pending_dispatch error id) by done.
    by rewrite (pending_dispatch error (fun _ => None)).
  - rewrite (pending_dispatch transcript id) by done.
    rewrite pending_with_refs.
    do 3 rewrite (pending_dispatch transcript id) by done.
    by rewrite (pending_dispatch transcript (fun _ => [])).
  - rewrite (pending_dispatch liveTranscript id) by done.
    rewrite pending_with_refs.
    do 2 rewrite (pending_dispatch liveTranscript id) by done.
    by rewrite (pending_dispatch liveTranscript (fun _ => [])).
  - rewrite (pending_dispatch recordingTime id) by done.
    rewrite pending_with_refs.
    rewrite (pending_dispatch recordingTime id) by done.
    by rewrite (pending_dispatch recordingTime (fun _ => 0)).
  - rewrite (pending_dispatch audioBlob id) by done.
    rewrite pending_with_refs.
    by rewrite (pending_dispatch audioBlob (fun _ => None)).
  - by rewrite (pending_dispatch appState (fun _ => GETTING_PERMISSION)).
Qed.

Lemma start_try_ok props env c stream ctx out :
  userMedia env = Ok stream -> newAudioContext env = Ok ctx ->
  newOutputAudioContext env = Ok out -> newClient env = None ->
  start_try props env c
  = (with_refs (set_sessionPromiseRef (Some (connected env)))
       (effect (LiveConnect (language props))
          (with_refs (set_outputAudioContextRef (Some out))
             (with_refs (set_audioContextRef (Some ctx))
                (with_refs (set_mediaStreamRef (Some stream)) c)))),
     Ok ()).
Proof. intros H1 H2 H3 H4. unfold start_try. by rewrite H1, H2, H3, H4. Qed.

Lemma start_ok_inv env :
  start_ok env = true ->
  exists stream ctx out,
    userMedia env = Ok stream /\ newAudioContext env = Ok ctx
    /\ newOutputAudioContext env = Ok out /\ newClient env = None.
Proof.
  unfold start_ok.
  destruct (userMedia env) as [stream|], (newAudioContext env) as [ctx|],
    (newOutputAudioContext env) as [out|], (newClient env); try discriminate.
  intros _. by exists stream, ctx, out.
Qed.

Lemma startRecording_resume_ok props env c stream ctx out :
  userMedia env = Ok stream -> newAudioContext env = Ok ctx ->
  newOutputAudioContext env = Ok out -> newClient env = None ->
  let c' := startRecording_resume props env c in
  trace c' = trace c ++ [LiveConnect (language props)]
  /\ refs c' = set_sessionPromiseRef (Some (connected env))
                 (set_outputAudioContextRef (Some out)
                    (set_audioContextRef (Some ctx)
                       (set_mediaStreamRef (Some stream) (refs c))))
  /\ forall r, pending r c' = pending r c.
Proof.
  intros H1 H2 H3 H4. cbv zeta. unfold startRecording_resume.
  rewrite (start_try_ok props env c stream ctx out) by done.
  rewrite trace_with_refs, trace_effect, !trace_with_refs.
  rewrite refs_with_refs, refs_effect, !refs_with_refs.
  split; [done|]. split; [done|]. intros r.
  by rewrite pending_with_refs, pending_effect, !pending_with_refs.
Qed.

Lemma onopen_run c ctx stream :
  audioContextRef (refs c) = Some ctx -> mediaStreamRef (refs c) = Some stream ->
  onopen c
  = effect NodeConnect
      (effect NodeConnect
         (with_refs (set_scriptProcessorRef (Some {| processor_bufferSize := 4096 |}))
            (with_refs (set_mediaStreamSourceRef (Some {| source_stream := stream |}))
               (startTimer (dispatch (SetAppState (Value RECORDING)) c))))).
Proof. intros H1 H2. unfold onopen. by rewrite H1, H2. Qed.

(** X16.  A start that goes through.  From IDLE, [startRecording], the
    microphone granted and both contexts and the client created, then the
    [onopen] of the session: the state is GETTING_PERMISSION until the
    session opens and RECORDING after, with no error, empty transcripts,
    time 0, no artifact, no frame, the timer running, the session, the
    stream and a processor of 4096 frames in their refs; the calls made are
    getUserMedia, the connection for the language of the props, and the two
    connections of the audio graph. *)
Theorem start_opens_recording (props : Props) (env : StartEnv) (c0 : Component) :
  appState (state c0) = IDLE ->
  start_ok env = true ->
  let c1 := render (startRecording c0).1 in
  let c2 := render (startRecording_resume props env c1) in
  let c3 := render (onopen c2) in
  appState (state c2) = GETTING_PERMISSION
  /\ appState (state c3) = RECORDING
  /\ error (state c3) = None
  /\ transcript (state c3) = []
  /\ liveTranscript (state c3) = []
  /\ recordingTime (state c3) = 0
  /\ audioBlob (state c3) = None
  /\ recordedChunksRef (refs c3) = []
  /\ timerRef (refs c3) = Some {| timer_ms := 1000 |}
  /\ sessionPromiseRef (refs c3) = Some (connected env)
  /\ mediaStreamRef (refs c3)
     = match userMedia env with Ok stream => Some stream | Throw _ => None end
  /\ scriptProcessorRef (refs c3) = Some {| processor_bufferSize := 4096 |}
  /\ trace c3
     = trace c0 ++ [GetUserMedia; LiveConnect (language props); NodeConnect; NodeConnect].
Proof.
  intros H0 Hok c1 c2 c3.
  destruct (start_ok_inv env Hok) as (stream & ctx & out & E1 & E2 & E3 & E4).
  destruct (start_settles c0 H0) as (Se & St & Sl & Sr & Sb & Sa & R0 & T0).
  cbv zeta in Se, St, Sl, Sr, Sb, Sa, R0, T0.
  destruct (startRecording_resume_ok props env c1 stream ctx out E1 E2 E3 E4)
    as (T2 & R2 & P2). cbv zeta in T2, R2, P2.
  assert (K : forall X (f : State -> X) v,
             settled f v (startRecording c0).1 -> settled f v c2).
  { intros X f v H. subst c2. apply settled_render. intros r. rewrite P2.
    subst c1. by apply settled_render. }
  assert (R2' : refs c2 = set_sessionPromiseRef (Some (connected env))
                  (set_outputAudioContextRef (Some out)
                     (set_audioContextRef (Some ctx)
                        (set_mediaStreamRef (Some stream)
                           (set_recordedChunksRef [] (refs c0)))))).
  { subst c2. rewrite refs_render, R2. subst c1. by rewrite refs_render, R0. }
  assert (T2' : trace c2 = trace c0 ++ [GetUserMedia; LiveConnect (language props)]).
  { subst c2. rewrite trace_render, T2. subst c1.
    by rewrite trace_render, T0, <- app_assoc. }
  assert (O : onopen c2
              = effect NodeConnect
                  (effect NodeConnect
                     (with_refs (set_scriptProcessorRef (Some {| processor_bufferSize := 4096 |}))
                        (with_refs (set_mediaStreamSourceRef (Some {| source_stream := stream |}))
                           (startTimer (dispatch (SetAppState (Value RECORDING)) c2)))))).
  { apply (onopen_run c2 ctx stream); by rewrite R2'. }
  assert (K3 : forall X (f : State -> X) v,
             (forall r a s, f (apply_update r (SetAppState a) s) = f s) ->
             settled f v (startRecording c0).1 -> f (state c3) = v).
  { intros X f v Hf H. subst c3. apply settled_state. rewrite O.
    do 2 apply settled_effect. do 2 apply settled_with_refs.
    unfold startTimer. apply settled_with_refs, settled_dispatch; [done|].
    by apply K. }
  split.
  { subst c2. rewrite state_render, P2. subst c1. rewrite pending_render. apply Sa. }
  split.
  { subst c3. apply settled_state. rewrite O.
    do 2 apply settled_effect. do 2 apply settled_with_refs.
    unfold startTimer. apply settled_with_refs. by apply settled_set. }
  split; [by apply (K3 _ error)|]. split; [by apply (K3 _ transcript)|].
  split; [by apply (K3 _ liveTranscript)|]. split; [by apply (K3 _ recordingTime)|].
  split; [by apply (K3 _ audioBlob)|].
  assert (R3 : refs c3
               = set_scriptProcessorRef (Some {| processor_bufferSize := 4096 |})
                   (set_mediaStreamSourceRef (Some {| source_stream := stream |})
                      (set_timerRef (Some {| timer_ms := 1000 |}) (refs c2)))).
  { subst c3. rewrite refs_render, O, !refs_effect, !refs_with_refs.
    unfold startTimer. by rewrite refs_with_refs, refs_dispatch. }
  assert (T3 : trace c3 = trace c0 ++ [GetUserMedia; LiveConnect (language props);
                                       NodeConnect; NodeConnect]).
  { subst c3. rewrite trace_render, O, !trace_effect, !trace_with_refs.
    unfold startTimer. rewrite trace_with_refs, trace_dispatch, T2', <- !app_assoc.
    reflexivity. }
  rewrite R3, R2', T3. cbn [recordedChunksRef timerRef sessionPromiseRef
    mediaStreamRef scriptProcessorRef set_scriptProcessorRef
    set_mediaStreamSourceRef set_timerRef set_sessionPromiseRef
    set_outputAudioContextRef set_audioContextRef set_mediaStreamRef
    set_recordedChunksRef default from_option].
  by rewrite E1.
Qed.

Lemma start_opens_recording_witness :
  let c3 := render (onopen (render (startRecording_resume exampleProps grantedStart
                                      (render (startRecording idleComponent).1)))) in
  appState (state c3) = RECORDING
  /\ trace c3 = [GetUserMedia; LiveConnect (str "ru"); NodeConnect; NodeConnect].
Proof.
  destruct (start_opens_recording exampleProps grantedStart idleComponent)
    as (_ & H2 & H3); [reflexivity|reflexivity|].
  split; [exact H2|]. apply H3.
Defined.

(** X17.  A start that fails.  When the microphone is refused, or a
    context or the client cannot be created, the state goes back to IDLE
    with the message "Could not access microphone. Please check permissions
    and try again.", no connection is opened and no session is stored.  A
    stream that had been granted before the failure stays in its ref, and
    [stopRecording], which does nothing in IDLE, will not stop it. *)
Theorem start_failure (props : Props) (env : StartEnv) (c : Component) :
  start_ok env = false ->
  let c' := render (startRecording_resume props env c) in
  appState (state c') = IDLE
  /\ error (state c') = Some microphone_failed
  /\ trace c' = trace c
  /\ sessionPromiseRef (refs c') = sessionPromiseRef (refs c)
  /\ mediaStreamRef (refs c')
     = match userMedia env with
       | Ok stream => Some stream
       | Throw _ => mediaStreamRef (refs c)
       end
  /\ forall senv, stopRecording props senv c' = c'.
Proof.
  intros Hok c'.
  destruct (start_resume_trace props env c) as [T S]. rewrite Hok in T, S.
  rewrite app_nil_r in T.
  assert (F : exists c1 e, start_try props env c = (c1, Throw e)
                /\ mediaStreamRef (refs c1)
                   = match userMedia env with
                     | Ok stream => Some stream
                     | Throw _ => mediaStreamRef (refs c)
                     end).
  { unfold start_ok in Hok. unfold start_try.
    destruct (userMedia env) as [stream|e1]; [|by eexists _, _].
    destruct (newAudioContext env) as [ctx|e2]; [|by eexists _, _].
    destruct (newOutputAudioContext env) as [out|e3]; [|by eexists _, _].
    destruct (newClient env) as [e4|]; [by eexists _, _|discriminate]. }
  destruct F as (c1 & e & E & M).
  assert (A : appState (state c') = IDLE).
  { subst c'. apply settled_state. unfold startRecording_resume. rewrite E.
    by apply settled_set. }
  split; [exact A|]. split.
  { subst c'. apply settled_state. unfold startRecording_resume. rewrite E.
    apply settled_dispatch; [done|]. by apply settled_set. }
  subst c'. rewrite trace_render, refs_render. split; [exact T|]. split; [exact S|].
  split.
  { unfold startRecording_resume. rewrite E. by rewrite !refs_dispatch. }
  intros senv. by apply stop_idle_noop.
Qed.

Lemma start_failure_witness :
  let env := {| userMedia := Ok {| stream_tracks := 1 |};
                newAudioContext := Throw NotSupportedError;
                newOutputAudioContext := Ok Layout.exampleContext;
                newClient := None;
                connected := {| session_id := 1 |} |} in
  let c' := render (startRecording_resume exampleProps env
                      (render (startRecording idleComponent).1)) in
  appState (state c') = IDLE
  /\ error (state c') = Some microphone_failed
  /\ mediaStreamRef (refs c') = Some {| stream_tracks := 1 |}.
Proof.
  intros env c'.
  destruct (start_failure exampleProps env (render (startRecording idleComponent).1))
    as (H1 & H2 & _ & _ & H5 & _); [reflexivity|].
  split; [exact H1|]. split; [exact H2|exact H5].
Defined.

End StartFacts.

(** ** The live transcript and its buffer *)

Module LiveFacts.

Import JSString Hook HookSpec Scenario NumberFacts HookFacts SessionFacts ReleaseFacts.

Lemma mirror_onmessage message c :
  settled liveTranscript (liveTranscriptRef (refs c)) c ->
  settled liveTranscript (liveTranscriptRef (refs (onmessage message c)))
    (onmessage message c).
Proof.
  intros H. unfold onmessage.
  set (c1 := match inputTranscription message with Some _ => _ | None => c end).
  assert (H1 : settled liveTranscript (liveTranscriptRef (refs c1)) c1).
  { subst c1. destruct (inputTranscription message) as [text|]; [|exact H].
    rewrite refs_dispatch. by apply settled_set. }
  clearbody c1. destruct (turnComplete message); [|exact H1].
  rewrite refs_dispatch, refs_with_refs. by apply settled_set.
Qed.

Lemma mirror_receive events : forall c,
  settled liveTranscript (liveTranscriptRef (refs c)) c ->
  settled liveTranscript (liveTranscriptRef (refs (receive events c)))
    (receive events c).
Proof.
  induction events as [|[message|] events IH]; intros c H; [exact H| |].
  - apply (IH (onmessage message c)). by apply mirror_onmessage.
  - apply (IH (render c)). rewrite refs_render. by apply settled_render.
Qed.

Lemma settled_encodeArtifact {X} (f : State -> X) v env :
  (forall r a s, f (apply_update r (SetAudioBlob a) s) = f s) ->
  preserves (settled f v) (encodeArtifact env).
Proof.
  intros Hf c Hc. unfold encodeArtifact.
  destruct (0 <? _)%nat; [|exact Hc].
  generalize (recordedChunksRef (refs c)) (effectiveSampleRate (refs c)).
  intros chunks rate. revert c Hc.
  repeat first
    [ apply preserves_bind; [|intros ?]
    | apply preserves_may_throw
    | apply preserves_lift
    | apply preserves_modify; intros ? ?;
      first [by apply settled_dispatch | by apply settled_with_refs] ].
Qed.

Lemma settled_stop_try {X} (f : State -> X) v env :
  (forall r a s, f (apply_update r (SetAudioBlob a) s) = f s) ->
  preserves (settled f v) (stop_try env).
Proof.
  intros Hf. rewrite stop_try_release.
  apply preserves_bind; [by apply settled_encodeArtifact|].
  intros ?. apply settled_release.
Qed.

Lemma stop_live_empty props env c seen :
  seen ∉ [IDLE; STOPPING] ->
  settled liveTranscript (liveTranscriptRef (refs c)) c ->
  liveTranscript (state (render (stopRecordingOf props seen env c))) = [].
Proof.
  intros Hs H. apply settled_state. rewrite stopRecordingOf_run by done. cbv zeta.
  set (c3 := emitAudioData props [] _).
  set (L := liveTranscriptRef (refs c)) in *.
  assert (H3 : settled liveTranscript L c3).
  { subst c3. apply settled_emit, settled_stopTimer. by apply settled_dispatch. }
  assert (R3 : liveTranscriptRef (refs c3) = L).
  { subst c3. rewrite refs_emit, refs_stopTimer_match, refs_dispatch.
    by destruct (timerRef (refs c)). }
  assert (St : stable (fun r => liveTranscriptRef r = L)) by (by intros r Hr).
  pose proof (stable_stop_try _ env St c3 R3) as R4. cbv beta in R4.
  pose proof (settled_stop_try liveTranscript L env ltac:(done) c3 H3) as H4.
  clearbody c3.
  set (c5 := match (stop_try env c3).2 with Throw e => _ | Ok _ => _ end).
  assert (H5 : settled liveTranscript L c5 /\ liveTranscriptRef (refs c5) = L).
  { subst c5. destruct ((stop_try env c3).2); [done|].
    unfold stop_catch. rewrite refs_dispatch. split; [|done].
    by apply settled_dispatch. }
  destruct H5 as [H5 R5]. clearbody c5. unfold stop_finally.
  apply settled_dispatch; [done|]. apply settled_dispatch; [done|].
  rewrite R5. unfold truthy.
  destruct (bool_decide_reflect (L = [])) as [E|_]; cbn [negb].
  - by rewrite <- E.
  - by apply settled_set.
Qed.

(** X18.  The live transcript mirrors its buffer.  If the live transcript
    that is due to be shown equals the buffer ref, it still does after any
    sequence of server messages and renders: what the next render shows is
    the buffer.  A [stopRecording] after such a sequence leaves the live
    transcript empty. *)
Theorem live_mirrors_buffer (props : Props) (env : StopEnv)
    (events : list SessionEvent) (c : Component) :
  settled liveTranscript (liveTranscriptRef (refs c)) c ->
  let c' := receive events c in
  liveTranscript (state (render c')) = liveTranscriptRef (refs c')
  /\ (appState (state c') ∉ [IDLE; STOPPING] ->
      liveTranscript (state (render (stopRecording props env c'))) = []).
Proof.
  intros H c'. pose proof (mirror_receive events c H) as H'. fold c' in H'.
  split; [by apply settled_state|].
  intros Hs. by apply stop_live_empty.
Qed.

Lemma live_mirrors_buffer_witness :
  let c' := receive [Message (fragmentMessage (str " more")); Render;
                     Message (fragmentMessage (str " words"))] recordingComponent in
  liveTranscript (state (render c')) = str "pending words more words"
  /\ liveTranscript (state (render (stopRecording exampleProps cleanStop c'))) = [].
Proof.
  intros c'.
  destruct (live_mirrors_buffer exampleProps cleanStop
              [Message (fragmentMessage (str " more")); Render;
               Message (fragmentMessage (str " words"))] recordingComponent)
    as [H1 H2].
  - intros r. reflexivity.
  - fold c' in H1, H2. split; [rewrite H1; reflexivity|]. apply H2.
    vm_compute. intros H. repeat (apply elem_of_cons in H as [H|H]; [discriminate|]).
    by apply elem_of_nil in H.
Defined.

End LiveFacts.

(** ** Turns and errors of the session *)

Module TurnFacts.

Import JSString Hook HookSpec Scenario NumberFacts HookFacts SessionFacts ReleaseFacts.

Lemma turnComplete_settles c T :
  settled transcript T c ->
  settled transcript (T ++ flushed (liveTranscriptRef (refs c)))
    (onmessage turnCompleteMessage c)
  /\ liveTranscriptRef (refs (onmessage turnCompleteMessage c)) = [].
Proof.
  intros H. unfold onmessage. cbn [turnCompleteMessage inputTranscription turnComplete].
  rewrite refs_dispatch, refs_with_refs. split; [|done].
  apply settled_dispatch; [done|]. apply settled_with_refs.
  unfold flushed. destruct (truthy (trim _)).
  - intros r.
    rewrite (pending_dispatch transcript
               (fun t => t ++ liveTranscriptRef (refs c) ++ paragraph_break)) by done.
    by rewrite H.
  - by rewrite app_nil_r.
Qed.

Lemma deliverTurns_settles turns : forall c T,
  settled transcript T c -> liveTranscriptRef (refs c) = [] ->
  settled transcript (T ++ concat (map (fun events => flushed (fragments events)) turns))
    (deliverTurns turns c)
  /\ liveTranscriptRef (refs (deliverTurns turns c)) = [].
Proof.
  induction turns as [|events turns IH]; intros c T H L.
  - cbn. by rewrite app_nil_r.
  - change (deliverTurns (events :: turns) c)
      with (deliverTurns turns (onmessage turnCompleteMessage (deliver events c))).
    destruct (deliver_turn events c [] T L H) as [L1 H1].
    destruct (turnComplete_settles (deliver events c) T H1) as [H2 L2].
    rewrite L1 in H2. cbn [app] in H2.
    destruct (IH _ _ H2 L2) as [H3 L3]. split; [|exact L3].
    cbn [map concat]. by rewrite app_assoc.
Qed.

(** X19.  Turns accumulate.  Starting with an empty buffer, after any
    number of turns (each its fragments, renders in between or not, then the
    turn-complete message) the settled transcript is what it was followed,
    for each turn in order, by the concatenation of its fragments and a
    paragraph break when that concatenation is not blank, and by nothing when
    it is; the buffer is empty again. *)
Theorem turns_accumulate (turns : list (list TurnEvent)) (c : Component) (T : list Z) :
  settled transcript T c ->
  liveTranscriptRef (refs c) = [] ->
  let c' := render (deliverTurns turns c) in
  transcript (state c')
  = T ++ concat (map (fun events =>
                        if truthy (trim (fragments events))
                        then fragments events ++ paragraph_break else []) turns)
  /\ liveTranscriptRef (refs c') = [].
Proof.
  intros H L c'. destruct (deliverTurns_settles turns c T H L) as [H1 L1].
  split; [by apply settled_state|]. subst c'. by rewrite refs_render.
Qed.

Lemma turns_accumulate_witness :
  transcript (state (render (deliverTurns
     [[Fragment (str "One"); Rendered; Fragment (str " two")];
      [Fragment (str "  ")];
      [Fragment (str "Three")]] idleComponent)))
  = str "One two" ++ paragraph_break ++ str "Three" ++ paragraph_break.
Proof.
  destruct (turns_accumulate
     [[Fragment (str "One"); Rendered; Fragment (str " two")];
      [Fragment (str "  ")];
      [Fragment (str "Three")]] idleComponent []) as [H _].
  - intros r. reflexivity.
  - reflexivity.
  - rewrite H. reflexivity.
Defined.

(** X20.  An error of the session does not stop the recording.  [onerror]
    shows "An API error occurred. Please try again." and nothing else: the
    [stopRecording] it calls is the one of the render in which the recording
    was started, which saw IDLE and returns at its guard.  The state, the
    time and the transcript are as they were, every ref is kept and no call
    is made. *)
Theorem onerror_keeps_session (props : Props) (env : StopEnv) (c : Component) :
  let c' := render (onerror props env c) in
  error (state c') = Some api_error
  /\ refs c' = refs c
  /\ trace c' = trace c
  /\ (forall v, settled appState v c -> appState (state c') = v)
  /\ (forall v, settled recordingTime v c -> recordingTime (state c') = v)
  /\ (forall v, settled transcript v c -> transcript (state c') = v).
Proof.
  cbv zeta. rewrite onerror_leaves_recording.
  rewrite refs_render, trace_render, refs_dispatch, trace_dispatch.
  split; [apply settled_state; by apply settled_set|].
  split; [done|]. split; [done|].
  repeat split; intros v H; apply settled_state; by apply settled_dispatch.
Qed.

Lemma onerror_keeps_session_witness :
  let c' := render (onerror exampleProps cleanStop recordingComponent) in
  error (state c') = Some api_error
  /\ appState (state c') = RECORDING
  /\ refs c' = refs recordingComponent.
Proof.
  destruct (onerror_keeps_session exampleProps cleanStop recordingComponent)
    as (H1 & H2 & _ & H4 & _).
  split; [exact H1|]. split; [|exact H2]. apply H4. intros r. reflexivity.
Defined.

End TurnFacts.

(** ** Transcribing a file *)

Module FileFacts.

Import JSString Hook HookSpec Scenario NumberFacts HookFacts SessionFacts ReleaseFacts.

Lemma transcribeFile_run props env file c :
  appState (state c) = IDLE ->
  transcribeFile props env file c
  = let c5 := dispatch (SetAppState (Value TRANSCRIBING_FILE))
                (dispatch (SetAudioBlob (Value None))
                   (dispatch (SetLiveTranscript (Value []))
                      (dispatch (SetTranscript (Value []))
                         (dispatch (SetError (Value None)) c)))) in
    dispatch (SetAppState (Value IDLE))
      (match (file_try props env file c5).2 with
       | Throw err =>
           dispatch (SetError (Value (Some (userMessage err))))
             (file_try props env file c5).1
       | Ok _ => (file_try props env file c5).1
       end).
Proof.
  intros H. unfold transcribeFile. rewrite H.
  rewrite bool_decide_eq_false_2 by (intros E; by apply E).
  cbv zeta. by destruct (file_try props env file _) as [c6 [[]|e]].
Qed.

(** What the try block leaves: a transcript set as its last step, or an
    exception; before that it only makes calls. *)
Lemma handleResponse_cases response c :
  match transcribed response with
  | Some text =>
      handleResponse response c
      = (dispatch (SetTranscript (Value (text ++ paragraph_break))) c, Ok ())
  | None => exists e, handleResponse response c = (c, Throw e)
            /\ (finishReason response ∈ [None; Some (str "STOP"); Some []] ->
                userMessage e = empty_result)
  end.
Proof.
  unfold transcribed, handleResponse.
  destruct (response_text response) as [text|];
    [destruct (truthy text && (0 <? length (trim text))%nat); [reflexivity|]|].
  all: destruct (finishReason response) as [reason|];
    [destruct (truthy reason && negb (bool_decide (reason = str "STOP"))) eqn:E|];
    eexists; (split; [reflexivity|]); intros H; try (vm_compute; reflexivity).
  all: exfalso; apply andb_true_iff in E as [E1 E2];
    apply elem_of_cons in H as [H|H]; [discriminate|];
    apply elem_of_cons in H as [H|H];
    [injection H as ->; by vm_compute in E2|];
    apply elem_of_cons in H as [H|H];
    [injection H as ->; by vm_compute in E1|by apply elem_of_nil in H].
Qed.

Lemma file_try_cases props env file c :
  (exists c1 text,
     file_try props env file c
     = (dispatch (SetTranscript (Value (text ++ paragraph_break))) c1, Ok ())
     /\ (exists response, generated env = Ok response
                          /\ transcribed response = Some text)
     /\ refs c1 = refs c
     /\ forall r, pending r c1 = pending r c)
  \/ (exists c1 e,
        file_try props env file c = (c1, Throw e)
        /\ refs c1 = refs c
        /\ forall r, pending r c1 = pending r c).
Proof.
  unfold file_try.
  destruct (resolveMimeType file) as [mimeType|e]; [|right; by eexists _, _].
  destruct (newFileClient env) as [e|]; [right; by eexists _, _|].
  destruct (base64 env) as [b|e]; [|right; by eexists _, _].
  destruct (generated env) as [response|e]; [|right; by eexists _, _].
  set (c2 := effect (GenerateContent mimeType b (language props))
               (effect (ReadFile (file_name file)) c)).
  change ((lift (Ok mimeType) ≫= _) c) with (handleResponse response c2).
  pose proof (handleResponse_cases response c2) as H.
  destruct (transcribed response) as [text|] eqn:E.
  - left. exists c2, text. split; [exact H|]. split; [by exists response|]. done.
  - right. destruct H as (e & H & _). by exists c2, e.
Qed.

(** X21.  [transcribeFile] ends with a transcript or with an error.
    Called in IDLE, whatever the file and whatever the platform and the
    service do, the next render shows IDLE, an empty live transcript and no
    artifact, the refs are untouched, and either the transcript is a text
    that is not blank followed by a paragraph break and there is no error, or
    the transcript is empty and there is an error message. *)
Theorem file_outcome (props : Props) (env : FileEnv) (file : File) (c : Component) :
  appState (state c) = IDLE ->
  let c' := render (transcribeFile props env file c) in
  appState (state c') = IDLE
  /\ liveTranscript (state c') = []
  /\ audioBlob (state c') = None
  /\ refs c' = refs c
  /\ ((exists text, transcript (state c') = text ++ paragraph_break
                    /\ trim text <> [] /\ error (state c') = None)
      \/ (transcript (state c') = [] /\ exists message, error (state c') = Some message)).
Proof.
  intros H c'. subst c'. rewrite transcribeFile_run by done. cbv zeta.
  set (c5 := dispatch (SetAppState (Value TRANSCRIBING_FILE)) _).
  assert (Sl : settled liveTranscript [] c5).
  { subst c5. do 2 (apply settled_dispatch; [done|]). by apply settled_set. }
  assert (Sb : settled audioBlob None c5).
  { subst c5. apply settled_dispatch; [done|]. by apply settled_set. }
  assert (St : settled transcript [] c5).
  { subst c5. do 3 (apply settled_dispatch; [done|]). by apply settled_set. }
  assert (Se : settled error None c5).
  { subst c5. do 4 (apply settled_dispatch; [done|]). by apply settled_set. }
  assert (R5 : refs c5 = refs c) by (subst c5; by rewrite !refs_dispatch).
  clearbody c5.
  destruct (file_try_cases props env file c5)
    as [(c1 & text & E & (response & _ & Ht) & R1 & P1)|(c1 & e & E & R1 & P1)];
    rewrite E; cbn [fst snd]; rewrite refs_render, !refs_dispatch, R1, R5.
  - split; [apply settled_state; by apply settled_set|].
    split. { apply settled_state. do 2 (apply settled_dispatch; [done|]).
             intros r. rewrite P1. apply Sl. }
    split. { apply settled_state. do 2 (apply settled_dispatch; [done|]).
             intros r. rewrite P1. apply Sb. }
    split; [done|]. left. exists text. split; [|split].
    + apply settled_state. apply settled_dispatch; [done|]. by apply settled_set.
    + unfold transcribed in Ht. destruct (response_text response) as [t|]; [|done].
      destruct (truthy t && (0 <? length (trim t))%nat) eqn:E'; [|done].
      injection Ht as ->. apply andb_true_iff in E' as [_ E'].
      apply Nat.ltb_lt in E'. intros E0. rewrite E0 in E'. cbn in E'. lia.
    + apply settled_state. do 2 (apply settled_dispatch; [done|]).
      intros r. rewrite P1. apply Se.
  - split; [apply settled_state; by apply settled_set|].
    split. { apply settled_state. do 2 (apply settled_dispatch; [done|]).
             intros r. rewrite P1. apply Sl. }
    split. { apply settled_state. do 2 (apply settled_dispatch; [done|]).
             intros r. rewrite P1. apply Sb. }
    split; [done|]. right. split.
    + apply settled_state. do 2 (apply settled_dispatch; [done|]).
      intros r. rewrite P1. apply St.
    + eexists. apply settled_state. apply settled_dispatch; [done|].
      by apply settled_set.
Qed.

Lemma file_outcome_witness :
  let c' := render (transcribeFile exampleProps exampleFileEnv
                      {| file_name := str "voice.m4a"; file_type := [] |}
                      idleComponent) in
  appState (state c') = IDLE /\ audioBlob (state c') = None.
Proof.
  destruct (file_outcome exampleProps exampleFileEnv
              {| file_name := str "voice.m4a"; file_type := [] |} idleComponent)
    as (H1 & _ & H3 & _); [reflexivity|].
  split; [exact H1|exact H3].
Defined.

Lemma file_try_request props env file c mimeType b response :
  resolveMimeType file = Ok mimeType -> newFileClient env = None ->
  base64 env = Ok b -> generated env = Ok response ->
  file_try props env file c
  = handleResponse response
      (effect (GenerateContent mimeType b (language props))
         (effect (ReadFile (file_name file)) c)).
Proof. intros H1 H2 H3 H4. unfold file_try. by rewrite H1, H2, H3, H4. Qed.

(** X22.  The request and the answer of a file transcription.  For a
    file whose type is accepted, with the client created, the file read and
    an answer received, the calls made are the read of the file and one
    request carrying the resolved type, the base64 data and the language of
    the props.  An answer whose text is not blank becomes the transcript,
    followed by a paragraph break, with no error; a blank or missing text
    leaves the transcript empty and, when the finish reason is absent, empty
    or STOP, shows the message that the result was empty. *)
Theorem file_request_and_answer (props : Props) (env : FileEnv) (file : File)
    (c : Component) (mimeType b : list Z) (response : Response) :
  appState (state c) = IDLE ->
  resolveMimeType file = Ok mimeType ->
  newFileClient env = None ->
  base64 env = Ok b ->
  generated env = Ok response ->
  let c' := render (transcribeFile props env file c) in
  trace c'
  = trace c ++ [ReadFile (file_name file);
                GenerateContent mimeType b (language props)]
  /\ match transcribed response with
     | Some text =>
         transcript (state c') = text ++ paragraph_break /\ error (state c') = None
     | None =>
         transcript (state c') = []
         /\ (finishReason response ∈ [None; Some (str "STOP"); Some []] ->
             error (state c') = Some empty_result)
     end.
Proof.
  intros H H1 H2 H3 H4 c'. subst c'. rewrite transcribeFile_run by done. cbv zeta.
  set (c5 := dispatch (SetAppState (Value TRANSCRIBING_FILE)) _).
  assert (St : settled transcript [] c5).
  { subst c5. do 3 (apply settled_dispatch; [done|]). by apply settled_set. }
  assert (Se : settled error None c5).
  { subst c5. do 4 (apply settled_dispatch; [done|]). by apply settled_set. }
  assert (T5 : trace c5 = trace c) by (subst c5; by rewrite !trace_dispatch).
  clearbody c5.
  rewrite (file_try_request props env file c5 mimeType b response) by done.
  set (c2 := effect (GenerateContent mimeType b (language props)) _).
  assert (T2 : trace c2 = trace c ++ [ReadFile (file_name file);
                                      GenerateContent mimeType b (language props)]).
  { subst c2. by rewrite !trace_effect, T5, <- app_assoc. }
  assert (St2 : settled transcript [] c2) by (subst c2; by do 2 apply settled_effect).
  assert (Se2 : settled error None c2) by (subst c2; by do 2 apply settled_effect).
  clearbody c2.
  pose proof (handleResponse_cases response c2) as Hr.
  destruct (transcribed response) as [text|].
  - rewrite Hr. cbn [fst snd]. rewrite trace_render, !trace_dispatch.
    split; [done|]. split.
    + apply settled_state. apply settled_dispatch; [done|]. by apply settled_set.
    + apply settled_state. by do 2 (apply settled_dispatch; [done|]).
  - destruct Hr as (e & Hr & Hm). rewrite Hr. cbn [fst snd].
    rewrite trace_render, !trace_dispatch. split; [done|]. split.
    + apply settled_state. by do 2 (apply settled_dispatch; [done|]).
    + intros Hf. rewrite (Hm Hf). apply settled_state.
      apply settled_dispatch; [done|]. by apply settled_set.
Qed.

Lemma file_request_and_answer_witness :
  let c' := render (transcribeFile exampleProps exampleFileEnv
                      {| file_name := str "Voice.M4A"; file_type := [] |}
                      idleComponent) in
  trace c' = [ReadFile (str "Voice.M4A");
              GenerateContent (str "audio/mp4") (str "AAAA") (str "ru")]
  /\ transcript (state c') = str "Hello" ++ paragraph_break.
Proof.
  destruct (file_request_and_answer exampleProps exampleFileEnv
              {| file_name := str "Voice.M4A"; file_type := [] |} idleComponent
              (str "audio/mp4") (str "AAAA")
              {| response_text := Some (str "Hello"); finishReason := Some (str "STOP") |})
    as [H1 H2]; [reflexivity|reflexivity|reflexivity|reflexivity|reflexivity|].
  change (transcribed _) with (Some (str "Hello")) in H2.
  split; [exact H1|exact (proj1 H2)].
Defined.

(** *** The table of extensions *)

Lemma mimeMap_entry ext mapped :
  mimeMap !! ext = Some mapped ->
  acceptable mapped = true /\ ext ∉ Object_prototype.
Proof.
  intros H. unfold mimeMap in H. apply elem_of_list_to_map_2 in H.
  repeat (apply elem_of_cons in H as [H|H];
          [injection H as -> ->; split; [by vm_compute|];
           apply (bool_decide_unpack _); by vm_compute|]).
  by apply elem_of_nil in H.
Qed.

(** X23.  The extension decides.  When the extension of the file name
    (after the last dot, lower-cased, trimmed) is in the table, the resolved
    type is the one of the table, whatever type the browser reported, and it
    is an audio type, so the file is accepted. *)
Theorem extension_decides (file : File) (mapped : list Z) :
  mimeMap !! extensionOf file = Some mapped ->
  resolveMimeType file = Ok mapped
  /\ startsWith mapped (str "audio/") = true.
Proof.
  intros H. destruct (mimeMap_entry _ _ H) as [Ha Hp].
  rewrite resolveMimeType_spec by done. unfold resolvedType. rewrite H, Ha.
  split; [done|]. unfold mimeMap in H. apply elem_of_list_to_map_2 in H.
  repeat (apply elem_of_cons in H as [H|H]; [injection H as _ ->; by vm_compute|]).
  by apply elem_of_nil in H.
Qed.

Lemma extension_decides_witness :
  resolveMimeType {| file_name := str "talk.final.MP3"; file_type := str "video/quicktime" |}
  = Ok (str "audio/mpeg").
Proof.
  destruct (extension_decides
              {| file_name := str "talk.final.MP3"; file_type := str "video/quicktime" |}
              (str "audio/mpeg")) as [H _]; [by vm_compute|exact H].
Defined.

End FileFacts.

(** ** Files on their way to the hook *)

Module HandoffFacts.

Import JSString Hook App Audio Base64 Reader Share NumberFacts CodecFacts Base64Facts.

(** *** The note and the transcript *)

(** X24.  The note follows the transcript.  When the note equals the
    transcript and the tracked length is its length, the effect run for a new
    transcript that extends the old one, or that is shorter, leaves the note
    equal to the new transcript and the tracked length equal to its
    length. *)
Theorem note_follows_transcript (transcript transcript' : list Z) (n : Note) :
  noteContent n = transcript ->
  lastProcessedTranscriptLength n = Z.of_nat (length transcript) ->
  (exists added, transcript' = transcript ++ added)
  \/ (length transcript' < length transcript)%nat ->
  noteContent (transcriptEffect transcript' n) = transcript'
  /\ lastProcessedTranscriptLength (transcriptEffect transcript' n)
     = Z.of_nat (length transcript').
Proof.
  intros Hn Hl H. unfold transcriptEffect. rewrite Hl.
  destruct H as [[added ->]|H].
  - rewrite length_app. destruct added as [|a added].
    + rewrite app_nil_r, Nat.add_0_r, Z.ltb_irrefl. by rewrite Hn, Hl.
    + replace (_ <? _) with true by (symmetry; apply Z.ltb_lt; cbn; lia).
      cbn [noteContent lastProcessedTranscriptLength]. split; [|done].
      rewrite Hn. f_equal. unfold substring. rewrite length_app.
      replace (Z.to_nat _) with (length transcript) by lia.
      by rewrite drop_app_length.
  - replace (_ <? _) with false by (symmetry; apply Z.ltb_ge; lia).
    by replace (_ <? _) with true by (symmetry; apply Z.ltb_lt; lia).
Qed.

Lemma note_follows_transcript_witness :
  noteContent (transcriptEffect (str "One. Two.")
                 {| noteContent := str "One. ";
                    lastProcessedTranscriptLength := 5 |})
  = str "One. Two.".
Proof.
  destruct (note_follows_transcript (str "One. ") (str "One. Two.")
              {| noteContent := str "One. "; lastProcessedTranscriptLength := 5 |})
    as [H _]; [reflexivity|reflexivity| |exact H].
  left. by exists (str "Two.").
Defined.

(** *** Reading a file as base64 *)

Lemma split_no_sep sep s : sep ∉ s -> split sep s = [s].
Proof.
  induction s as [|c s IH]; intros H; [done|].
  cbn [split]. apply not_elem_of_cons in H as [H1 H2].
  replace (c =? sep) with false by (symmetry; apply Z.eqb_neq; congruence).
  by rewrite IH.
Qed.

Lemma split_at_sep sep prefix rest :
  sep ∉ prefix -> split sep (prefix ++ sep :: rest) = prefix :: split sep rest.
Proof.
  induction prefix as [|c s IH]; intros H.
  - cbn [app split]. by rewrite Z.eqb_refl.
  - apply not_elem_of_cons in H as [H1 H2]. cbn [app split].
    replace (c =? sep) with false by (symmetry; apply Z.eqb_neq; congruence).
    by rewrite IH.
Qed.

Lemma base64_char_no_comma v : 0 <= v < 64 -> base64_char v <> 44.
Proof.
  intros R Hv.
  assert (C : forallb (fun n => negb (base64_char (Z.of_nat n) =? 44))
                (seq 0 64) = true) by (by vm_compute).
  rewrite forallb_forall in C. specialize (C (Z.to_nat v)).
  rewrite Z2Nat.id in C by lia.
  assert (In (Z.to_nat v) (seq 0 64)) as Hi by (apply in_seq; lia).
  specialize (C Hi). rewrite Hv in C. discriminate.
Qed.

Lemma base64_no_comma bytes :
  Forall (fun b => 0 <= b < 256) bytes -> 44 ∉ base64_encode bytes.
Proof.
  intros H. cut (Forall (fun c => c <> 44) (base64_encode bytes)).
  { intros F Hin. rewrite Forall_forall in F. by apply (F 44). }
  rewrite base64_encode_sextets. apply Forall_app. split.
  - apply Forall_map. eapply Forall_impl; [by apply sextets_range|].
    intros v Hv. by apply base64_char_no_comma.
  - clear H. induction bytes as [|a|a b|a b c l IH] using triples_ind;
      cbn [padding]; repeat constructor; try done.
Qed.

(** X8.  [fileToBase64] on a data URL.  When the part before the first
    comma has no comma of its own and the payload is the base64 text of some
    bytes, the promise resolves to that payload, which [decode] turns back
    into the bytes; a result without a comma resolves to undefined; an error
    of the reader rejects with that error. *)
Theorem fileToBase64_payload (prefix bytes : list Z) :
  44 ∉ prefix ->
  Forall (fun b => 0 <= b < 256) bytes ->
  fileToBase64 (Ok (prefix ++ str "," ++ base64_encode bytes))
  = Ok (Some (base64_encode bytes))
  /\ decode (base64_encode bytes) = Ok bytes
  /\ fileToBase64 (Ok prefix) = Ok None
  /\ forall e, fileToBase64 (Throw e) = Throw e.
Proof.
  intros Hp Hb. unfold fileToBase64. cbn [mbind result_bind].
  split; [|split; [by apply decode_base64_encode|split; [|done]]].
  - change (str "," ++ base64_encode bytes) with (44 :: base64_encode bytes).
    rewrite split_at_sep by done.
    by rewrite split_no_sep by (by apply base64_no_comma).
  - by rewrite split_no_sep.
Qed.

Lemma fileToBase64_payload_witness :
  fileToBase64 (Ok (str "data:audio/mpeg;base64," ++ base64_encode [73; 68; 51]))
  = Ok (Some (str "SUQz")).
Proof.
  destruct (fileToBase64_payload (str "data:audio/mpeg;base64") [73; 68; 51])
    as [H _].
  - apply (bool_decide_unpack _). by vm_compute.
  - repeat (constructor; [lia|]). constructor.
  - exact H.
Defined.

(** *** The shared file *)

(** X28.  A shared file reaches the hook once.  When the service worker
    answers a POST to a path ending in share-target whose form field media
    is a file, the file is stored under the key latest, replacing what was
    there; the check of the App then resets the note, hands that file to
    [transcribeFile] and deletes the entry, and a further check finds
    nothing and changes nothing. *)
Theorem share_handoff (props : Props) (env : FileEnv) (request : Request)
    (file : File) (store : Store) (n : Note) (c : Component) :
  method request = str "POST" ->
  endsWith (pathname request) (str "share-target") = true ->
  formData request = Ok (Some (FormFile file)) ->
  let store' := (onfetch request store).1 in
  (onfetch request store).2 = true
  /\ store' !! latest = Some (FormFile file)
  /\ checkSharedFile props env store' n c
     = (delete latest store, resetNote n, transcribeFile props env file c)
  /\ (forall env' n' c',
        checkSharedFile props env' (delete latest store) n' c'
        = (delete latest store, n', c')).
Proof.
  intros Hm Hp Hf. cbv zeta. unfold onfetch. rewrite Hm, Hp, Hf.
  rewrite bool_decide_eq_true_2 by done. cbn [andb truthyValue fst snd].
  unfold checkSharedFile, saveSharedFile, Store. rewrite lookup_insert_eq.
  split; [done|]. split; [done|]. split.
  - by rewrite delete_insert_eq.
  - intros env' n' c'. by rewrite lookup_delete_eq.
Qed.

Lemma share_handoff_witness :
  let request := {| method := str "POST"; pathname := str "/app/share-target";
                    formData := Ok (Some (FormFile
                      {| file_name := str "memo.m4a"; file_type := str "audio/mp4" |})) |} in
  checkSharedFile HookSpec.exampleProps HookSpec.exampleFileEnv
    (onfetch request ∅).1
    {| noteContent := str "old"; lastProcessedTranscriptLength := 3 |}
    HookSpec.idleComponent
  = (delete latest ∅, {| noteContent := []; lastProcessedTranscriptLength := 0 |},
     transcribeFile HookSpec.exampleProps HookSpec.exampleFileEnv
       {| file_name := str "memo.m4a"; file_type := str "audio/mp4" |}
       HookSpec.idleComponent).
Proof.
  intros request.
  destruct (share_handoff HookSpec.exampleProps HookSpec.exampleFileEnv request
              {| file_name := str "memo.m4a"; file_type := str "audio/mp4" |}
              ∅ {| noteContent := str "old"; lastProcessedTranscriptLength := 3 |}
              HookSpec.idleComponent) as (_ & _ & H & _);
    [reflexivity|reflexivity|reflexivity|exact H].
Defined.

End HandoffFacts.

(** ** The App component *)

Module EditorFacts.

Import JSString App Editor Clock Drag.

Lemma substring2_prefix (s : list Z) (a : Z) :
  0 <= a <= Z.of_nat (length s) -> substring2 s 0 a = take (Z.to_nat a) s.
Proof.
  intros H. unfold substring2.
  replace (Z.min (Z.max 0 0) _) with 0 by lia.
  replace (Z.min (Z.max a 0) _) with a by lia.
  replace (Z.min 0 a) with 0 by lia. replace (Z.max 0 a) with a by lia.
  by rewrite Z.sub_0_r.
Qed.

Lemma substring2_window (s : list Z) (a b : Z) :
  0 <= a <= b -> b <= Z.of_nat (length s) ->
  substring2 s a b = take (Z.to_nat (b - a)) (drop (Z.to_nat a) s).
Proof.
  intros H1 H2. unfold substring2.
  replace (Z.min (Z.max a 0) _) with a by lia.
  replace (Z.min (Z.max b 0) _) with b by lia.
  replace (Z.min a b) with a by lia. by replace (Z.max a b) with b by lia.
Qed.

Lemma substring_suffix (s : list Z) (b : Z) :
  0 <= b <= Z.of_nat (length s) -> substring s b = drop (Z.to_nat b) s.
Proof.
  intros H. unfold substring. by replace (Z.min (Z.max b 0) _) with b by lia.
Qed.

(** A value cut at a selection. *)
Lemma selection_split (s : list Z) (a b : Z) :
  0 <= a <= b -> b <= Z.of_nat (length s) ->
  s = substring2 s 0 a ++ substring2 s a b ++ substring s b
  /\ length (substring2 s 0 a) = Z.to_nat a
  /\ length (substring2 s a b) = Z.to_nat (b - a).
Proof.
  intros H1 H2.
  rewrite substring2_prefix, substring2_window, substring_suffix by lia.
  rewrite length_take, length_take, length_drop. split; [|lia].
  rewrite <- (take_drop (Z.to_nat a) s) at 1. f_equal.
  rewrite <- (take_drop (Z.to_nat (b - a)) (drop (Z.to_nat a) s)) at 1. f_equal.
  rewrite drop_drop. f_equal. lia.
Qed.

(** X25.  [handleStyleClick] wraps the selection.  For a textarea whose
    selection lies inside its value, the new value is the text before the
    selection, the marker, the selected text, the marker, and the text after;
    with a non-empty selection the new selection covers the selected text and
    both markers, with an empty one the cursor stands between the two
    markers. *)
Theorem style_wraps_selection (style : Style) (textarea : Textarea) :
  0 <= selectionStart textarea <= selectionEnd textarea ->
  selectionEnd textarea <= Z.of_nat (length (value textarea)) ->
  let before := substring2 (value textarea) 0 (selectionStart textarea) in
  let selected := substring2 (value textarea) (selectionStart textarea)
                    (selectionEnd textarea) in
  let after := substring (value textarea) (selectionEnd textarea) in
  exists textarea',
    handleStyleClick style (Some textarea) = Some textarea'
    /\ value textarea = before ++ selected ++ after
    /\ value textarea' = before ++ markers style ++ selected ++ markers style ++ after
    /\ (selected <> [] ->
        substring2 (value textarea') (selectionStart textarea') (selectionEnd textarea')
        = markers style ++ selected ++ markers style)
    /\ (selected = [] ->
        selectionStart textarea' = selectionEnd textarea'
        /\ substring2 (value textarea') 0 (selectionStart textarea')
           = before ++ markers style).
Proof.
  intros H1 H2 before selected after.
  destruct (selection_split (value textarea) _ _ H1 H2) as (Hv & Lb & Ls).
  fold before selected after in Hv, Lb, Ls.
  unfold handleStyleClick. cbv zeta. fold before selected after.
  set (m := markers style).
  assert (Lm : (1 <= length m <= 2)%nat) by (subst m; destruct style; cbn; lia).
  unfold truthy. destruct (bool_decide_reflect (selected = [])) as [E|E]; cbn [negb].
  - eexists. split; [reflexivity|]. split; [exact Hv|].
    cbn [value selectionStart selectionEnd setSelectionRange].
    rewrite E in *. cbn [app length] in *.
    split; [done|]. split; [done|]. intros _.
    rewrite !length_app, Lb.
    replace (Z.min _ _) with (selectionStart textarea + Z.of_nat (length m)) by lia.
    rewrite Z.leb_refl. split; [done|].
    rewrite substring2_prefix by (rewrite !length_app; lia).
    rewrite app_assoc. rewrite take_app_length'; [done|]. rewrite length_app. lia.
  - eexists. split; [reflexivity|]. split; [exact Hv|].
    cbn [value selectionStart selectionEnd setSelectionRange].
    split; [done|]. split; [|done]. intros _.
    assert (Ls' : (0 < length selected)%nat) by (destruct selected; [done|cbn; lia]).
    rewrite !length_app, Lb, Ls.
    replace (Z.min (selectionStart textarea) _) with (selectionStart textarea) by lia.
    replace (Z.min (selectionEnd textarea + _) _)
      with (selectionEnd textarea + 2 * Z.of_nat (length m)) by lia.
    replace (_ <=? _) with false by (symmetry; apply Z.leb_gt; lia).
    rewrite substring2_window by (rewrite ?length_app; lia).
    rewrite drop_app_length' by lia.
    rewrite (app_assoc m), (app_assoc (m ++ selected)).
    rewrite take_app_length'; [by rewrite <- app_assoc|].
    rewrite !length_app. lia.
Qed.

Lemma style_wraps_selection_witness :
  exists textarea',
    handleStyleClick bold
      (Some {| value := str "make this loud"; selectionStart := 5; selectionEnd := 9 |})
    = Some textarea'
    /\ value textarea' = str "make **this** loud"
    /\ substring2 (value textarea') (selectionStart textarea') (selectionEnd textarea')
       = str "**this**".
Proof.
  destruct (style_wraps_selection bold
              {| value := str "make this loud"; selectionStart := 5; selectionEnd := 9 |})
    as (t & H1 & _ & H3 & H4 & _).
  - cbn. lia.
  - vm_compute. discriminate.
  - exists t. split; [exact H1|]. split; [exact H3|]. apply H4. discriminate.
Defined.

(** *** The word count *)

Lemma trimStart_space lead s :
  Forall (fun c => isWhiteSpace c = true) lead -> trimStart (lead ++ s) = trimStart s.
Proof.
  induction 1 as [|c lead Hc _ IH]; [done|]. cbn [app trimStart]. by rewrite Hc.
Qed.

Lemma trimStart_word c s : isWhiteSpace c = false -> trimStart (c :: s) = c :: s.
Proof. intros H. cbn [trimStart]. by rewrite H. Qed.

(** A text that starts and ends with a code unit that is not white space,
    in white space on both sides. *)
Lemma trim_core lead trail core a b :
  Forall (fun c => isWhiteSpace c = true) lead ->
  Forall (fun c => isWhiteSpace c = true) trail ->
  head core = Some a -> last core = Some b ->
  isWhiteSpace a = false -> isWhiteSpace b = false ->
  trim (lead ++ core ++ trail) = core.
Proof.
  intros Hl Ht Hh Hla Ha Hb. apply head_Some in Hh as [core' ->].
  unfold trim, trimEnd. rewrite trimStart_space by done.
  change ((a :: core') ++ trail) with (a :: (core' ++ trail)).
  rewrite trimStart_word by done.
  change (a :: core' ++ trail) with ((a :: core') ++ trail).
  rewrite reverse_app, trimStart_space by (by apply Forall_reverse).
  apply last_Some in Hla as [m Em]. rewrite Em, reverse_snoc.
  rewrite trimStart_word by done. by rewrite <- reverse_snoc, reverse_involutive.
Qed.

Lemma split_run_word in_run c s :
  isWhiteSpace c = false ->
  split_run in_run (c :: s)
  = match split_run false s with
    | piece :: pieces => (c :: piece) :: pieces
    | [] => [[c]]
    end.
Proof. intros H. cbn [split_run]. by rewrite H. Qed.

Lemma split_run_nonempty in_run s : split_run in_run s <> [].
Proof.
  revert in_run. induction s as [|c s IH]; intros in_run; [done|].
  cbn [split_run]. destruct (isWhiteSpace c); [destruct in_run; [apply IH|done]|].
  by destruct (split_run false s).
Qed.

Lemma split_run_words word s :
  Forall (fun c => isWhiteSpace c = false) word ->
  split_run false (word ++ s)
  = match split_run false s with
    | piece :: pieces => (word ++ piece) :: pieces
    | [] => [word]
    end.
Proof.
  induction 1 as [|c word Hc _ IH]; cbn [app].
  - destruct (split_run false s) eqn:E; [by apply split_run_nonempty in E|done].
  - rewrite split_run_word by done. rewrite IH. by destruct (split_run false s).
Qed.

Lemma split_run_space sep s :
  Forall (fun c => isWhiteSpace c = true) sep ->
  split_run true (sep ++ s) = split_run true s.
Proof.
  induction 1 as [|c sep Hc _ IH]; [done|]. cbn [app split_run]. by rewrite Hc.
Qed.

Lemma split_run_separator sep s :
  sep <> [] -> Forall (fun c => isWhiteSpace c = true) sep ->
  split_run false (sep ++ s) = [] :: split_run true s.
Proof.
  intros Hne H. destruct H as [|c sep Hc H]; [done|].
  cbn [app split_run]. rewrite Hc. f_equal. by apply split_run_space.
Qed.

Lemma split_run_start c s :
  isWhiteSpace c = false -> split_run true (c :: s) = split_run false (c :: s).
Proof. intros H. by rewrite !split_run_word. Qed.

(** The text of some words with white space between them. *)
Lemma split_whitespace_words rest : forall first,
  first <> [] -> Forall (fun c => isWhiteSpace c = false) first ->
  Forall (fun p => p.1 <> [] /\ Forall (fun c => isWhiteSpace c = true) p.1
                   /\ p.2 <> [] /\ Forall (fun c => isWhiteSpace c = false) p.2)
    rest ->
  split_whitespace (first ++ concat (map (fun p => p.1 ++ p.2) rest))
  = first :: map snd rest.
Proof.
  unfold split_whitespace.
  induction rest as [|[sep word] rest IH]; intros first Hne Hf Hr.
  - cbn [map concat]. rewrite app_nil_r.
    rewrite <- (app_nil_r first) at 1. rewrite split_run_words by done.
    cbn [split_run map]. by rewrite app_nil_r.
  - apply Forall_cons in Hr as [(Hs1 & Hs2 & Hw1 & Hw2) Hr]. cbn [fst snd] in *.
    cbn [map concat fst snd]. rewrite split_run_words by done.
    rewrite <- app_assoc, split_run_separator by done.
    destruct word as [|c word]; [done|]. cbn [app].
    rewrite split_run_start by exact (Forall_inv Hw2).
    change (c :: word ++ concat (map (fun p => p.1 ++ p.2) rest))
      with ((c :: word) ++ concat (map (fun p => p.1 ++ p.2) rest)).
    rewrite IH by done. by rewrite app_nil_r.
Qed.

Lemma trim_blank s :
  Forall (fun c => isWhiteSpace c = true) s -> trim s = [].
Proof.
  intros H. unfold trim, trimEnd.
  rewrite <- (app_nil_r s), trimStart_space by done. done.
Qed.

Lemma words_last rest : forall first,
  first <> [] -> Forall (fun c => isWhiteSpace c = false) first ->
  Forall (fun p => p.1 <> [] /\ Forall (fun c => isWhiteSpace c = true) p.1
                   /\ p.2 <> [] /\ Forall (fun c => isWhiteSpace c = false) p.2)
    rest ->
  exists b, last (first ++ concat (map (fun p => p.1 ++ p.2) rest)) = Some b
            /\ isWhiteSpace b = false.
Proof.
  induction rest as [|[sep word] rest IH]; intros first Hne Hf Hr.
  - cbn [map concat]. rewrite app_nil_r.
    destruct (exists_last Hne) as (m & b & ->). exists b.
    rewrite last_snoc. split; [done|].
    apply Forall_app in Hf as [_ Hf]. by apply Forall_cons in Hf as [? _].
  - apply Forall_cons in Hr as [(Hs1 & Hs2 & Hw1 & Hw2) Hr]. cbn [fst snd] in *.
    destruct (IH word Hw1 Hw2 Hr) as (b & Hb & Wb). exists b. split; [|done].
    cbn [map concat fst snd]. rewrite <- app_assoc.
    by rewrite last_app, last_app, Hb.
Qed.

(** X29.  The word count counts words.  For a text made of one or more
    words (runs of code units that are not white space) with a non-empty
    run of white space between neighbours and any white space around, the
    pieces [split] gives of the trimmed text are exactly the words, in
    order, so the count shown is their number and the text has content; a
    text of white space only has no content and a count of 0. *)
Theorem wordCount_counts_words (lead trail first : list Z)
    (rest : list (list Z * list Z)) :
  Forall (fun c => isWhiteSpace c = true) lead ->
  Forall (fun c => isWhiteSpace c = true) trail ->
  first <> [] -> Forall (fun c => isWhiteSpace c = false) first ->
  Forall (fun p => p.1 <> [] /\ Forall (fun c => isWhiteSpace c = true) p.1
                   /\ p.2 <> [] /\ Forall (fun c => isWhiteSpace c = false) p.2)
    rest ->
  let text := lead ++ (first ++ concat (map (fun p => p.1 ++ p.2) rest)) ++ trail in
  split_whitespace (trim text) = first :: map snd rest
  /\ wordCount text = 1 + Z.of_nat (length rest)
  /\ hasContent text = true
  /\ wordCount (lead ++ trail) = 0
  /\ hasContent (lead ++ trail) = false.
Proof.
  intros Hl Ht Hne Hf Hr text.
  assert (Hb : trim (lead ++ trail) = []) by (apply trim_blank; by apply Forall_app).
  assert (Hcore : trim text = first ++ concat (map (fun p => p.1 ++ p.2) rest)).
  { subst text. destruct (words_last rest first Hne Hf Hr) as (b & Hlast & Wb).
    destruct first as [|a first']; [done|].
    apply (trim_core lead trail _ a b); try done.
    by apply Forall_cons in Hf as [? _]. }
  rewrite Hcore.
  assert (Hs := split_whitespace_words rest first Hne Hf Hr).
  split; [exact Hs|]. unfold wordCount, hasContent. rewrite Hcore, Hs, Hb.
  assert (Hn : first ++ concat (map (fun p => p.1 ++ p.2) rest) <> []).
  { intros E. apply app_eq_nil in E as [E _]. done. }
  unfold truthy. rewrite bool_decide_eq_false_2 by done. cbn [negb length].
  rewrite length_map. split; [lia|]. split; [|done].
  apply Nat.ltb_lt. destruct (first ++ _); [done|cbn; lia].
Qed.

Lemma wordCount_counts_words_witness :
  wordCount (str "  two   words ") = 2 /\ hasContent (str "  two   words ") = true.
Proof.
  destruct (wordCount_counts_words (str "  ") (str " ") (str "two")
              [(str "   ", str "words")]) as (_ & H2 & H3 & _).
  - by repeat constructor.
  - by repeat constructor.
  - discriminate.
  - by repeat constructor.
  - repeat constructor; try discriminate; done.
  - split; [exact H2|exact H3].
Defined.

(** *** The clock *)

Lemma two_digits_checked :
  forallb (fun n => bool_decide
             (padStart (String_of (Z.of_nat n)) 2 48
              = [48 + Z.of_nat n / 10; 48 + Z.of_nat n mod 10]))
    (seq 0 100) = true.
Proof. by vm_compute. Qed.

(** Below a hundred, a number is padded to its two decimal digits. *)
Lemma two_digits n :
  0 <= n < 100 -> padStart (String_of n) 2 48 = [48 + n / 10; 48 + n mod 10].
Proof.
  intros H. pose proof two_digits_checked as C.
  rewrite forallb_forall in C. specialize (C (Z.to_nat n)).
  rewrite Z2Nat.id in C by lia.
  apply bool_decide_eq_true_1 in C; [exact C|]. apply in_seq. lia.
Qed.

(** X26.  [formatTime] below a hundred minutes.  For 0 <= seconds < 6000
    the text is two digits of minutes, a colon and two digits of seconds,
    zero-padded: five characters that read back as the number of
    seconds. *)
Theorem formatTime_mm_ss (seconds : Z) :
  0 <= seconds < 6000 ->
  formatTime seconds
  = [48 + seconds / 60 / 10; 48 + seconds / 60 mod 10; 58;
     48 + seconds mod 60 / 10; 48 + seconds mod 60 mod 10].
Proof.
  intros H. unfold formatTime. cbv zeta.
  rewrite Z.rem_mod_nonneg by lia.
  assert (H1 : 0 <= seconds / 60 < 100)
    by (split; [apply Z.div_pos; lia|apply Z.div_lt_upper_bound; lia]).
  assert (H2 : 0 <= seconds mod 60 < 100)
    by (pose proof (Z.mod_pos_bound seconds 60 ltac:(lia)); lia).
  by rewrite !two_digits by done.
Qed.

Lemma formatTime_mm_ss_witness : formatTime 754 = str "12:34".
Proof.
  rewrite formatTime_mm_ss; [reflexivity|]. split; [discriminate|reflexivity].
Defined.

(** *** The drag overlay *)

Lemma handleAll_snoc events ev o :
  handleAll (events ++ [ev]) o = handle ev (handleAll events o).
Proof. unfold handleAll. by rewrite foldl_app. Qed.

(** X27.  The drag overlay.  For any sequence of drag events in which
    the counter never goes below zero (no leave without its enter), starting
    from a state that hides the overlay when the counter is zero: whenever
    the counter is back at zero the overlay is hidden. *)
Theorem overlay_hidden_when_balanced (events : list DragEvent) (o : Overlay) :
  (dragCounter o = 0 -> isDragging o = false) ->
  (forall k, 0 <= dragCounter (handleAll (take k events) o)) ->
  dragCounter (handleAll events o) = 0 ->
  isDragging (handleAll events o) = false.
Proof.
  intros H0. induction events as [|ev events IH] using rev_ind; intros Hp Hz.
  - by apply H0.
  - rewrite handleAll_snoc in *.
    assert (Hp' : forall k, 0 <= dragCounter (handleAll (take k events) o)).
    { intros k. destruct (decide (k <= length events)%nat) as [Hk|Hk].
      - specialize (Hp k). by rewrite take_app_le in Hp.
      - specialize (Hp (length events)). rewrite take_app_length in Hp.
        by rewrite take_ge by lia. }
    pose proof (Hp' (length events)) as Hn. rewrite firstn_all in Hn.
    destruct ev as [hasItems| | |]; cbn in *.
    + lia.
    + by rewrite Hz.
    + by apply IH.
    + done.
Qed.

Lemma overlay_hidden_when_balanced_witness :
  isDragging (handleAll [DragEnter true; DragEnter true; DragLeave; DragOver; DragLeave]
                {| dragCounter := 0; isDragging := false |}) = false.
Proof.
  apply overlay_hidden_when_balanced; [done| |reflexivity].
  intros k. do 6 (destruct k as [|k]; [by vm_compute|]). by vm_compute.
Defined.

End EditorFacts.
